(** * palworld-admin: process lifecycle and configuration synchronisation

    A shallow embedding of the core of [palworld_admin/servermanager]:
    the settings merger ([update_palworld_settings_ini]), the backup
    manager ([backup_server], in its two pruning variants), the process
    locator ([identify_process_by_name]) and the bootstrap sequence
    ([first_run]).

    Python strings are modelled as lists of characters.  A character is a
    code point below 256, so the whitespace class of [str.strip] and of the
    regular expression class [\s] is the one Python uses on that range.
    Operating-system interactions (the public address lookup, process
    queries, the recursive copy) are inputs of the model. *)

From Stdlib Require Import List Ascii String ZArith Lia Bool Arith PeanoNat.
From Stdlib Require Import Sorted Permutation.
Import ListNotations.

(** ** Python strings *)

Module PyStr.

Definition str := list ascii.

Definition lit (s : string) : str := list_ascii_of_string s.

Definition dq : ascii := "034"%char.
Definition comma : ascii := ","%char.
Definition eq_sign : ascii := "="%char.
Definition lparen : ascii := "("%char.
Definition rparen : ascii := ")"%char.
Definition space : ascii := " "%char.
Definition newline : ascii := "010"%char.

Definition str_eqb (a b : str) : bool :=
  if list_eq_dec ascii_dec a b then true else false.

(** [c in s] for a one-character [c]. *)
Definition contains (c : ascii) (s : str) : bool :=
  existsb (Ascii.eqb c) s.

(** Python's [str.isspace] on code points below 256: tab to carriage
    return, the four separators 28..31, the space, NEL and the no-break
    space. *)
Definition is_space (c : ascii) : bool :=
  let n := nat_of_ascii c in
  ((9 <=? n) && (n <=? 13)) || ((28 <=? n) && (n <=? 32))
  || (n =? 133) || (n =? 160).

(** [s.startswith(p)] *)
Fixpoint startswith (p s : str) : bool :=
  match p, s with
  | [], _ => true
  | _ :: _, [] => false
  | a :: p', b :: s' => Ascii.eqb a b && startswith p' s'
  end.

(** [s.endswith(p)] *)
Definition endswith (p s : str) : bool := startswith (rev p) (rev s).

(** [s.find(c)] for a one-character [c]: the least index, or -1. *)
Fixpoint find (c : ascii) (s : str) : Z :=
  match s with
  | [] => (-1)%Z
  | a :: s' =>
      if Ascii.eqb a c then 0%Z
      else let r := find c s' in
           if (r <? 0)%Z then (-1)%Z else (r + 1)%Z
  end.

(** [s.rfind(c)]: the greatest index, or -1. *)
Fixpoint rfind (c : ascii) (s : str) : Z :=
  match s with
  | [] => (-1)%Z
  | a :: s' =>
      let r := rfind c s' in
      if (0 <=? r)%Z then (r + 1)%Z
      else if Ascii.eqb a c then 0%Z else (-1)%Z
  end.

(** [s[i:j]]; negative indices count from the end, as in Python. *)
Definition slice (s : str) (i j : Z) : str :=
  let n := Z.of_nat (List.length s) in
  let norm k := if (k <? 0)%Z then Z.max 0 (k + n) else Z.min k n in
  let i' := norm i in
  let j' := norm j in
  firstn (Z.to_nat (j' - i')) (skipn (Z.to_nat i') s).

Fixpoint lstrip (s : str) : str :=
  match s with
  | [] => []
  | c :: s' => if is_space c then lstrip s' else s
  end.

Definition rstrip (s : str) : str := rev (lstrip (rev s)).

(** [s.strip()] *)
Definition strip (s : str) : str := rstrip (lstrip s).

(** [s.partition(c)] for a one-character separator: the text before the
    first [c] and the text after it; the middle component is dropped, as
    the callers do.  Without a separator the tail is empty. *)
Fixpoint partition (c : ascii) (s : str) : str * str :=
  match s with
  | [] => ([], [])
  | a :: s' =>
      if Ascii.eqb a c then ([], s')
      else let '(h, t) := partition c s' in (a :: h, t)
  end.

(** [sep.join(parts)] for a one-character separator. *)
Fixpoint join (sep : ascii) (parts : list str) : str :=
  match parts with
  | [] => []
  | [p] => p
  | p :: rest => p ++ sep :: join sep rest
  end.

(** Number of double quotes in a string. *)
Fixpoint count_dq (s : str) : nat :=
  match s with
  | [] => 0
  | c :: s' => (if Ascii.eqb c dq then 1 else 0) + count_dq s'
  end.

(** [p in s] and [s.find(p) != -1] for a string [p]. *)
Fixpoint contains_sub (p s : str) : bool :=
  match s with
  | [] => startswith p []
  | _ :: s' => startswith p s || contains_sub p s'
  end.

(** [s.split(c)] for a one-character separator; [acc] is the current
    piece, reversed. *)
Fixpoint split_on (c : ascii) (acc : str) (s : str) : list str :=
  match s with
  | [] => [rev acc]
  | a :: s' =>
      if Ascii.eqb a c then rev acc :: split_on c [] s'
      else split_on c (a :: acc) s'
  end.

Definition split (c : ascii) (s : str) : list str := split_on c [] s.

(** The order of [str] comparison: lexicographic on code points. *)
Fixpoint str_leb (a b : str) : bool :=
  match a, b with
  | [], _ => true
  | _ :: _, [] => false
  | x :: a', y :: b' =>
      if Ascii.eqb x y then str_leb a' b'
      else nat_of_ascii x <? nat_of_ascii y
  end.

Fixpoint insert_sorted (le : str -> str -> bool) (x : str) (l : list str)
  : list str :=
  match l with
  | [] => [x]
  | y :: l' => if le x y then x :: l else y :: insert_sorted le x l'
  end.

(** [l.sort()] on strings.  The names sorted below are pairwise distinct
    (they are the entries of one directory), so every sorting algorithm
    returns this list. *)
Definition sort (l : list str) : list str :=
  fold_right (insert_sorted str_leb) [] l.

(** [l.sort(reverse=True)] *)
Definition sort_reverse (l : list str) : list str :=
  fold_right (insert_sorted (fun a b => str_leb b a)) [] l.

(** Truthiness of a string: the empty string is false. *)
Definition truthy (s : str) : bool :=
  match s with [] => false | _ => true end.

(** [c.lower()] below 256: the letters A to Z and the capital letters of
    the Latin-1 supplement (192 to 222, without the multiplication sign
    215) move up by 32. *)
Definition lower_char (c : ascii) : ascii :=
  let n := nat_of_ascii c in
  if ((65 <=? n) && (n <=? 90))
     || ((192 <=? n) && (n <=? 222) && negb (n =? 215))
  then ascii_of_nat (n + 32) else c.

(** [s.lower()] *)
Definition lower (s : str) : str := map lower_char s.

(** The characters [int] and [float] read as digits, below 256. *)
Definition is_decimal (c : ascii) : bool :=
  let n := nat_of_ascii c in (48 <=? n) && (n <=? 57).

(** [c.isdigit()] below 256: the ten digits and the superscripts two,
    three and one. *)
Definition is_digit (c : ascii) : bool :=
  let n := nat_of_ascii c in
  is_decimal c || (n =? 178) || (n =? 179) || (n =? 185).

(** [s.isdigit()]: false on the empty string. *)
Definition isdigit (s : str) : bool := truthy s && forallb is_digit s.

(** [s.replace(c, empty, 1)]: the first [c] goes. *)
Fixpoint remove_first (c : ascii) (s : str) : str :=
  match s with
  | [] => []
  | a :: s' => if Ascii.eqb a c then s' else a :: remove_first c s'
  end.

(** [s.replace(c, empty)]: every [c] goes. *)
Definition remove_all (c : ascii) (s : str) : str :=
  filter (fun a => negb (Ascii.eqb a c)) s.

(** The number that a string of decimal digits denotes. *)
Definition int_of_digits (s : str) : Z :=
  fold_left (fun acc c => (10 * acc + Z.of_nat (nat_of_ascii c - 48))%Z)
            s 0%Z.

(** The default of [sys.get_int_max_str_digits()]: the most digits,
    leading zeros included, that [int] converts. *)
Definition int_max_str_digits : nat := 4300.

(** [int(s)] for a string of decimal digits; [None] stands for the
    [ValueError] raised beyond the limit. *)
Definition int_of_str (s : str) : option Z :=
  if List.length s <=? int_max_str_digits then Some (int_of_digits s)
  else None.

(** [s.find(p)] for a string [p]: the least index at which [p] starts,
    or -1. *)
Fixpoint find_sub (p s : str) : Z :=
  match s with
  | [] => if startswith p [] then 0%Z else (-1)%Z
  | _ :: s' =>
      if startswith p s then 0%Z
      else let r := find_sub p s' in
           if (r <? 0)%Z then (-1)%Z else (r + 1)%Z
  end.

(** The longest prefix whose characters satisfy [p], and the rest. *)
Fixpoint span (p : ascii -> bool) (s : str) : str * str :=
  match s with
  | [] => ([], [])
  | c :: s' =>
      if p c then let '(a, b) := span p s' in (c :: a, b) else ([], s)
  end.

Fixpoint lstrip_char (c : ascii) (s : str) : str :=
  match s with
  | [] => []
  | a :: s' => if Ascii.eqb a c then lstrip_char c s' else s
  end.

(** [s.strip(c)] for a one-character [c]. *)
Definition strip_char (c : ascii) (s : str) : str :=
  rev (lstrip_char c (rev (lstrip_char c s))).

(** The class [\w] of regular expressions on code points below 256:
    digits, letters and the underscore, with the letters and numeric
    characters of the Latin-1 supplement. *)
Definition is_word (c : ascii) : bool :=
  let n := nat_of_ascii c in
  ((48 <=? n) && (n <=? 57)) || ((65 <=? n) && (n <=? 90)) || (n =? 95)
  || ((97 <=? n) && (n <=? 122))
  || (n =? 170) || (n =? 178) || (n =? 179) || (n =? 181) || (n =? 185)
  || (n =? 186) || ((188 <=? n) && (n <=? 190))
  || ((192 <=? n) && (n <=? 214)) || ((216 <=? n) && (n <=? 246))
  || (248 <=? n).

End PyStr.
Import PyStr.

(** ** Python dictionaries

    A [dict] keeps its keys in insertion order, and that order is visible
    in the merger (new tokens are appended in the order of the update
    map), so a dictionary is an association list with distinct keys. *)

Module Dict.

Definition dict := list (str * str).

Definition keys (d : dict) : list str := map fst d.

(** [k in d] *)
Fixpoint contains_key (k : str) (d : dict) : bool :=
  match d with
  | [] => false
  | (k', _) :: d' => str_eqb k k' || contains_key k d'
  end.

(** [d[k]]; [None] stands for [KeyError]. *)
Fixpoint get (k : str) (d : dict) : option str :=
  match d with
  | [] => None
  | (k', v) :: d' => if str_eqb k k' then Some v else get k d'
  end.

(** [d[k] = v]: an existing key keeps its position, a new key goes last. *)
Fixpoint set (k v : str) (d : dict) : dict :=
  match d with
  | [] => [(k, v)]
  | (k', v') :: d' =>
      if str_eqb k k' then (k, v) :: d' else (k', v') :: set k v d'
  end.

(** [d.pop(k)] without a default: [None] stands for [KeyError]. *)
Fixpoint pop (k : str) (d : dict) : option dict :=
  match d with
  | [] => None
  | (k', v') :: d' =>
      if str_eqb k k' then Some d'
      else match pop k d' with
           | Some r => Some ((k', v') :: r)
           | None => None
           end
  end.

End Dict.

(** ** The server manager, [palworld_admin/servermanager/__init__.py] *)

Module ServerManager.

Import Dict.

(** Result dictionaries carry a status and a message (the process locator
    uses the key [value] instead); a key that was never assigned is
    [None]. *)
Record result := mk_result {
  status : option str;
  message : option str;
  value : option str
}.

Definition empty_result : result := mk_result None None None.

Definition success (m : string) : result :=
  mk_result (Some (lit "success")) (Some (lit m)) None.
Definition error (m : string) : result :=
  mk_result (Some (lit "error")) (Some (lit m)) None.

Definition is_success (r : result) : bool :=
  match status r with
  | Some s => str_eqb s (lit "success")
  | None => false
  end.

Definition is_error (r : result) : bool :=
  match status r with
  | Some s => str_eqb s (lit "error")
  | None => false
  end.

(** *** SettingsMerger: [update_palworld_settings_ini] *)

Definition marker : str := lit "OptionSettings=".

(** The nested helper [quote_value_if_needed]. *)
Definition quote_value_if_needed (value : str) : str :=
  if startswith [dq] value && endswith [dq] value then value
  else if existsb (fun char => contains char value) (lit " ,()")
          || contains space value
       then dq :: value ++ [dq]
       else value.

(** The nested helper [split_settings_string]: [re.split] on the pattern
    made of a comma, then [\s*], then a look-ahead that pairs up the
    double quotes of the remaining text up to its end.
    The look-ahead succeeds exactly when the text after the match holds an
    even number of double quotes, and white space holds none, so a comma
    separates exactly when an even number of quotes follows it, and the
    match then swallows all the white space after the comma.  [skipping]
    is true while that white space is being swallowed; [acc] is the
    current piece, reversed. *)
Fixpoint split_aux (skipping : bool) (acc : str) (s : str) : list str :=
  match s with
  | [] => [rev acc]
  | c :: rest =>
      if skipping && is_space c then split_aux true acc rest
      else if Ascii.eqb c comma && Nat.even (count_dq rest)
           then rev acc :: split_aux true [] rest
           else split_aux false (c :: acc) rest
  end.

Definition split_settings_string (settings_string : str) : list str :=
  split_aux false [] settings_string.

(** Exceptions the modelled code can raise. *)
Inductive exception := KeyError | ValueError | OSError.

(** The body of the loop over the pieces of the directive: the rewritten
    pieces and what is left of [settings_left_to_change], or the
    [KeyError] of [pop] on a key met twice. *)
Fixpoint modify_settings (settings_to_change settings_left_to_change : dict)
  (settings : list str) : option (list str * dict) :=
  match settings with
  | [] => Some ([], settings_left_to_change)
  | setting :: rest =>
      let '(key0, value) := partition eq_sign setting in
      let key := strip key0 in
      match get key settings_to_change with
      | Some v =>
          let new_value := quote_value_if_needed v in
          match pop key settings_left_to_change with
          | None => None
          | Some remaining =>
              match modify_settings settings_to_change remaining rest with
              | Some (ms, l) => Some ((key ++ eq_sign :: new_value) :: ms, l)
              | None => None
              end
          end
      | None =>
          match modify_settings settings_to_change settings_left_to_change
                  rest with
          | Some (ms, l) =>
              Some ((key ++ eq_sign :: quote_value_if_needed value) :: ms, l)
          | None => None
          end
      end
  end.

(** What one pass of the loop body does to a directive line. *)
Inductive line_result :=
| LineOk (line : str)
| LineReturn (r : result)
| LineRaise (e : exception).

Definition span_error : result :=
  error "Error reading settings file, settings_string_end is less than settings_string_start".

Definition rewrite_line (settings_to_change : dict) (settings_line : str)
  : line_result :=
  let settings_string_start := (find lparen settings_line + 1)%Z in
  let settings_string_end := rfind rparen settings_line in
  if (settings_string_end >? settings_string_start)%Z then
    let settings_string :=
      slice settings_line settings_string_start settings_string_end in
    let settings := split_settings_string settings_string in
    match modify_settings settings_to_change settings_to_change settings with
    | None => LineRaise KeyError
    | Some (modified_settings, settings_left_to_change) =>
        let appended :=
          map (fun kv => fst kv ++ eq_sign :: quote_value_if_needed (snd kv))
              settings_left_to_change in
        let modified_settings_string :=
          join comma (modified_settings ++ appended) in
        LineOk (marker ++ lparen :: modified_settings_string
                       ++ [rparen; newline])
    end
  else LineReturn span_error.

Inductive loop_result :=
| LoopDone (lines : list str)
| LoopReturn (r : result)
| LoopRaise (e : exception).

(** [for i, line in enumerate(lines)]: a directive line is replaced in
    place, any other line is kept. *)
Fixpoint rewrite_lines (settings_to_change : dict) (lines : list str)
  : loop_result :=
  match lines with
  | [] => LoopDone []
  | line :: rest =>
      if startswith marker line then
        match rewrite_line settings_to_change line with
        | LineOk line' =>
            match rewrite_lines settings_to_change rest with
            | LoopDone ls => LoopDone (line' :: ls)
            | other => other
            end
        | LineReturn r => LoopReturn r
        | LineRaise e => LoopRaise e
        end
      else
        match rewrite_lines settings_to_change rest with
        | LoopDone ls => LoopDone (line :: ls)
        | other => other
        end
  end.

(** What [file_to_lines] hands back: an error dictionary or the lines. *)
Inductive lines_read := LinesError (r : result) | Lines (lines : list str).

Inductive outcome := Raised (e : exception) | Returned (r : result).

(** A call of [update_palworld_settings_ini]: how it ends, what it wrote
    to the settings file (if it wrote), and the caller's dictionary as
    the call leaves it (the function assigns into its argument). *)
Record call := mk_call {
  ending : outcome;
  written : option (list str);
  settings_after : dict
}.

(** Lines 1252 to 1262: the two assignments into [settings_to_change]
    that precede the [try] block. *)
Definition normalise_rcon (settings_to_change : dict) : option dict :=
  match get (lit "RCONEnabled") settings_to_change with
  | None => None
  | Some v =>
      if str_eqb v (lit "true")
      then Some (set (lit "RCONEnabled") (lit "True") settings_to_change)
      else if str_eqb v (lit "false")
      then Some (set (lit "RCONEnabled") (lit "False") settings_to_change)
      else Some settings_to_change
  end.

(** [public_ip] is what [get_public_ip()] returns ([None] or a string),
    [ini] what [file_to_lines] returns for the settings file.  The final
    write-back is taken to succeed. *)
Definition update_palworld_settings_ini (public_ip : option str)
  (ini : lines_read) (settings_to_change : dict) : call :=
  match public_ip with
  | Some ip =>
      if truthy ip then
        let stc := set (lit "PublicIP") (dq :: ip ++ [dq]) settings_to_change in
        match normalise_rcon stc with
        | None => mk_call (Raised KeyError) None stc
        | Some stc' =>
            match ini with
            | LinesError r => mk_call (Returned r) None stc'
            | Lines lines =>
                match rewrite_lines stc' lines with
                | LoopDone lines' =>
                    mk_call (Returned (success "Settings updated successfully"))
                            (Some lines') stc'
                | LoopReturn r => mk_call (Returned r) None stc'
                | LoopRaise _ =>
                    mk_call (Returned (error "Error writing settings file"))
                            None stc'
                end
            end
        end
      else mk_call (Returned (error "Error getting public IP address"))
                   None settings_to_change
  | None => mk_call (Returned (error "Error getting public IP address"))
                    None settings_to_change
  end.

(** The contract [merge(document, updates)] of the specification, read
    off a call: the document written, when the call wrote one. *)
Definition merge (public_ip : str) (document : list str) (updates : dict)
  : option (list str) :=
  written (update_palworld_settings_ini (Some public_ip) (Lines document)
                                        updates).

(** *** BackupManager: [backup_server] *)

(** An entry of the backup root: its name, whether it is a directory, and
    the listing of its [Saved] subdirectory when it has one. *)
Record entry := mk_entry {
  name : str;
  is_dir : bool;
  saved : option (list str)
}.

Definition auto_tag : str := lit "AutoBackup".

(** The folder name built from the time stamp and the backup type. *)
Definition backup_folder_name (timestamp backup_type : str) : str :=
  if str_eqb backup_type (lit "manual") then timestamp
  else if str_eqb backup_type (lit "launch")
  then timestamp ++ lit "-LaunchBackup"
  else if str_eqb backup_type (lit "firstrun")
  then timestamp ++ lit "-FirstRunBackup"
  else timestamp ++ lit "-AutoBackup".

(** [shutil.rmtree(os.path.join(backup_path, folder))] *)
Definition rmtree (folder : str) (root : list entry) : list entry :=
  filter (fun e => negb (str_eqb (name e) folder)) root.

(** [shutil.rmtree(backup_folder)], where [backup_folder] is the [Saved]
    directory inside the time-stamped folder: the subdirectory goes, the
    time-stamped folder stays. *)
Definition rmtree_saved (folder : str) (root : list entry) : list entry :=
  map (fun e => if str_eqb (name e) folder
                then mk_entry (name e) (is_dir e) None else e) root.

(** [os.path.exists(backup_folder)] *)
Definition saved_exists (folder : str) (root : list entry) : bool :=
  existsb (fun e => str_eqb (name e) folder
                    && match saved e with Some _ => true | None => false end)
          root.

(** [shutil.copytree(data_path, backup_folder)] creates the time-stamped
    folder and its [Saved] subdirectory; [listing] is what [os.listdir]
    then reports for the destination. *)
Definition copytree (folder : str) (listing : list str) (root : list entry)
  : list entry :=
  if existsb (fun e => str_eqb (name e) folder) root
  then map (fun e => if str_eqb (name e) folder
                     then mk_entry (name e) (is_dir e) (Some listing) else e)
           root
  else root ++ [mk_entry folder true (Some listing)].

(** The directories of the backup root, as the list comprehension over
    [os.listdir(backup_path)] collects them. *)
Definition backup_folders (root : list entry) : list str :=
  map name (filter is_dir root).

Definition tagged (folder : str) : bool := contains_sub auto_tag folder.

(** Lines 1498 to 1524: the pruning step. *)
Definition prune (backup_count : Z) (root : list entry) : list entry :=
  if (backup_count >? 0)%Z then
    let folders_to_prune := sort (filter tagged (backup_folders root)) in
    if (Z.of_nat (List.length folders_to_prune) >? backup_count)%Z then
      fold_left (fun r folder => rmtree folder r)
        (firstn (List.length folders_to_prune - Z.to_nat backup_count)
                folders_to_prune)
        root
    else root
  else root.

(** What a failed [shutil.copytree] leaves of the time-stamped folder:
    the folder is given the [Saved] subdirectory [partial] (or none), and
    is created when it is not there. *)
Definition leave (folder : str) (partial : option (list str))
  (root : list entry) : list entry :=
  if existsb (fun e => str_eqb (name e) folder) root
  then map (fun e => if str_eqb (name e) folder
                     then mk_entry (name e) (is_dir e) partial else e)
           root
  else root ++ [mk_entry folder true partial].

(** The outcome of the recursive copy: the listing of the destination
    after the copy, or an exception.  [shutil.copytree] creates the
    destination before it copies, so a copy that raises can leave the
    time-stamped folder behind: [residue] is [None] when nothing was
    created, and otherwise the state of the [Saved] subdirectory of that
    folder (missing, or with the entries copied so far). *)
Inductive copy_outcome :=
| CopyError (residue : option (option (list str)))
| Copied (listing : list str).

Record query := mk_query {
  backup_type : option str;
  backup_count : option Z
}.

(** [backup_server(query)]: [root] is the content of the backup root,
    [timestamp] the formatted time, [data_contents] the listing of the
    data directory and [copy] the outcome of [shutil.copytree].  A key
    missing from [query] leaves its variable unbound, and the first use
    raises inside the [try] block. *)
Definition backup_server (q : query) (timestamp : str)
  (data_contents : list str) (copy : copy_outcome) (root : list entry)
  : result * list entry :=
  let exception_result := error "Exception while backing up server data" in
  match backup_type q with
  | None => (exception_result, root)
  | Some ty =>
      let folder := backup_folder_name timestamp ty in
      if saved_exists folder root then (exception_result, root)
      else
        match copy with
        | CopyError None => (exception_result, root)
        | CopyError (Some partial) =>
            (exception_result, leave folder partial root)
        | Copied backup_contents =>
            let root1 := copytree folder backup_contents root in
            let '(res, root2) :=
              if list_eq_dec (list_eq_dec ascii_dec)
                   data_contents backup_contents
              then (success "Server data backed up successfully", root1)
              else (error "Error backing up server data",
                    if saved_exists folder root1
                    then rmtree_saved folder root1 else root1) in
            match backup_count q with
            | None => (exception_result, root2)
            | Some n => (res, prune n root2)
            end
        end
  end.

(** *** ProcessLocator: [identify_process_by_name] *)

Inductive os := Windows | Linux | Wine.

Definition is_windows (o : os) : bool :=
  match o with Windows => true | _ => false end.

(** The fields of [app_settings.localserver] the modelled functions read
    or write.  [pid] is [None] or a string; both [None] and the empty
    string are false. *)
Record localserver := mk_localserver {
  pid : option str;
  running : bool;
  expected_to_be_running : bool;
  use_get_counters : bool;
  counters_instance_name : option str
}.

Definition pid_truthy (p : option str) : bool :=
  match p with Some s => truthy s | None => false end.

Definition set_pid (p : option str) (l : localserver) : localserver :=
  mk_localserver p (running l) (expected_to_be_running l)
    (use_get_counters l) (counters_instance_name l).
Definition set_running (b : bool) (l : localserver) : localserver :=
  mk_localserver (pid l) b (expected_to_be_running l)
    (use_get_counters l) (counters_instance_name l).
Definition set_expected (b : bool) (l : localserver) : localserver :=
  mk_localserver (pid l) (running l) b
    (use_get_counters l) (counters_instance_name l).
Definition set_instance (i : str) (l : localserver) : localserver :=
  mk_localserver (pid l) (running l) (expected_to_be_running l)
    (use_get_counters l) (Some i).

(** One [subprocess.run(find_cmd, check=True, ...)]: a non-zero exit
    status raises [CalledProcessError] (with its text), otherwise the
    captured standard output is returned.  When the command cannot be
    started at all the call raises [OSError] ([FileNotFoundError] for a
    missing program), which the handlers of the loops below do not
    catch. *)
Inductive lookup :=
| CalledProcessError (text : str)
| Stdout (s : str)
| NotStarted.

(** The state of the retry loop: the server record, the result
    dictionary, the counter [attempts], and two ghost counters for the
    lookups run and the one-second sleeps taken. *)
Record locating := mk_locating {
  server : localserver;
  res : result;
  attempts : nat;
  lookups : nat;
  sleeps : nat
}.

(** How one round of a loop ends. *)
Inductive round :=
| Return (l : locating)
| Break (l : locating)
| Continue (l : locating)
| Raise (e : exception) (l : locating).

Definition found (p : str) : result :=
  mk_result (Some (lit "success")) None (Some p).
Definition no_match : result :=
  mk_result (Some (lit "success")) None
            (Some (lit "No matching processes found.")).
Definition failure (v : str) : result :=
  mk_result (Some (lit "error")) None (Some v).
Definition exhausted : result := failure (lit "Failed to find process").

(** Lines 670 to 677 (and 707 to 714): the tail shared by both loops. *)
Definition count_attempt (max_attempts : nat) (l : locating) : round :=
  let attempts' := S (attempts l) in
  if max_attempts <? attempts' then
    Break (mk_locating (server l) exhausted attempts' (lookups l) (sleeps l))
  else
    Continue (mk_locating (server l) (res l) attempts' (lookups l)
                          (S (sleeps l))).

Definition with_lookup (l : locating) : locating :=
  mk_locating (server l) (res l) (attempts l) (S (lookups l)) (sleeps l).

Definition update (sv : localserver) (r : result) (l : locating) : locating :=
  mk_locating sv r (attempts l) (lookups l) (sleeps l).

(** Lines 573 to 677: one round of the loop of the Windows branch. *)
Definition windows_round (max_attempts : nat) (out : lookup) (l0 : locating)
  : round :=
  let l := with_lookup l0 in
  match out with
  | CalledProcessError text =>
      count_attempt max_attempts
        (update (server l) (failure (lit "Process not found: " ++ text)) l)
  | Stdout stdout =>
      if truthy stdout then
        let parsed :=
          if use_get_counters (server l) then
            match split comma (strip stdout) with
            | [matched_pid; instance_result] =>
                Some (matched_pid, set_instance instance_result (server l))
            | _ => None
            end
          else Some (strip stdout, server l) in
        match parsed with
        | None => Raise ValueError l
        | Some (matched_pid, sv) =>
            if truthy matched_pid then
              Return (update (set_running true (set_pid (Some matched_pid) sv))
                             (found matched_pid) l)
            else
              count_attempt max_attempts
                (update (set_pid None (set_running false sv)) no_match l)
        end
      else count_attempt max_attempts l
  | NotStarted => Raise OSError l
  end.

(** Lines 682 to 714: one round of the loop of the other branch, on
    [pgrep -f].  [split] never returns an empty list, so the first piece
    always exists. *)
Definition pgrep_round (max_attempts : nat) (out : lookup) (l0 : locating)
  : round :=
  let l := with_lookup l0 in
  match out with
  | CalledProcessError _ =>
      count_attempt max_attempts
        (update (server l)
                (failure (lit "Failed to find process due to error.")) l)
  | Stdout stdout =>
      if truthy stdout then
        match split newline (strip stdout) with
        | p :: _ =>
            count_attempt max_attempts
              (update (set_running true (set_pid (Some p) (server l)))
                      (found p) l)
        | [] =>
            count_attempt max_attempts (update (server l) no_match l)
        end
      else count_attempt max_attempts l
  | NotStarted => Raise OSError l
  end.

(** [while not app_settings.localserver.pid: ...].  [run n] is the
    outcome of the [n]-th lookup.  [None] means the fuel ran out. *)
Fixpoint locate_loop (fuel : nat) (o : os) (max_attempts : nat)
  (run : nat -> lookup) (l : locating) : option round :=
  if pid_truthy (pid (server l)) then Some (Break l)
  else
    match fuel with
    | O => None
    | S fuel' =>
        let r := if is_windows o
                 then windows_round max_attempts (run (lookups l)) l
                 else pgrep_round max_attempts (run (lookups l)) l in
        match r with
        | Continue l' => locate_loop fuel' o max_attempts run l'
        | other => Some other
        end
    end.

(** The value of [max_attempts] after lines 530 to 533. *)
Definition max_attempts_of (sv : localserver) : nat :=
  if negb (expected_to_be_running sv) then 1 else 5.

(** [identify_process_by_name()]: what the call returns (or raises), and
    the loop state it ends in.  The loop is run with [max_attempts + 2]
    units of fuel, which it never uses up ([identify_process_by_name_total]
    below). *)
Definition identify_process_by_name (o : os) (run : nat -> lookup)
  (sv : localserver) : option (outcome * locating) :=
  let l := mk_locating (set_pid None sv) empty_result 0 0 0 in
  match locate_loop (S (S (max_attempts_of sv))) o (max_attempts_of sv)
                    run l with
  | None => None
  | Some (Return l') => Some (Returned (res l'), l')
  | Some (Break l') => Some (Returned (res l'), l')
  | Some (Continue l') => Some (Returned (res l'), l')
  | Some (Raise e l') => Some (Raised e, l')
  end.

(** *** LifecycleController: [run_server] and [first_run] *)

(** The steps of the bootstrap sequence, as they are taken. *)
Inductive event :=
| Started (r : result)
| Slept (seconds : nat)
| Terminated (p : option str) (ok : bool)
| DefaultsCopied (r : result)
| SettingsMerged (r : result).

(** The server record together with the surroundings the bootstrap
    sequence talks to: the lookups of the process query, whether
    [subprocess.Popen] and [save_user_settings_to_db] go through, for
    which process identifier the kill command succeeds, whether that
    command can be started at all, the default
    settings file (when there is one), whether removing the settings file
    and copying the default file go through, the settings file as
    [file_to_lines] reads it, what [file_to_lines] reads once the
    settings file has been removed and not copied back, and the public
    address.  [trace] records the steps taken, oldest first. *)
Record world := mk_world {
  app_os : os;
  local : localserver;
  find_process : nat -> lookup;
  popen_ok : bool;
  db_ok : bool;
  kill_ok : option str -> bool;
  kill_started : bool;
  default_ini : option (list str);
  delete_ok : bool;
  copy_ok : bool;
  ini : lines_read;
  ini_left : lines_read;
  public_ip : option str;
  trace : list event
}.

Definition set_local (sv : localserver) (w : world) : world :=
  mk_world (app_os w) sv (find_process w) (popen_ok w) (db_ok w) (kill_ok w)
    (kill_started w) (default_ini w) (delete_ok w) (copy_ok w) (ini w)
    (ini_left w) (public_ip w) (trace w).
Definition set_ini (f : lines_read) (w : world) : world :=
  mk_world (app_os w) (local w) (find_process w) (popen_ok w) (db_ok w)
    (kill_ok w) (kill_started w) (default_ini w) (delete_ok w) (copy_ok w) f
    (ini_left w) (public_ip w) (trace w).
Definition log (ev : event) (w : world) : world :=
  mk_world (app_os w) (local w) (find_process w) (popen_ok w) (db_ok w)
    (kill_ok w) (kill_started w) (default_ini w) (delete_ok w) (copy_ok w)
    (ini w) (ini_left w) (public_ip w) (trace w ++ [ev]).

(** [run_server(launcher_args)] for a [launcher_args] that holds every
    key the function reads, as the one [first_run] builds does.  Any
    exception inside the [try] block ends in the same error result. *)
Definition run_server (w : world) : option (result * world) :=
  if running (local w) then Some (error "Server is already running", w)
  else
    let w1 := set_local (set_expected true (local w)) w in
    if popen_ok w1 then
      match identify_process_by_name (app_os w1) (find_process w1)
                                     (local w1) with
      | None => None
      | Some (Raised _, l) =>
          Some (error "Error starting server", set_local (server l) w1)
      | Some (Returned identified, l) =>
          let w2 := set_local (server l) w1 in
          if is_success identified && db_ok w2
          then Some (success "Server started successfully", w2)
          else Some (error "Error starting server", w2)
      end
    else Some (error "Error starting server", w1).

(** [terminate_process_by_pid(pid)]; both branches differ only in the
    command they run.  A command that exits with an error is caught and
    gives [False]; a command that cannot be started raises [OSError],
    which the function does not catch: [None] stands for it. *)
Definition terminate_process_by_pid (p : option str) (w : world)
  : option (bool * world) :=
  if kill_started w then
    if kill_ok w p then Some (true, set_local (set_running false (local w)) w)
    else Some (false, w)
  else None.

(** [copy_default_settings()].  Without a default file nothing is
    touched.  Otherwise [delete_existing_settings()] comes first: when
    removing the settings file raises, the error result of that step is
    returned and the file stays; when it goes through (or there is no
    file), no settings file is left.  The copy then puts the default file
    in its place, or fails and leaves the settings file missing.  A
    removal that does not raise is taken to have removed the file. *)
Definition copy_default_settings (w : world) : result * world :=
  match default_ini w with
  | None => (error "Default settings file not found", w)
  | Some d =>
      if delete_ok w then
        if copy_ok w
        then (success "Default settings copied to the server",
              set_ini (Lines d) w)
        else (error "Error copying default settings to the server",
              set_ini (ini_left w) w)
      else (error "Error deleting existing settings on the server", w)
  end.

(** The dictionary [first_run] passes to the merger. *)
Definition first_run_settings : dict :=
  [(lit "RCONEnabled", lit "True");
   (lit "AdminPassword", dq :: lit "admin" ++ [dq]);
   (lit "bShowPlayerList", lit "False")].

(** [first_run()].  The value of [run_server] is dropped, as in the
    source; it is kept in the trace only. *)
Definition first_run (w0 : world) : option (outcome * world) :=
  let w := set_local (set_expected true (local w0)) w0 in
  match run_server w with
  | None => None
  | Some (started, w) =>
      let w := log (Slept 3) (log (Started started) w) in
      match terminate_process_by_pid (pid (local w)) w with
      | None => Some (Raised OSError, w)
      | Some (terminated, w) =>
      let w := log (Terminated (pid (local w)) terminated) w in
      if terminated then
        let '(copied, w) := copy_default_settings w in
        let w := log (DefaultsCopied copied) w in
        let w := set_local (set_expected false (set_running false (local w)))
                           w in
        if is_success copied then
          let c := update_palworld_settings_ini (public_ip w) (ini w)
                                                first_run_settings in
          let w := match written c with
                   | Some lines => set_ini (Lines lines) w
                   | None => w
                   end in
          match ending c with
          | Raised e => Some (Raised e, w)
          | Returned rcon_enabled =>
              let w := log (SettingsMerged rcon_enabled) w in
              if is_success rcon_enabled
              then Some (Returned (success "Server installed successfully"), w)
              else Some (Returned (error "Error enabling RCON on the server"),
                         w)
          end
        else Some (Returned
                     (error "Error copying default settings to the server"), w)
      else Some (Returned (error "Error terminating server"), w)
      end
  end.

(** *** ResourceSampler: [check_server_running] *)

(** The key [value] of the monitor's result: [True], [False], or the
    text of the error path. *)
Inductive liveness := Alive | NotAlive | Unknown (text : str).

(** The result dictionary of the monitor.  Numbers are kept as the text
    the samplers hand over; a key that was never assigned is [None]. *)
Record reading := mk_reading {
  reading_status : option str;
  reading_value : option liveness;
  cpu_time : option str;
  cpu_usage : option str;
  ram_usage : option str
}.

(** Lines 977 to 981 (and the three other places with the same five
    assignments). *)
Definition not_running : reading :=
  mk_reading (Some (lit "success")) (Some NotAlive)
             (Some (lit "0")) (Some (lit "0")) (Some (lit "0")).

(** What [get_cpu_time_by_pid] gives for a non-empty process identifier:
    an exception other than [IOError] (a malformed [stat] file), the
    error dictionary, or the two numbers. *)
Inductive cpu_sample :=
| CpuRaises
| CpuError
| Cpu (time usage : str).

(** What [get_ram_usage_by_pid] gives: an exception (the conversion of a
    text that is no number), the error dictionary, or the number. *)
Inductive ram_sample :=
| RamRaises
| RamError
| Ram (usage : str).

(** The performance counter query of the Windows branch: a non-zero exit
    status, or the captured output. *)
Inductive counters := CountersFailed (returncode : Z) | CountersOut (s : str).

(** The surroundings of one call: the lookups of the process query, the
    counter query and the conversion of its output into the two numbers
    ([None] when a conversion raises), whether [server_process] is set
    and has exited, and the two samplers. *)
Record probes := mk_probes {
  probe_find : nat -> lookup;
  probe_counters : counters;
  probe_usage : str -> option (str * str);
  probe_exited : option bool;
  probe_cpu : cpu_sample;
  probe_ram : ram_sample
}.

(** How a call ends: with an exception that nothing catches, or with a
    result dictionary. *)
Inductive monitored := MonitorRaised | Monitored (r : reading).

(** The four assignments that forget the process. *)
Definition forget (sv : localserver) : localserver :=
  set_pid None (set_running false sv).

(** Lines 982 to 1115, entered with a process identifier at hand. *)
Definition sample_server (o : os) (env : probes) (sv : localserver)
  : monitored * localserver :=
  if is_windows o then
    match probe_counters env with
    | CountersOut stdout =>
        let cmd_output := strip stdout in
        if truthy cmd_output then
          match probe_usage env cmd_output with
          | None => (MonitorRaised, sv)
          | Some (cpu, ram) =>
              (Monitored (mk_reading (Some (lit "success")) (Some Alive)
                            None (Some cpu) (Some ram)), sv)
          end
        else (Monitored not_running, forget sv)
    | CountersFailed returncode =>
        if (returncode =? 1)%Z then (Monitored not_running, forget sv)
        else (Monitored
                (mk_reading (Some (lit "error"))
                   (Some (Unknown
                      (lit "Can't identify server process using Get-Counter or WMI")))
                   None None None), sv)
    end
  else
    match probe_exited env with
    | Some true => (Monitored not_running, forget sv)
    | _ =>
        match probe_cpu env with
        | CpuRaises => (MonitorRaised, sv)
        | CpuError => (Monitored not_running, sv)
        | Cpu time usage =>
            match probe_ram env with
            | RamRaises => (MonitorRaised, sv)
            | RamError =>
                (Monitored (mk_reading (Some (lit "success")) (Some Alive)
                              (Some time) (Some usage) None), sv)
            | Ram ram =>
                (Monitored (mk_reading (Some (lit "success")) (Some Alive)
                              (Some time) (Some usage) (Some ram)), sv)
            end
        end
    end.

(** [check_server_running()]: the result (or the exception) and the
    server record as the call leaves it.  The value of
    [identify_process_by_name] is dropped; only its effect on the record
    counts. *)
Definition check_server_running (o : os) (env : probes) (sv : localserver)
  : option (monitored * localserver) :=
  let located :=
    if pid_truthy (pid sv) then Some (Returned empty_result, sv)
    else match identify_process_by_name o (probe_find env) sv with
         | Some (out, l) => Some (out, server l)
         | None => None
         end in
  match located with
  | None => None
  | Some (Raised _, sv1) => Some (MonitorRaised, sv1)
  | Some (Returned _, sv1) =>
      if pid_truthy (pid sv1) then Some (sample_server o env sv1)
      else Some (Monitored not_running, sv1)
  end.

(** *** [read_server_settings] *)

(** One match of the pattern of line 151 at the start of [s]: a run of
    word characters, an equals sign, and then either a text in double
    quotes or everything up to the next comma.  The run of word
    characters is the longest one: a shorter one is followed by a word
    character, not by the equals sign.  The first alternative of the
    value needs a closing quote; the second one always matches.  The
    result is the key, the value and the text after the match. *)
Definition match_setting (s : str) : option (str * str * str) :=
  match span is_word s with
  | ((_ :: _) as key, c :: after) =>
      if Ascii.eqb c eq_sign then
        match after with
        | q :: quoted_tail =>
            if Ascii.eqb q dq && contains dq quoted_tail then
              let '(body, rest) := partition dq quoted_tail in
              Some (key, dq :: body ++ [dq], rest)
            else
              let '(v, rest) :=
                span (fun x => negb (Ascii.eqb x comma)) after in
              Some (key, v, rest)
        | [] => Some (key, [], [])
        end
      else None
  | _ => None
  end.

(** [pattern.findall]: the matches from left to right; the search goes
    on where the last match ended, and moves by one character where
    nothing matches.  Every round consumes a character, so the length of
    the text is enough [fuel]. *)
Fixpoint findall (fuel : nat) (s : str) : list (str * str) :=
  match fuel with
  | O => []
  | S fuel' =>
      match s with
      | [] => []
      | _ :: s' =>
          match match_setting s with
          | Some (key, value, rest) => (key, value) :: findall fuel' rest
          | None => findall fuel' s'
          end
      end
  end.

Definition findall_settings (settings_string : str) : list (str * str) :=
  findall (List.length settings_string) settings_string.

(** The result dictionary of the reader; [read_value] is the content of
    the file, or the text of an error. *)
Record settings_read := mk_settings_read {
  read_status : option str;
  read_message : option str;
  read_value : option str;
  read_settings : option dict
}.

(** [read_server_settings()]: [content] is what reading the settings file
    gives ([None] when it raises), [local_ip] what [get_local_ip()]
    returns. *)
Definition read_server_settings (content : option str)
  (local_ip : option str) : settings_read :=
  match content with
  | None =>
      mk_settings_read (Some (lit "error")) None
        (Some (lit "Error reading settings file")) None
  | Some content =>
      let settings_start :=
        (find_sub (lit "OptionSettings=(") content + 16)%Z in
      let settings_end := rfind rparen content in
      let settings_string := slice content settings_start settings_end in
      let settings := findall_settings settings_string in
      let settings_dict :=
        fold_left (fun d kv => set (strip (fst kv)) (strip_char dq (snd kv)) d)
                  settings [] in
      match local_ip with
      | Some ip =>
          if truthy ip then
            mk_settings_read (Some (lit "success")) None (Some content)
              (Some (set (lit "LocalIP") ip settings_dict))
          else
            mk_settings_read (Some (lit "error"))
              (Some (lit "Error getting local IP address")) (Some content)
              (Some settings_dict)
      | None =>
          mk_settings_read (Some (lit "error"))
            (Some (lit "Error getting local IP address")) (Some content)
            (Some settings_dict)
      end
  end.

(** *** [generate_world_option_save] *)

(** The entry written for a setting: its type tag and its value.  The
    value of a [FloatProperty] is kept as the text that [float] reads. *)
Inductive property :=
| BoolProperty (value : bool)
| FloatProperty (text : str)
| IntProperty (value : Z)
| StrProperty (value : str).

Definition dot : ascii := "."%char.
Definition apostrophe : ascii := "'"%char.

(** Lines 1552 to 1572: the classification of a submitted value, a
    string.  [isdigit] also accepts the superscript digits, which [int]
    and [float] reject with [ValueError], and [int] rejects a numeral of
    more than 4300 digits with [ValueError] ([float] has no such limit);
    [None] stands for that exception, which nothing catches. *)
Definition classify (submitted_value : str) : option property :=
  if str_eqb (lower submitted_value) (lit "true")
     || str_eqb (lower submitted_value) (lit "false")
  then Some (BoolProperty (str_eqb (lower submitted_value) (lit "true")))
  else if isdigit (remove_first dot submitted_value) then
    if forallb is_decimal (remove_first dot submitted_value) then
      if contains dot submitted_value
      then Some (FloatProperty submitted_value)
      else match int_of_str submitted_value with
           | Some n => Some (IntProperty n)
           | None => None
           end
    else None
  else Some (StrProperty
               (remove_all dq (remove_all apostrophe submitted_value))).

(** Lines 1547 to 1579: the loop over the default values, which collects
    the entries of the settings that were submitted with a value other
    than the default.  The default values are taken as the text [str]
    gives for them, and the submitted values are strings.  What follows
    the loop (the files written and copied) is not modelled. *)
Fixpoint generate_world_option_save (default_values data : dict)
  : option (list (str * property)) :=
  match default_values with
  | [] => Some []
  | (key, default_value) :: rest =>
      let submitted_value :=
        match get key data with
        | Some v => v
        | None => default_value
        end in
      if negb (str_eqb submitted_value default_value) then
        match classify submitted_value with
        | None => None
        | Some p =>
            match generate_world_option_save rest data with
            | Some ps => Some ((key, p) :: ps)
            | None => None
            end
        end
      else generate_world_option_save rest data
  end.

(** *** [install_steamcmd] and [install_server] *)

(** What [install_steamcmd] meets: the variable [WINEPREFIX], whether
    the download, the unpacking and the removal of the archive go
    through, whether [steamcmd.exe] is there afterwards, and, on Linux,
    whether every package command exits with status 0. *)
Record steamcmd_setup := mk_steamcmd_setup {
  wineprefix : option str;
  download_ok : bool;
  unzip_ok : bool;
  remove_ok : bool;
  steamcmd_present : bool;
  packages_ok : bool
}.

(** How the call ends: with an exception, without a value (the function
    falls off its end), or with a result dictionary. *)
Inductive steamcmd_installed :=
| SteamcmdRaised (e : exception)
| SteamcmdNothing
| SteamcmdResult (r : result).

(** [install_steamcmd()], lines 221 to 389.  The Wine branch removes the
    archive inside the [try] block of the unpacking, and returns a result
    only when [steamcmd.exe] is there. *)
Definition install_steamcmd (o : os) (env : steamcmd_setup)
  : steamcmd_installed :=
  let installed := success "SteamCMD installed successfully" in
  match o with
  | Windows =>
      if negb (download_ok env)
      then SteamcmdResult (error "Error downloading steamcmd.zip")
      else if negb (unzip_ok env)
      then SteamcmdResult (error "Error unzipping steamcmd.zip")
      else if negb (remove_ok env)
      then SteamcmdResult (error "Error removing steamcmd.zip")
      else SteamcmdResult installed
  | Wine =>
      match wineprefix env with
      | None => SteamcmdRaised KeyError
      | Some _ =>
          if negb (download_ok env)
          then SteamcmdResult (error "Error downloading steamcmd.zip")
          else if negb (unzip_ok env && remove_ok env)
          then SteamcmdResult (error "Error unzipping steamcmd.zip")
          else if steamcmd_present env then SteamcmdResult installed
          else SteamcmdNothing
      end
  | Linux =>
      if packages_ok env then SteamcmdResult installed
      else SteamcmdResult (error "Error installing SteamCMD")
  end.

(** What [install_server] meets besides: the flag [steamcmd_installed]
    of the record, whether the result of [install_palserver] has status
    [success] (every path of that function sets a status), and the value
    [check_palworld_install] reports: [True], [False], or ([None]) the
    text of an error. *)
Record installation := mk_installation {
  steamcmd_known : bool;
  setup : steamcmd_setup;
  palserver_ok : bool;
  saved_data : option bool
}.

(** The result dictionary of [install_server]. *)
Record install_report := mk_install_report {
  report_status : option str;
  report_message : option str;
  report_steamcmd : result;
  report_palserver_ok : bool;
  report_first_run : option result
}.

(** How [install_server] ends: subscripting the missing result of
    [install_steamcmd] raises [TypeError]; an exception of
    [install_steamcmd] or of [first_run] is passed on. *)
Inductive install_ending :=
| InstallTypeError
| InstallRaised (e : exception)
| InstallReturned (r : install_report).

(** [install_server()], lines 1414 to 1441.  The status is assigned in
    two places only, and both assign [success]. *)
Definition install_server (inst : installation) (w : world)
  : option (install_ending * world) :=
  let steamcmd_result :=
    if negb (steamcmd_known inst) then install_steamcmd (app_os w) (setup inst)
    else SteamcmdResult (success "SteamCMD already installed") in
  match steamcmd_result with
  | SteamcmdRaised e => Some (InstallRaised e, w)
  | SteamcmdNothing => Some (InstallTypeError, w)
  | SteamcmdResult steamcmd =>
      let both := is_success steamcmd && palserver_ok inst in
      let status_so_far := if both then Some (lit "success") else None in
      let message_so_far :=
        if both then Some (lit "Server installed successfully") else None in
      match saved_data inst with
      | Some false =>
          match first_run w with
          | None => None
          | Some (Raised e, w') => Some (InstallRaised e, w')
          | Some (Returned first_run_result, w') =>
              Some (InstallReturned
                      (mk_install_report
                         (if is_success first_run_result
                          then Some (lit "success") else status_so_far)
                         (if is_success first_run_result
                          then Some (lit "Server installed successfully")
                          else message_so_far)
                         steamcmd (palserver_ok inst)
                         (Some first_run_result)), w')
          end
      | _ =>
          Some (InstallReturned
                  (mk_install_report status_so_far message_so_far steamcmd
                                     (palserver_ok inst) None), w)
      end
  end.

(** *** [uninstall_server] *)

(** What a call meets: the variable [HOME], whether every command run
    with [check=True] exits with status 0, and what is still there
    afterwards: [/usr/games/steamcmd], the two Steam directories below
    the home directory and, on Windows, the installation directory. *)
Record removal := mk_removal {
  home : option str;
  commands_ok : bool;
  steamcmd_left : bool;
  share_left : bool;
  dot_steam_left : bool;
  install_dir_left : bool
}.

Inductive uninstall_exception := HomeKeyError | UnboundLocalError.

Inductive uninstalled :=
| UninstallRaised (e : uninstall_exception)
| UninstallReturned (r : result).

(** [uninstall_server()].  Off Windows the two flags are assigned only
    when the check goes through, so each of them is either [True] or
    unbound ([None]); reading an unbound one raises, and only
    [CalledProcessError] is caught. *)
Definition uninstall_server (o : os) (env : removal) : uninstalled :=
  let failed := error "Error uninstalling Palworld Dedicated Server" in
  let done := success "Palworld Dedicated Server uninstalled successfully" in
  if is_windows o then
    if commands_ok env then
      if negb (install_dir_left env) then UninstallReturned done
      else UninstallReturned failed
    else UninstallReturned failed
  else
    match home env with
    | None => UninstallRaised HomeKeyError
    | Some _ =>
        if commands_ok env then
          let steamcmd_uninstalled :=
            if negb (steamcmd_left env) then Some true else None in
          let directories_removed :=
            if negb (share_left env) && negb (dot_steam_left env)
            then Some true else None in
          match steamcmd_uninstalled with
          | None => UninstallRaised UnboundLocalError
          | Some a =>
              if a then
                match directories_removed with
                | None => UninstallRaised UnboundLocalError
                | Some b =>
                    if b then UninstallReturned done
                    else UninstallReturned failed
                end
              else UninstallReturned failed
          end
        else UninstallReturned failed
    end.

End ServerManager.

(** ** The older copy, [palworld_admin/servermanager/local/__init__.py] *)

Module ServerManagerLocal.

Import ServerManager.

(** [backup_folders.remove(folder)]: the first occurrence goes. *)
Fixpoint list_remove (folder : str) (l : list str) : list str :=
  match l with
  | [] => []
  | x :: l' => if str_eqb x folder then l' else x :: list_remove folder l'
  end.

(** Lines 534 to 536: the [for] loop that removes from the list it
    iterates over.  The list iterator is an index into the live list; it
    stops when the index reaches the current length.  Each round moves
    the index by one, so the initial length is enough [fuel]. *)
Fixpoint drop_untagged (fuel i : nat) (l : list str) : list str :=
  match fuel with
  | O => l
  | S fuel' =>
      match nth_error l i with
      | None => l
      | Some folder =>
          if negb (contains_sub auto_tag folder)
          then drop_untagged fuel' (S i) (list_remove folder l)
          else drop_untagged fuel' (S i) l
      end
  end.

(** Lines 523 to 541: the pruning step of this copy. *)
Definition prune (backup_count : Z) (root : list entry) : list entry :=
  if (backup_count >? 0)%Z then
    let sorted := sort_reverse (backup_folders root) in
    let kept := drop_untagged (List.length sorted) 0 sorted in
    if (Z.of_nat (List.length kept) >? backup_count)%Z then
      fold_left (fun r folder => rmtree folder r)
        (skipn (Z.to_nat backup_count) kept)
        root
    else root
  else root.

(** *** The merger of this copy

    Lines 907 to 983; [servermanager/local/__init__.py] has the same text
    at lines 675 to 751.  The directive is cut at the first closing
    parenthesis and split at every comma. *)

Import Dict.

(** The loop over the pieces.  The key is what precedes the first equals
    sign; a piece without equals sign makes the subscript of the split
    raise [IndexError], for which [None] stands.  A piece whose key is in
    the update map is replaced, any other piece is kept as it is. *)
Fixpoint modify_settings (settings_to_change : dict) (settings : list str)
  : option (list str) :=
  match settings with
  | [] => Some []
  | setting :: rest =>
      let key := fst (partition eq_sign setting) in
      if contains eq_sign setting then
        let setting' :=
          match get key settings_to_change with
          | Some v => key ++ eq_sign :: v
          | None => setting
          end in
        match modify_settings settings_to_change rest with
        | Some modified_settings => Some (setting' :: modified_settings)
        | None => None
        end
      else None
  end.

Definition rewrite_line (settings_to_change : dict) (settings_line : str)
  : option str :=
  let settings_string :=
    slice settings_line (find lparen settings_line + 1)
          (find rparen settings_line) in
  let settings := split comma settings_string in
  match modify_settings settings_to_change settings with
  | None => None
  | Some modified_settings =>
      Some (marker ++ lparen :: join comma modified_settings
                   ++ [rparen; newline])
  end.

(** [for i, line in enumerate(lines)]; [None] stands for the exception
    that ends the loop. *)
Fixpoint rewrite_lines (settings_to_change : dict) (lines : list str)
  : option (list str) :=
  match lines with
  | [] => Some []
  | line :: rest =>
      let line' :=
        if startswith marker line then rewrite_line settings_to_change line
        else Some line in
      match line', rewrite_lines settings_to_change rest with
      | Some l, Some ls => Some (l :: ls)
      | _, _ => None
      end
  end.

(** The call, with the same surroundings as in the current copy. *)
Definition update_palworld_settings_ini (public_ip : option str)
  (ini : lines_read) (settings_to_change : dict) : call :=
  match public_ip with
  | Some ip =>
      if truthy ip then
        let stc :=
          set (lit "PublicIP") (dq :: ip ++ [dq]) settings_to_change in
        match normalise_rcon stc with
        | None => mk_call (Raised KeyError) None stc
        | Some stc' =>
            match ini with
            | LinesError r => mk_call (Returned r) None stc'
            | Lines lines =>
                match rewrite_lines stc' lines with
                | Some lines' =>
                    mk_call (Returned (success "Settings updated successfully"))
                            (Some lines') stc'
                | None =>
                    mk_call (Returned (error "Error writing settings file"))
                            None stc'
                end
            end
        end
      else mk_call (Returned (error "Error getting public IP address"))
                   None settings_to_change
  | None => mk_call (Returned (error "Error getting public IP address"))
                    None settings_to_change
  end.

(** *** The reader of this copy

    Lines 427 to 475; [servermanager/local/__init__.py] has the same text
    at lines 225 to 273. *)

(** The loop over the pieces of a directive: the key is what precedes
    the first equals sign, the value what stands between the first and
    the second; a piece without equals sign raises [IndexError]. *)
Fixpoint read_pieces (settings : list str) (settings_dict : dict)
  : option dict :=
  match settings with
  | [] => Some settings_dict
  | setting :: rest =>
      if contains eq_sign setting then
        let key := fst (partition eq_sign setting) in
        let value :=
          fst (partition eq_sign (snd (partition eq_sign setting))) in
        read_pieces rest (set key value settings_dict)
      else None
  end.

(** The dictionary of the result: its values are strings, but for the
    local address, which is stored as [get_local_ip()] returns it. *)
Definition entries := list (str * option str).

Definition entries_of (d : dict) : entries :=
  map (fun kv => (fst kv, Some (snd kv))) d.

Fixpoint assign (k : str) (v : option str) (d : entries) : entries :=
  match d with
  | [] => [(k, v)]
  | (k', v') :: d' =>
      if str_eqb k k' then (k, v) :: d' else (k', v') :: assign k v d'
  end.

(** The key [value] of the result: the lines of the file, or the text
    of an error. *)
Inductive read_text := FileLines (lines : list str) | ErrorText (s : str).

Record file_read := mk_file_read {
  file_status : option str;
  file_message : option str;
  file_value : option read_text;
  file_settings : option entries
}.

(** [for _, line in enumerate(lines)]: every directive line replaces the
    settings of the result; an exception ends the loop and leaves what
    the result held. *)
Fixpoint read_lines (local_ip : option str) (lines : list str)
  (r : file_read) : file_read :=
  match lines with
  | [] => r
  | line :: rest =>
      if startswith marker line then
        let settings_string :=
          slice line (find lparen line + 1) (find rparen line) in
        match read_pieces (split comma settings_string) [] with
        | None =>
            mk_file_read (Some (lit "error")) (file_message r)
              (Some (ErrorText (lit "Error processing settings file")))
              (file_settings r)
        | Some settings_dict =>
            read_lines local_ip rest
              (mk_file_read
                 (Some (if pid_truthy local_ip then lit "success"
                        else lit "error"))
                 (if pid_truthy local_ip then file_message r
                  else Some (lit "Error getting local IP address"))
                 (file_value r)
                 (Some (assign (lit "LocalIP") local_ip
                               (entries_of settings_dict))))
        end
      else read_lines local_ip rest r
  end.

(** [read_server_settings()]: [lines] is what [readlines] gives ([None]
    when reading raises). *)
Definition read_server_settings (lines : option (list str))
  (local_ip : option str) : file_read :=
  match lines with
  | None =>
      mk_file_read (Some (lit "error")) None
        (Some (ErrorText (lit "Error reading settings file"))) None
  | Some lines =>
      read_lines local_ip lines
        (mk_file_read (Some (lit "success")) None (Some (FileLines lines))
                      None)
  end.

End ServerManagerLocal.

(** ** The oldest copy, [servermanager/local/__init__.py] *)

Module ServerManagerOldest.

Import Dict ServerManager.

(** *** The locator of this copy, lines 816 to 906 *)

(** [re.findall] with the pattern of line 837 (start of a line, white
    space, a captured run of digits) in multi-line mode.  A match starts
    at the beginning of the text or after a line feed; its white space
    may run over further line feeds.  [Lead] is the state in which only
    white space has been read since the start of a line, [Digits] the
    state inside a captured run (kept reversed), [Skip] the state in
    which nothing matches before the next line feed. *)
Inductive scan := Lead | Digits (acc : str) | Skip.

Definition after (c : ascii) : scan :=
  if Ascii.eqb c newline then Lead else Skip.

Fixpoint findall_from (st : scan) (s : str) : list str :=
  match s with
  | [] => match st with Digits acc => [rev acc] | _ => [] end
  | c :: s' =>
      match st with
      | Lead =>
          if is_decimal c then findall_from (Digits [c]) s'
          else if is_space c then findall_from Lead s'
          else findall_from Skip s'
      | Digits acc =>
          if is_decimal c then findall_from (Digits (c :: acc)) s'
          else rev acc :: findall_from (after c) s'
      | Skip => findall_from (after c) s'
      end
  end.

Definition findall_pids (stdout : str) : list str := findall_from Lead stdout.

(** What a call leaves: the result dictionary ([None] when the function
    returns nothing, because it falls off its end or because an exception
    leaves it), the server record, the numbers of lookups run and of
    one-second sleeps taken, and the exception that left the call, if
    any. *)
Record search := mk_search {
  found_result : option result;
  searched : localserver;
  search_lookups : nat;
  search_sleeps : nat;
  escaped : option exception
}.

(** [for n in range(10)]: [remaining] rounds are left, [n] have been
    run.  A non-empty output and a failing command both end the call; an
    empty output is followed by a sleep; a command that cannot be started
    raises [OSError], which nothing catches.  Only the branch for the
    other systems has a statement after the loop. *)
Fixpoint attempts_loop (o : os) (run : nat -> lookup) (remaining n : nat)
  (sv : localserver) : search :=
  match remaining with
  | O =>
      mk_search
        (if is_windows o then None
         else Some (failure (lit "Process not found after multiple attempts.")))
        sv n n None
  | S remaining' =>
      match run n with
      | CalledProcessError text =>
          mk_search
            (Some (failure
                     (if is_windows o
                      then lit "Failed to execute find command: " ++ text
                      else lit "Failed to find process due to error.")))
            sv (S n) n None
      | Stdout stdout =>
          if truthy stdout then
            let pids :=
              if is_windows o then findall_pids stdout
              else split newline (strip stdout) in
            match pids with
            | p :: _ =>
                mk_search (Some (found p))
                          (set_running true (set_pid (Some p) sv)) (S n) n
                          None
            | [] => mk_search (Some no_match) sv (S n) n None
            end
          else attempts_loop o run remaining' (S n) sv
      | NotStarted => mk_search None sv (S n) n (Some OSError)
      end
  end.

(** [identify_process_by_name(executable_name)] *)
Definition identify_process_by_name (o : os) (run : nat -> lookup)
  (sv : localserver) : search :=
  attempts_loop o run 10 0 sv.

(** *** The bootstrap sequence of this copy, lines 754 to 813 *)

(** [run_server(launcher_args)], lines 570 to 602: the process is
    started and the record marked as running; nothing is looked up. *)
Definition run_server (w : world) : result * world :=
  if popen_ok w
  then (success "Server started successfully",
        set_local (set_running true (local w)) w)
  else (error "Error starting server", w).

Definition first_run_settings : dict :=
  [(lit "RCONEnabled", lit "True");
   (lit "AdminPassword", dq :: lit "admin" ++ [dq])].

(** How a call of [first_run] ends: subscripting the missing result of
    the locator raises [TypeError]; an exception of the locator or of the
    merger is passed on. *)
Inductive ending :=
| RaisedTypeError
| RaisedBy (e : exception)
| ReturnedResult (r : result).

(** [first_run()].  The functions that terminate the process and copy
    the default settings have the text of the current copy. *)
Definition first_run (w0 : world) : ending * world :=
  let '(started, w) := run_server w0 in
  let w := log (Slept 10) (log (Started started) w) in
  let s := identify_process_by_name (app_os w) (find_process w) (local w) in
  let w := set_local (searched s) w in
  match escaped s, found_result s with
  | Some e, _ => (RaisedBy e, w)
  | None, None => (RaisedTypeError, w)
  | None, Some identified =>
      if is_success identified then
        let w := log (Slept 5) w in
        match terminate_process_by_pid (value identified) w with
        | None => (RaisedBy OSError, w)
        | Some (terminated, w) =>
        let w := log (Terminated (value identified) terminated) w in
        if terminated then
          let '(copied, w) := copy_default_settings w in
          let w := log (DefaultsCopied copied) w in
          if is_success copied then
            let c := ServerManagerLocal.update_palworld_settings_ini
                       (public_ip w) (ini w) first_run_settings in
            let w := match written c with
                     | Some lines => set_ini (Lines lines) w
                     | None => w
                     end in
            match ServerManager.ending c with
            | Raised e => (RaisedBy e, w)
            | Returned rcon_enabled =>
                let w := log (SettingsMerged rcon_enabled) w in
                if is_success rcon_enabled
                then (ReturnedResult (success "Server installed successfully"),
                      w)
                else (ReturnedResult
                        (error "Error enabling RCON on the server"), w)
            end
          else (ReturnedResult
                  (error "Error copying default settings to the server"), w)
        else (ReturnedResult (error "Error terminating server"), w)
        end
      else (ReturnedResult (error "Error identifying server process"), w)
  end.

End ServerManagerOldest.

(** ** Well-formed settings documents and update maps

    The directive line of the specification: the marker, an opening
    parenthesis, entries [key=value] separated by commas, a closing
    parenthesis, and whatever follows it on the line. *)

Module Documents.

Import Dict ServerManager.

Definition render (kv : str * str) : str := fst kv ++ eq_sign :: snd kv.

Definition directive (entries : list (str * str)) (rest : str) : str :=
  marker ++ lparen :: join comma (map render entries) ++ rparen :: rest.

(** A key is a name: no white space around it, and none of the characters
    the directive syntax uses. *)
Definition clean_key (k : str) : bool :=
  str_eqb (strip k) k && negb (contains eq_sign k)
  && negb (contains comma k) && negb (contains dq k).

(** A value wrapped in one pair of double quotes, with none inside. *)
Definition quoted (v : str) : bool :=
  match v with
  | c :: v' =>
      Ascii.eqb c dq
      && match rev v' with
         | d :: body => Ascii.eqb d dq && negb (contains dq body)
         | [] => false
         end
  | [] => false
  end.

(** An unquoted value of a document: it holds neither a double quote nor
    a comma (a comma outside quotes would end the entry). *)
Definition plain (v : str) : bool :=
  negb (contains dq v) && negb (contains comma v).

(** A value the quoting rule leaves alone: quoted, or free of double
    quotes, spaces, commas and parentheses. *)
Definition settled (v : str) : bool :=
  quoted v
  || (negb (contains dq v) && negb (contains space v)
      && negb (contains comma v) && negb (contains lparen v)
      && negb (contains rparen v)).

(** An entry of a well-formed directive: a clean key and a value in the
    form the quoting rule produces. *)
Definition well_formed_entry (kv : str * str) : bool :=
  clean_key (fst kv) && settled (snd kv).

Definition well_formed_line (line : str) : Prop :=
  exists entries rest,
    line = directive entries rest
    /\ entries <> []
    /\ forallb well_formed_entry entries = true
    /\ contains rparen rest = false.

(** Every line that carries the marker is a well-formed directive. *)
Definition well_formed_document (doc : list str) : Prop :=
  Forall (fun line => startswith marker line = true -> well_formed_line line)
         doc.



(** A value of an update map that the quoting rule turns into a
    well-formed value: free of double quotes, or already quoted. *)
Definition valid_value (v : str) : bool :=
  quoted v || negb (contains dq v).

Definition valid_updates (u : dict) : Prop :=
  NoDup (keys u)
  /\ forallb (fun kv => clean_key (fst kv) && valid_value (snd kv)) u = true.


(** A piece that [split_settings_string] returns unchanged when it sits
    between separating commas: it is not empty, does not start with white
    space, holds an even number of double quotes, and an odd number of
    them follows each of its commas. *)
Fixpoint no_split_point (t : str) : bool :=
  match t with
  | [] => true
  | c :: r =>
      (negb (Ascii.eqb c comma) || Nat.odd (count_dq r)) && no_split_point r
  end.

Definition stable (t : str) : bool :=
  match t with
  | [] => false
  | c :: _ => negb (is_space c)
  end
  && no_split_point t && Nat.even (count_dq t).

(** The piece the merger writes for an entry, given the update map. *)
Definition emit (u : dict) (kv : str * str) : str * str :=
  (fst kv,
   match get (fst kv) u with
   | Some v => quote_value_if_needed v
   | None => quote_value_if_needed (snd kv)
   end).

(** What is left of [remaining] once the keys [ks] that the update map
    knows have been popped, in order; [None] when a [pop] fails. *)
Fixpoint pop_all (u remaining : dict) (ks : list str) : option dict :=
  match ks with
  | [] => Some remaining
  | k :: ks' =>
      match get k u with
      | Some _ =>
          match pop k remaining with
          | Some r => pop_all u r ks'
          | None => None
          end
      | None => pop_all u remaining ks'
      end
  end.

(** The characters that make the quoting rule wrap a value. *)
Definition special (v : str) : bool :=
  contains space v || contains comma v || contains lparen v
  || contains rparen v.

(** The piece appended for a key of the update map that the directive
    does not hold. *)
Definition appended (kv : str * str) : str * str :=
  (fst kv, quote_value_if_needed (snd kv)).

(** How the loop relates a line to the line it leaves in its place. *)
Definition rewritten (u : dict) (line line' : str) : Prop :=
  if startswith marker line then rewrite_line u line = LineOk line'
  else line' = line.

(** The update map the loop works with: lines 1257 to 1262. *)
Definition effective (ip : str) (updates : dict) : option dict :=
  normalise_rcon (set (lit "PublicIP") (dq :: ip ++ [dq]) updates).

(** A line whose last closing parenthesis does not come after the
    character that follows its first opening parenthesis. *)
Definition inverted_span (line : str) : bool :=
  (rfind rparen line <=? find lparen line + 1)%Z.

(** The ways the loop ends without having gone through the document. *)
Definition stopped (l : loop_result) : Prop :=
  match l with
  | LoopDone _ => False
  | LoopReturn r => r = span_error
  | LoopRaise _ => True
  end.

(** An entry as the data model describes it: a clean key, and a value
    that is wrapped in one pair of double quotes or holds neither a double
    quote nor a comma.  A well-formed entry is a readable entry whose
    value the quoting rule leaves alone. *)
Definition readable_entry (kv : str * str) : bool :=
  clean_key (fst kv) && (quoted (snd kv) || plain (snd kv)).

(** The key and the value the loop reads from a piece of the directive:
    lines 1300 and 1301. *)
Definition read_setting (setting : str) : str * str :=
  let '(key0, value) := partition eq_sign setting in (strip key0, value).

(** The entries the loop reads from a directive line: the text between
    the first opening and the last closing parenthesis, split at the
    commas outside quotes (lines 1277 to 1301). *)
Definition settings_of (line : str) : list (str * str) :=
  map read_setting
      (split_settings_string
         (slice line (find lparen line + 1) (rfind rparen line))).

(** A document the merger reads as the data model means it: every entry
    it finds on a line that starts with the marker is readable.  White
    space after the commas and around the keys, and any text before the
    opening or after the closing parenthesis, do not matter. *)
Definition readable_document (doc : list str) : bool :=
  forallb (fun line => negb (startswith marker line)
                       || forallb readable_entry (settings_of line)) doc.

(** The entries of a rewritten directive: every entry that was there, in
    its place, with the value of the update map or else its own, passed
    through the quoting rule; then the entries of the update map whose
    key the directive does not hold, in the order of the map. *)
Definition merged_entries (u : dict) (es : list (str * str))
  : list (str * str) :=
  map (emit u) es
  ++ map appended
       (filter (fun kv => negb (existsb (str_eqb (fst kv)) (map fst es))) u).


End Documents.

(** ** Directives as the older copies read them *)

Module OlderDocuments.

Import Dict ServerManager Documents.

(** An entry the older merger reads back as it was written: no equals
    sign in the key, and neither a comma nor a closing parenthesis in the
    whole entry. *)
Definition bare_entry (kv : str * str) : bool :=
  negb (contains eq_sign (fst kv))
  && negb (contains comma (render kv)) && negb (contains rparen (render kv)).


(** The entry the older merger writes for an entry. *)
Definition overwrite (u : dict) (kv : str * str) : str * str :=
  (fst kv, match get (fst kv) u with Some v => v | None => snd kv end).

(** The text between the first opening and the first closing parenthesis
    of a line, and its pieces. *)
Definition pieces (line : str) : list str :=
  split comma (slice line (find lparen line + 1) (find rparen line)).

(** How the loop over the pieces relates a piece to the piece it leaves
    in its place. *)
Definition rewritten_piece (u : dict) (s s' : str) : Prop :=
  contains eq_sign s = true
  /\ s' = match get (fst (partition eq_sign s)) u with
          | Some v => fst (partition eq_sign s) ++ eq_sign :: v
          | None => s
          end.

(** How the loop of the older merger relates a line to the line it
    leaves in its place. *)
Definition rewritten_naively (u : dict) (line line' : str) : Prop :=
  if startswith marker line
  then ServerManagerLocal.rewrite_line u line = Some line'
  else line' = line.

(** The entry the older reader makes of an entry: the value is cut at
    its first equals sign. *)
Definition cut (kv : str * str) : str * str :=
  (fst kv, fst (partition eq_sign (snd kv))).

End OlderDocuments.

(** ** Directives as the reader sees them *)

Module Reading.

Import Dict ServerManager Documents.

(** A key the pattern of the reader matches as a whole: a non-empty run
    of word characters. *)
Definition word_key (k : str) : bool := truthy k && forallb is_word k.

(** An entry the reader takes apart as it was written: a word key, and a
    value that is quoted or holds neither a double quote nor a comma. *)
Definition read_entry (kv : str * str) : bool :=
  word_key (fst kv) && (quoted (snd kv) || plain (snd kv)).

(** The entry of the dictionary for an entry of the directive. *)
Definition unquote (kv : str * str) : str * str :=
  (fst kv, strip_char dq (snd kv)).

(** The body of the dictionary comprehension of line 154. *)
Definition collect (d : dict) (kv : str * str) : dict :=
  set (strip (fst kv)) (strip_char dq (snd kv)) d.

End Reading.

(** ** Submitted settings *)

Module Submitted.

Import Dict ServerManager.

(** A default the request overrides: the key was submitted with another
    value. *)
Definition changed (data : dict) (kd : str * str) : bool :=
  match get (fst kd) data with
  | Some v => negb (str_eqb v (snd kd))
  | None => false
  end.

End Submitted.

(** ** The counters of the retry loop *)

Module Locating.

Import ServerManager.

(** What a round does to the counters, whichever way it ends. *)
Definition round_facts (max_attempts : nat) (l : locating) (r : round)
  : Prop :=
  match r with
  | Continue l' =>
      attempts l' = S (attempts l) /\ S (attempts l) <= max_attempts
      /\ lookups l' = S (lookups l) /\ sleeps l' = S (sleeps l)
  | Break l' =>
      res l' = exhausted /\ attempts l' = S (attempts l)
      /\ max_attempts < S (attempts l)
      /\ lookups l' = S (lookups l) /\ sleeps l' = sleeps l
  | Return l' =>
      pid_truthy (pid (server l')) = true /\ lookups l' = S (lookups l)
      /\ sleeps l' = sleeps l
  | Raise _ l' => lookups l' = S (lookups l) /\ sleeps l' = sleeps l
  end.

(** A round that does not raise, and keeps the counters switch as it
    is. *)
Definition quiet_round (l : locating) (r : round) : Prop :=
  match r with
  | Return l' | Break l' | Continue l' =>
      use_get_counters (server l') = use_get_counters (server l)
  | Raise _ _ => False
  end.

(** How the loop can be left, and with which counters. *)
Definition left_with (max_attempts : nat) (l' : locating) : Prop :=
  pid_truthy (pid (server l')) = true
  \/ (res l' = exhausted /\ lookups l' = S max_attempts).

(** A loop state with a process attached: the record holds a non-empty
    process identifier, says the server is running, and the result
    dictionary reports that identifier. *)
Definition attached (l : locating) : Prop :=
  exists p,
    pid (server l) = Some p /\ truthy p = true
    /\ running (server l) = true /\ res l = found p.

(** A state that has a process attached whenever its identifier is
    set. *)
Definition attached_if_set (l : locating) : Prop :=
  pid_truthy (pid (server l)) = true -> attached l.

(** What a round started without identifier leaves behind. *)
Definition round_attaches (r : round) : Prop :=
  match r with
  | Continue l' => attached_if_set l'
  | Return l' => attached l'
  | Break l' => res l' = exhausted
  | Raise _ _ => True
  end.

(** A lookup that finds nothing: the command exits with an error (as
    [pgrep] does, with status 1, when no process matches), or it prints
    nothing. *)
Definition fruitless (out : lookup) : bool :=
  match out with
  | CalledProcessError _ => true
  | Stdout s => negb (truthy s)
  | NotStarted => false
  end.

(** A round never touches the flag [expected_to_be_running]. *)
Definition same_expectation (l : locating) (r : round) : Prop :=
  match r with
  | Return l' | Break l' | Continue l' | Raise _ l' =>
      expected_to_be_running (server l')
      = expected_to_be_running (server l)
  end.

End Locating.

(** ** Tagged folders and their order *)

Module Retention.

Import ServerManager.

(** The number of folders of the backup root that carry the tag. *)
Definition tagged_count (root : list entry) : nat :=
  List.length (filter tagged (backup_folders root)).

(** The tagged folders of the backup root, as the pruning step collects
    them. *)
Definition tagged_folders (root : list entry) : list str :=
  filter tagged (backup_folders root).

Definition str_le (a b : str) : Prop := str_leb a b = true.

(** The directories left once the folders [victims] have been removed. *)
Definition spared (victims : list str) (f : str) : bool :=
  negb (existsb (str_eqb f) victims).

End Retention.

(** ** Concrete inputs used below *)

Module Examples.

Import Dict ServerManager Documents.

Definition address : str := lit "203.0.113.7".

Definition header : str :=
  lit "[/Script/Pal.PalGameWorldSettings]" ++ [newline].

(** A settings file whose directive holds the public address. *)
Definition address_doc : list str :=
  [header;
   directive [(lit "Difficulty", lit "None");
              (lit "PublicIP", [dq; dq]);
              (lit "RCONEnabled", lit "False")] [newline]].

Definition rcon_update : dict := [(lit "RCONEnabled", lit "true")].

(** What merging the dictionary of [first_run] into [address_doc]
    writes. *)
Definition address_doc_merged : list str :=
  [header;
   directive [(lit "Difficulty", lit "None");
              (lit "PublicIP", dq :: address ++ [dq]);
              (lit "RCONEnabled", lit "True");
              (lit "AdminPassword", dq :: lit "admin" ++ [dq]);
              (lit "bShowPlayerList", lit "False")] [newline]].





(** What merging the dictionary of [first_run] into [loose_doc]
    writes. *)
Definition loose_doc_merged : list str :=
  [header;
   directive [(lit "Difficulty", lit "None");
              (lit "ServerName", dq :: lit "My Server" ++ [dq]);
              (lit "DayTimeSpeedRate", dq :: lit "(1)" ++ [dq]);
              (lit "PublicIP", dq :: address ++ [dq]);
              (lit "RCONEnabled", lit "True");
              (lit "AdminPassword", dq :: lit "admin" ++ [dq]);
              (lit "bShowPlayerList", lit "False")] [newline]].


(** A file without directive line, and one whose directive has nothing
    between its parentheses. *)
Definition plain_doc : list str := [header; lit "ServerName=x" ++ [newline]].

Definition empty_directive_doc : list str :=
  [header; lit "OptionSettings=()" ++ [newline]].

(** A process query that never prints anything. *)
Definition silent : nat -> lookup := fun _ => Stdout [].

(** A process query that always exits with a non-zero status. *)
Definition failing : nat -> lookup :=
  fun _ => CalledProcessError (lit "exit status 1").

(** A server record with no process attached. *)
Definition quiet_server (expected : bool) : localserver :=
  mk_localserver None false expected false None.

Definition default_settings : list str :=
  [lit "[/Script/Pal.PalGameWorldSettings]" ++ [newline];
   lit "OptionSettings=(Difficulty=None,RCONEnabled=False)" ++ [newline]].

(** What is read when there is no settings file. *)
Definition no_file : lines_read := LinesError (error "File not found").

(** The server process never shows up, and killing a missing process
    identifier fails. *)
Definition never_starts : world :=
  mk_world Linux (quiet_server false) silent true true pid_truthy true
    (Some default_settings) true true (Lines []) no_file
    (Some (lit "203.0.113.7")) [].

(** The record says a server with process identifier 77 is running. *)
Definition already_running : world :=
  mk_world Linux (mk_localserver (Some (lit "77")) true true false None)
    silent true true pid_truthy true
    (Some default_settings) true true (Lines []) no_file
    (Some (lit "203.0.113.7")) [].

(** The world a successful bootstrap leaves behind when it starts from
    [already_running]. *)
Definition installed : world :=
  mk_world Linux (mk_localserver (Some (lit "77")) false false false None)
    silent true true pid_truthy true (Some default_settings) true true
    (Lines [lit "[/Script/Pal.PalGameWorldSettings]" ++ [newline];
            lit "OptionSettings=(Difficulty=None,RCONEnabled=True,AdminPassword="
              ++ dq :: lit "admin" ++ dq
              :: lit ",bShowPlayerList=False,PublicIP="
              ++ dq :: lit "203.0.113.7" ++ dq :: lit ")" ++ [newline]])
    no_file (Some (lit "203.0.113.7"))
    [Started (error "Server is already running"); Slept 3;
     Terminated (Some (lit "77")) true;
     DefaultsCopied (success "Default settings copied to the server");
     SettingsMerged (success "Settings updated successfully")].

(** On Windows the process query prints its table header and no row;
    killing goes through for every non-empty argument. *)
Definition header_only : world :=
  mk_world Windows (quiet_server false)
    (fun _ => Stdout (lit "Id Name" ++ newline :: lit "-- ----" ++ [newline]))
    true true pid_truthy true None true true (Lines []) no_file
    (Some (lit "203.0.113.7")) [].

(** The world the bootstrap sequence of the oldest copy leaves behind
    when it starts from [header_only]. *)
Definition header_only_after : world :=
  mk_world Windows (quiet_server false)
    (fun _ => Stdout (lit "Id Name" ++ newline :: lit "-- ----" ++ [newline]))
    true true pid_truthy true None true true (Lines []) no_file
    (Some (lit "203.0.113.7"))
    [Started (success "Server started successfully"); Slept 10; Slept 5;
     Terminated (Some (lit "No matching processes found.")) true;
     DefaultsCopied (error "Default settings file not found")].

Definition folder (n : string) : entry := mk_entry (lit n) true (Some []).

(** One tagged backup and two later manual ones. *)
Definition one_tagged : list entry :=
  [folder "2024-01-01_10-00-00-AutoBackup";
   folder "2024-02-01_10-00-00";
   folder "2024-03-01_10-00-00"].

(** Manual, launch and first-run backups only. *)
Definition no_tagged : list entry :=
  [folder "2024-01-01_10-00-00";
   folder "2024-01-02_10-00-00-LaunchBackup";
   folder "2024-01-03_10-00-00";
   folder "2024-01-04_10-00-00-FirstRunBackup"].

Definition stamp : str := lit "2024-03-01_10-00-00".

End Examples.

Import Dict ServerManager Documents OlderDocuments Reading Submitted Locating
  Retention Examples.

(** * Facts about strings and dictionaries *)

Lemma str_eqb_eq (a b : str) : str_eqb a b = true <-> a = b.
Proof.
  unfold str_eqb. destruct (list_eq_dec ascii_dec a b); split; congruence.
Qed.

Lemma str_eqb_refl (a : str) : str_eqb a a = true.
Proof. now apply str_eqb_eq. Qed.

Lemma str_eqb_neq (a b : str) : str_eqb a b = false <-> a <> b.
Proof.
  unfold str_eqb. destruct (list_eq_dec ascii_dec a b); split; congruence.
Qed.

(** * The process locator *)

Section Locator.

Variable o : os.
Variable max_attempts : nat.
Variable run : nat -> lookup.

Lemma count_attempt_facts (l l1 : locating) :
  attempts l1 = attempts l -> lookups l1 = S (lookups l) ->
  sleeps l1 = sleeps l ->
  round_facts max_attempts l (count_attempt max_attempts l1).
Proof.
  intros Ha Hl Hs. unfold count_attempt.
  destruct (max_attempts <? S (attempts l1)) eqn:E; simpl.
  - apply Nat.ltb_lt in E. rewrite <- Ha. repeat split; auto.
  - apply Nat.ltb_ge in E. rewrite <- Ha. repeat split; auto; lia.
Qed.

Lemma windows_round_facts (out : lookup) (l : locating) :
  round_facts max_attempts l (windows_round max_attempts out l).
Proof.
  unfold windows_round. destruct out as [ text | stdout | ].
  - apply count_attempt_facts; reflexivity.
  - destruct (truthy stdout); [ | apply count_attempt_facts; reflexivity ].
    destruct (use_get_counters (server (with_lookup l))).
    + destruct (split comma (strip stdout)) as [ | a [ | b [ | c t ] ] ];
        simpl; auto.
      destruct (truthy a) eqn:Ea; simpl.
      * now rewrite Ea.
      * apply count_attempt_facts; reflexivity.
    + destruct (truthy (strip stdout)) eqn:Ea; simpl.
      * now rewrite Ea.
      * apply count_attempt_facts; reflexivity.
  - simpl. auto.
Qed.

Lemma pgrep_round_facts (out : lookup) (l : locating) :
  round_facts max_attempts l (pgrep_round max_attempts out l).
Proof.
  unfold pgrep_round. destruct out as [ text | stdout | ].
  - apply count_attempt_facts; reflexivity.
  - destruct (truthy stdout); [ | apply count_attempt_facts; reflexivity ].
    destruct (split newline (strip stdout));
      apply count_attempt_facts; reflexivity.
  - simpl. auto.
Qed.

Lemma any_round_facts (l : locating) :
  round_facts max_attempts l
    (if is_windows o then windows_round max_attempts (run (lookups l)) l
     else pgrep_round max_attempts (run (lookups l)) l).
Proof.
  destruct (is_windows o);
    [ apply windows_round_facts | apply pgrep_round_facts ].
Qed.

(** The loop leaves before its fuel runs out. *)
Lemma locate_loop_total (fuel : nat) (l : locating) :
  1 <= fuel -> max_attempts + 1 <= attempts l + fuel ->
  exists r, locate_loop fuel o max_attempts run l = Some r.
Proof.
  revert l. induction fuel as [ | fuel IH ]; intros l H1 H2; [ lia | ].
  simpl. destruct (pid_truthy (pid (server l))); [ eauto | ].
  pose proof (any_round_facts l) as F.
  destruct (if is_windows o then _ else _) as [ l' | l' | l' | e l' ];
    eauto.
  simpl in F. destruct F as (Ha & Hle & _). apply IH; lia.
Qed.

Lemma locate_loop_leaves (fuel : nat) (l : locating) (r : round) :
  attempts l <= max_attempts -> lookups l = attempts l ->
  locate_loop fuel o max_attempts run l = Some r ->
  match r with
  | Return l' | Break l' => left_with max_attempts l' /\ lookups l' <= S max_attempts
  | Continue _ => False
  | Raise _ l' => lookups l' <= S max_attempts
  end.
Proof.
  revert l. induction fuel as [ | fuel IH ]; intros l Hle Heq; simpl.
  - destruct (pid_truthy (pid (server l))) eqn:E; [ | discriminate ].
    intros [= <-]. split; [ now left | lia ].
  - destruct (pid_truthy (pid (server l))) eqn:E.
    + intros [= <-]. split; [ now left | lia ].
    + pose proof (any_round_facts l) as F.
      destruct (if is_windows o then _ else _) as [ l' | l' | l' | e l' ];
        simpl in F.
      * intros [= <-]. destruct F as (F1 & F2 & _).
        split; [ now left | lia ].
      * intros [= <-]. destruct F as (F1 & F2 & F3 & F4 & _).
        split; [ right; split; [ assumption | lia ] | lia ].
      * destruct F as (F1 & F2 & F3 & _). apply IH; lia.
      * intros [= <-]. lia.
Qed.

(** Off Windows, and on Windows without the counters switch, no round
    raises when its command can be started. *)
Lemma count_attempt_quiet (l l1 : locating) :
  use_get_counters (server l1) = use_get_counters (server l) ->
  quiet_round l (count_attempt max_attempts l1).
Proof.
  intros H. unfold count_attempt.
  destruct (max_attempts <? S (attempts l1)); exact H.
Qed.

Lemma round_quiet (l : locating) :
  run (lookups l) <> NotStarted ->
  is_windows o && use_get_counters (server l) = false ->
  quiet_round l
    (if is_windows o then windows_round max_attempts (run (lookups l)) l
     else pgrep_round max_attempts (run (lookups l)) l).
Proof.
  intros Hrun H. destruct (is_windows o); cbn [andb] in H.
  - unfold windows_round. destruct (run (lookups l)) as [ text | stdout | ].
    + now apply count_attempt_quiet.
    + destruct (truthy stdout); [ | now apply count_attempt_quiet ].
      cbn [with_lookup server]. rewrite H.
      destruct (truthy (strip stdout));
        [ reflexivity | now apply count_attempt_quiet ].
    + congruence.
  - unfold pgrep_round. destruct (run (lookups l)) as [ text | stdout | ].
    + now apply count_attempt_quiet.
    + destruct (truthy stdout); [ | now apply count_attempt_quiet ].
      destruct (split newline (strip stdout));
        now apply count_attempt_quiet.
    + congruence.
Qed.

Lemma locate_loop_quiet (fuel : nat) (l : locating) (e : exception)
  (l' : locating) :
  (forall n, run n <> NotStarted) ->
  is_windows o && use_get_counters (server l) = false ->
  locate_loop fuel o max_attempts run l <> Some (Raise e l').
Proof.
  intros Hrun. revert l. induction fuel as [ | fuel IH ]; intros l H; simpl.
  - destruct (pid_truthy (pid (server l))); discriminate.
  - destruct (pid_truthy (pid (server l))); [ discriminate | ].
    pose proof (round_quiet l (Hrun _) H) as Q.
    destruct (if is_windows o then _ else _) as [ l1 | l1 | l1 | e1 l1 ];
      simpl in Q; try discriminate; [ | contradiction ].
    apply IH. now rewrite Q.
Qed.

End Locator.

(** The call always returns or raises: the fuel it gives the loop is
    never used up. *)
Lemma identify_process_by_name_total (o : os) (run : nat -> lookup)
  (sv : localserver) :
  exists x, identify_process_by_name o run sv = Some x.
Proof.
  unfold identify_process_by_name.
  set (l := mk_locating (set_pid None sv) empty_result 0 0 0).
  assert (exists r, locate_loop (S (S (max_attempts_of sv))) o
                      (max_attempts_of sv) run l = Some r) as [ r Hr ]
    by (apply locate_loop_total; simpl; lia).
  rewrite Hr. destruct r; eauto.
Qed.

(** When every lookup command can be started, the call returns a result
    dictionary off Windows, and on Windows without the counters
    switch. *)
Lemma identify_process_by_name_returns (o : os) (run : nat -> lookup)
  (sv : localserver) :
  (forall n, run n <> NotStarted) ->
  is_windows o && use_get_counters sv = false ->
  exists r l, identify_process_by_name o run sv = Some (Returned r, l).
Proof.
  intros Hrun H. destruct (identify_process_by_name_total o run sv) as [ x Hx ].
  revert Hx. unfold identify_process_by_name.
  destruct (locate_loop _ _ _ _ _) as [ rd | ] eqn:E; [ | discriminate ].
  destruct rd as [ l' | l' | l' | e l' ]; eauto.
  exfalso. now apply locate_loop_quiet in E.
Qed.

(** A lookup command that cannot be started ends the call with the
    exception, at that lookup. *)
Lemma identify_process_by_name_raises (o : os) (run : nat -> lookup)
  (sv : localserver) :
  run 0 = NotStarted ->
  exists l,
    identify_process_by_name o run sv = Some (Raised OSError, l)
    /\ lookups l = 1.
Proof.
  intros H. unfold identify_process_by_name. cbn [locate_loop].
  cbn [server pid set_pid pid_truthy lookups]. rewrite H.
  unfold windows_round, pgrep_round.
  destruct (is_windows o); eexists; split; reflexivity.
Qed.

(** No call runs more than [max_attempts + 1] lookups. *)
Lemma identify_process_by_name_lookups (o : os) (run : nat -> lookup)
  (sv : localserver) (out : outcome) (l : locating) :
  identify_process_by_name o run sv = Some (out, l) ->
  lookups l <= S (max_attempts_of sv).
Proof.
  unfold identify_process_by_name.
  destruct (locate_loop _ _ _ _ _) as [ r | ] eqn:E; [ | discriminate ].
  apply locate_loop_leaves in E; simpl; try lia.
  destruct r; intros [= <- <-]; tauto.
Qed.

(** C5, as amended: a call that returns without having attached a process
    identifier returns the result with status [error] and value
    [Failed to find process], after [max_attempts + 1] lookups, whatever
    made the single lookups fail. *)
Theorem absence_is_reported_as_error (o : os) (run : nat -> lookup)
  (sv : localserver) (r : result) (l : locating) :
  identify_process_by_name o run sv = Some (Returned r, l) ->
  pid_truthy (pid (server l)) = false ->
  identify_process_by_name o run sv = Some (Returned exhausted, l)
  /\ is_error exhausted = true
  /\ lookups l = S (max_attempts_of sv).
Proof.
  intros H Hpid. assert (r = exhausted /\ lookups l = S (max_attempts_of sv))
    as [ -> Hl ]; [ | now repeat split ].
  revert H. unfold identify_process_by_name.
  destruct (locate_loop _ _ _ _ _) as [ rd | ] eqn:E; [ | discriminate ].
  apply locate_loop_leaves in E; simpl; try lia.
  intros H.
  assert (left_with (max_attempts_of sv) l /\ res l = r) as [ [ Hl | Hl ] <- ].
  { destruct rd; inversion H; subst; tauto. }
  - congruence.
  - destruct Hl as [ -> -> ]. split; reflexivity.
Qed.

Lemma absence_is_reported_as_error_witness :
  identify_process_by_name Windows silent (quiet_server false)
  = Some (Returned exhausted,
          mk_locating (quiet_server false) exhausted 2 2 1)
  /\ is_error exhausted = true
  /\ lookups (mk_locating (quiet_server false) exhausted 2 2 1)
     = S (max_attempts_of (quiet_server false)).
Proof.
  exact (absence_is_reported_as_error Windows silent (quiet_server false)
           exhausted
           (mk_locating (quiet_server false) exhausted 2 2 1)
           eq_refl eq_refl).
Defined.

(** C5 as stated fails: with no matching process (empty output at every
    lookup) the call ends with status [error], and a query that itself
    fails at every lookup ends with the very same result. *)
Lemma absence_counterexample :
  (exists l,
      identify_process_by_name Windows silent (quiet_server false)
      = Some (Returned exhausted, l)
      /\ pid (server l) = None)
  /\ (exists l,
      identify_process_by_name Windows failing (quiet_server false)
      = Some (Returned exhausted, l)
      /\ pid (server l) = None)
  /\ is_error exhausted = true /\ is_success exhausted = false.
Proof.
  split; [ | split; [ | split; reflexivity ] ];
    eexists; split; reflexivity.
Qed.

(** C6: with no process to find, the loop runs two lookups when the
    server is not expected to be running and six when it is. *)
Theorem retry_budget_exceeded :
  (exists l,
      identify_process_by_name Windows silent (quiet_server false)
      = Some (Returned exhausted, l)
      /\ lookups l = 2 /\ sleeps l = 1)
  /\ (exists l,
      identify_process_by_name Windows silent (quiet_server true)
      = Some (Returned exhausted, l)
      /\ lookups l = 6 /\ sleeps l = 5).
Proof.
  split; eexists; repeat split; reflexivity.
Qed.

(** * The bootstrap sequence *)

Lemma run_server_trace (w w' : world) (r : result) :
  run_server w = Some (r, w') -> trace w' = trace w.
Proof.
  unfold run_server.
  destruct (running (local w)); [ now intros [= _ <-] | ].
  destruct (popen_ok _); [ | now intros [= _ <-] ].
  destruct (identify_process_by_name _ _ _) as [ [ [ e | idf ] l ] | ];
    [ now intros [= _ <-] | | discriminate ].
  destruct (is_success idf && _); now intros [= _ <-].
Qed.

Lemma run_server_kill (w w' : world) (r : result) :
  run_server w = Some (r, w') -> kill_started w' = kill_started w.
Proof.
  unfold run_server.
  destruct (running (local w)); [ now intros [= _ <-] | ].
  destruct (popen_ok _); [ | now intros [= _ <-] ].
  destruct (identify_process_by_name _ _ _) as [ [ [ e | idf ] l ] | ];
    [ now intros [= _ <-] | | discriminate ].
  destruct (is_success idf && _); now intros [= _ <-].
Qed.

(** [run_server] always comes back. *)
Lemma run_server_total (w : world) : exists x, run_server w = Some x.
Proof.
  unfold run_server.
  destruct (running (local w)); [ eauto | ].
  destruct (popen_ok _); [ | eauto ].
  destruct (identify_process_by_name_total
              (app_os (set_local (set_expected true (local w)) w))
              (find_process (set_local (set_expected true (local w)) w))
              (local (set_local (set_expected true (local w)) w)))
    as [ [ [ e | idf ] l ] -> ]; [ eauto | ].
  destruct (is_success idf && _); eauto.
Qed.

(** [first_run] always comes back, too. *)
Lemma first_run_total (w : world) : exists x, first_run w = Some x.
Proof.
  unfold first_run.
  destruct (run_server_total (set_local (set_expected true (local w)) w))
    as [ [ started w1 ] -> ].
  destruct (terminate_process_by_pid _ _) as [ [ [ | ] w2 ] | ];
    [ | eauto | eauto ].
  destruct (copy_default_settings _) as [ copied w3 ].
  destruct (is_success copied); [ | eauto ].
  destruct (ending _) as [ e | r ]; [ eauto | ].
  destruct (is_success r); eauto.
Qed.

(** Whatever [run_server] returned, the sequence sleeps and then runs the
    termination step.  When the kill command cannot be started, the
    sequence ends there, with [OSError]. *)
Lemma first_run_always_terminates (w w' : world) (out : outcome) :
  first_run w = Some (out, w') ->
  exists started,
    if kill_started w
    then exists p ok later,
           trace w' = trace w ++ Started started :: Slept 3
                              :: Terminated p ok :: later
    else out = Raised OSError
         /\ trace w' = trace w ++ [Started started; Slept 3].
Proof.
  unfold first_run.
  destruct (run_server _) as [ [ started w1 ] | ] eqn:Hrun; [ | discriminate ].
  pose proof (run_server_kill _ _ _ Hrun) as Hkill.
  apply run_server_trace in Hrun. simpl in Hrun, Hkill.
  intros H. exists started. revert H.
  unfold terminate_process_by_pid. simpl. rewrite Hkill.
  destruct (kill_started w);
    [ | intros [= <- <-]; simpl; rewrite Hrun;
        repeat rewrite <- app_assoc; simpl; auto ].
  destruct (kill_ok w1 (pid (local w1))); simpl.
  - unfold copy_default_settings. simpl.
    destruct (default_ini w1) as [ d | ]; simpl.
    + destruct (delete_ok w1); simpl;
        [ | intros [= _ <-]; simpl; rewrite Hrun;
            repeat rewrite <- app_assoc; simpl; eauto ].
      destruct (copy_ok w1); simpl.
      * destruct (update_palworld_settings_ini _ _ _) as [ [ e | r ] wr st ];
          simpl.
        -- destruct wr; intros [= _ <-]; simpl; rewrite Hrun;
             repeat rewrite <- app_assoc; simpl; eauto.
        -- destruct wr; destruct (is_success r); intros [= _ <-]; simpl;
             rewrite Hrun; repeat rewrite <- app_assoc; simpl; eauto.
      * intros [= _ <-]; simpl; rewrite Hrun;
          repeat rewrite <- app_assoc; simpl; eauto.
    + intros [= _ <-]; simpl; rewrite Hrun;
        repeat rewrite <- app_assoc; simpl; eauto.
  - intros [= _ <-]; simpl; rewrite Hrun;
      repeat rewrite <- app_assoc; simpl; eauto.
Qed.

(** C9: two runs of [first_run] in which the start step fails.  In the
    first the server process never appears: the sequence still runs the
    termination step and reports that step's failure.  In the second the
    record says a server is running: [run_server] refuses, and the
    sequence goes on through termination, copy and merge to a success. *)
Theorem first_run_goes_on_after_failed_start :
  (exists w',
      first_run never_starts
      = Some (Returned (error "Error terminating server"), w')
      /\ trace w' = [Started (error "Error starting server"); Slept 3;
                     Terminated None false])
  /\ (exists w',
      first_run already_running
      = Some (Returned (success "Server installed successfully"), w')
      /\ trace w'
         = [Started (error "Server is already running"); Slept 3;
            Terminated (Some (lit "77")) true;
            DefaultsCopied (success "Default settings copied to the server");
            SettingsMerged (success "Settings updated successfully")]).
Proof.
  split; vm_compute; eexists; split; reflexivity.
Qed.

(** * The backup manager *)

(** C8: an automatic backup whose destination listing lacks one entry of
    the source.  The call returns the error, the [Saved] subdirectory is
    gone, and the time-stamped folder is still in the backup root. *)
Theorem failed_backup_leaves_its_folder :
  backup_server (mk_query (Some (lit "auto")) (Some 3%Z)) stamp
    [lit "SaveGames"; lit "Config"] (Copied [lit "SaveGames"]) []
  = (error "Error backing up server data",
     [mk_entry (lit "2024-03-01_10-00-00-AutoBackup") true None]).
Proof. vm_compute. reflexivity. Qed.

(** C3: the pruning step of the older copy, keeping one backup, on one
    tagged folder and two manual ones.  The only tagged folder is
    deleted, although one tagged folder should remain. *)
Theorem local_prune_deletes_the_last_tagged_backup :
  tagged_count one_tagged = 1
  /\ Nat.min 1 (tagged_count one_tagged) = 1
  /\ map name (ServerManagerLocal.prune 1 one_tagged)
     = [lit "2024-02-01_10-00-00"; lit "2024-03-01_10-00-00"]
  /\ tagged_count (ServerManagerLocal.prune 1 one_tagged) = 0.
Proof. vm_compute. repeat split. Qed.

(** C4: the pruning step of the older copy, keeping one backup, on a
    backup root without any tagged folder.  A manual backup is deleted. *)
Theorem local_prune_deletes_a_manual_backup :
  forallb (fun f => negb (tagged f)) (backup_folders no_tagged) = true
  /\ map name (ServerManagerLocal.prune 1 no_tagged)
     = [lit "2024-01-02_10-00-00-LaunchBackup";
        lit "2024-01-03_10-00-00";
        lit "2024-01-04_10-00-00-FirstRunBackup"].
Proof. vm_compute. split; reflexivity. Qed.

(** The loop of the older copy never uses up its fuel: once the fuel
    covers the distance from the index to the end of the list, more fuel
    changes nothing. *)
Lemma length_list_remove (f : str) (l : list str) :
  List.length (ServerManagerLocal.list_remove f l) <= List.length l.
Proof.
  induction l as [ | x l IH ]; simpl; [ lia | ].
  destruct (str_eqb x f); simpl; lia.
Qed.

Lemma drop_untagged_fuel (fuel extra i : nat) (l : list str) :
  List.length l <= i + fuel ->
  ServerManagerLocal.drop_untagged (fuel + extra) i l
  = ServerManagerLocal.drop_untagged fuel i l.
Proof.
  revert i l. induction fuel as [ | fuel IH ]; intros i l H.
  - assert (nth_error l i = None) as N by (apply nth_error_None; lia).
    destruct extra; simpl; [ reflexivity | now rewrite N ].
  - simpl. destruct (nth_error l i) as [ f | ]; [ | reflexivity ].
    destruct (negb (contains_sub auto_tag f)).
    + apply IH. pose proof (length_list_remove f l). lia.
    + apply IH. lia.
Qed.

(** The current copy never deletes an untagged entry. *)
Lemma rmtree_keeps (f : str) (e : entry) (root : list entry) :
  name e <> f -> In e root -> In e (rmtree f root).
Proof.
  intros Hne Hin. unfold rmtree. apply filter_In. split; [ assumption | ].
  apply negb_true_iff. now apply str_eqb_neq.
Qed.

Lemma fold_rmtree_keeps (victims : list str) (e : entry) (root : list entry) :
  ~ In (name e) victims -> In e root ->
  In e (fold_left (fun r f => rmtree f r) victims root).
Proof.
  revert root. induction victims as [ | f victims IH ]; intros root Hn Hin;
    simpl; [ assumption | ].
  apply IH.
  - intros H. apply Hn. now right.
  - apply rmtree_keeps; [ | assumption ].
    intros E. apply Hn. left. now symmetry.
Qed.

Lemma In_insert_sorted (le : str -> str -> bool) (x y : str) (l : list str) :
  In y (insert_sorted le x l) <-> y = x \/ In y l.
Proof.
  induction l as [ | z l IH ]; simpl.
  - intuition.
  - destruct (le x z); simpl; [ intuition | ]. rewrite IH. intuition.
Qed.

Lemma In_sort (y : str) (l : list str) : In y (sort l) <-> In y l.
Proof.
  unfold sort. induction l as [ | z l IH ]; simpl; [ tauto | ].
  rewrite In_insert_sorted, IH. intuition.
Qed.

Lemma In_firstn (A : Type) (n : nat) (x : A) (l : list A) :
  In x (firstn n l) -> In x l.
Proof.
  intros H. rewrite <- (firstn_skipn n l). apply in_or_app. now left.
Qed.

Lemma In_skipn (A : Type) (n : nat) (x : A) (l : list A) :
  In x (skipn n l) -> In x l.
Proof.
  intros H. rewrite <- (firstn_skipn n l). apply in_or_app. now right.
Qed.

Lemma prune_keeps_untagged (n : Z) (root : list entry) (e : entry) :
  In e root -> tagged (name e) = false -> In e (prune n root).
Proof.
  intros Hin Hun. unfold prune.
  destruct (n >? 0)%Z; [ | assumption ].
  destruct (_ >? n)%Z; [ | assumption ].
  apply fold_rmtree_keeps; [ | assumption ].
  intros H. apply In_firstn in H. apply (proj1 (In_sort _ _)) in H.
  apply filter_In in H. destruct H as [ _ H ]. congruence.
Qed.

(** The same residue for every backup whose folder name carries no tag
    (manual, launch and first-run backups with an ordinary time stamp):
    whenever the two listings differ, the call reports the error and the
    emptied folder is still in the backup root. *)
Lemma mismatch_leaves_folder (q : query) (timestamp ty : str) (n : Z)
  (data_contents backup_contents : list str) (root : list entry) :
  backup_type q = Some ty -> backup_count q = Some n ->
  existsb (fun e => str_eqb (name e) (backup_folder_name timestamp ty)) root
  = false ->
  tagged (backup_folder_name timestamp ty) = false ->
  data_contents <> backup_contents ->
  let '(r, root') :=
    backup_server q timestamp data_contents (Copied backup_contents) root in
  r = error "Error backing up server data"
  /\ In (mk_entry (backup_folder_name timestamp ty) true None) root'.
Proof.
  intros Hty Hn Hnew Htag Hdiff. unfold backup_server. rewrite Hty, Hn.
  set (f := backup_folder_name timestamp ty) in *.
  assert (saved_exists f root = false) as Hs.
  { unfold saved_exists. clear - Hnew.
    induction root as [ | e r IH ]; simpl in *; [ reflexivity | ].
    apply orb_false_iff in Hnew. destruct Hnew as [ H1 H2 ].
    now rewrite H1, (IH H2). }
  rewrite Hs. unfold copytree. rewrite Hnew.
  destruct (list_eq_dec (list_eq_dec ascii_dec) data_contents backup_contents)
    as [ E | _ ]; [ contradiction | ].
  assert (saved_exists f (root ++ [mk_entry f true (Some backup_contents)])
          = true) as ->.
  { unfold saved_exists. rewrite existsb_app. simpl.
    rewrite str_eqb_refl. apply orb_true_r. }
  split; [ reflexivity | ].
  apply prune_keeps_untagged; [ | exact Htag ].
  unfold rmtree_saved. rewrite map_app. apply in_or_app. right. simpl.
  rewrite str_eqb_refl. now left.
Qed.

(** * Strings: searching and slicing *)

#[local] Arguments Ascii.eqb : simpl never.
#[local] Arguments is_space : simpl never.

Lemma startswith_app (p x : str) : startswith p (p ++ x) = true.
Proof.
  induction p as [ | a p IH ]; simpl; [ reflexivity | ].
  now rewrite Ascii.eqb_refl.
Qed.

Lemma contains_cons (c a : ascii) (s : str) :
  contains c (a :: s) = Ascii.eqb c a || contains c s.
Proof. reflexivity. Qed.

Lemma contains_app (c : ascii) (a b : str) :
  contains c (a ++ b) = contains c a || contains c b.
Proof. unfold contains. apply existsb_app. Qed.

Lemma contains_rev (c : ascii) (s : str) : contains c (rev s) = contains c s.
Proof.
  induction s as [ | a s IH ]; simpl; [ reflexivity | ].
  rewrite contains_app, IH. simpl. rewrite orb_false_r. apply orb_comm.
Qed.

Lemma find_found (c : ascii) (p x : str) :
  contains c p = false -> find c (p ++ c :: x) = Z.of_nat (List.length p).
Proof.
  induction p as [ | a p IH ]; simpl; intros H.
  - now rewrite Ascii.eqb_refl.
  - apply orb_false_iff in H. destruct H as [ Ha Hp ].
    rewrite Ascii.eqb_sym, Ha, (IH Hp).
    destruct (Z.ltb_spec (Z.of_nat (List.length p)) 0); lia.
Qed.

Lemma rfind_absent (c : ascii) (s : str) :
  contains c s = false -> rfind c s = (-1)%Z.
Proof.
  induction s as [ | a s IH ]; simpl; intros H; [ reflexivity | ].
  apply orb_false_iff in H. destruct H as [ Ha Hs ].
  rewrite (IH Hs). simpl. now rewrite Ascii.eqb_sym, Ha.
Qed.

Lemma rfind_found (c : ascii) (p rest : str) :
  contains c rest = false ->
  rfind c (p ++ c :: rest) = Z.of_nat (List.length p).
Proof.
  intros H. induction p as [ | a p IH ]; simpl.
  - rewrite (rfind_absent _ _ H). simpl. now rewrite Ascii.eqb_refl.
  - rewrite IH.
    destruct (Z.leb_spec 0 (Z.of_nat (List.length p))); lia.
Qed.

Lemma slice_middle (p m r : str) :
  slice (p ++ m ++ r) (Z.of_nat (List.length p))
        (Z.of_nat (List.length p + List.length m)) = m.
Proof.
  unfold slice. rewrite !length_app.
  destruct (Z.ltb_spec (Z.of_nat (List.length p)) 0); [ lia | ].
  destruct (Z.ltb_spec (Z.of_nat (List.length p + List.length m)) 0);
    [ lia | ].
  rewrite !Z.min_l by lia.
  rewrite Nat2Z.id.
  replace (Z.to_nat (Z.of_nat (List.length p + List.length m)
                     - Z.of_nat (List.length p)))
    with (List.length m) by lia.
  rewrite skipn_app, skipn_all, Nat.sub_diag. simpl.
  rewrite firstn_app, firstn_all, Nat.sub_diag. simpl.
  apply app_nil_r.
Qed.

Lemma partition_found (c : ascii) (k v : str) :
  contains c k = false -> partition c (k ++ c :: v) = (k, v).
Proof.
  induction k as [ | a k IH ]; simpl; intros H.
  - now rewrite Ascii.eqb_refl.
  - apply orb_false_iff in H. destruct H as [ Ha Hk ].
    rewrite Ascii.eqb_sym, Ha, (IH Hk). reflexivity.
Qed.


(** * Strings: white space *)

Lemma length_lstrip (s : str) : List.length (lstrip s) <= List.length s.
Proof.
  induction s as [ | c s IH ]; simpl; [ lia | ].
  destruct (is_space c); simpl; lia.
Qed.

Lemma length_strip (s : str) : List.length (strip s) <= List.length s.
Proof.
  unfold strip, rstrip. rewrite length_rev.
  pose proof (length_lstrip (rev (lstrip s))) as H.
  rewrite length_rev in H. pose proof (length_lstrip s). lia.
Qed.

(** A string that [strip] leaves alone does not start with white space. *)
Lemma strip_fixed_head (c : ascii) (s : str) :
  strip (c :: s) = c :: s -> is_space c = false.
Proof.
  intros H. destruct (is_space c) eqn:E; [ exfalso | reflexivity ].
  pose proof (length_strip s) as L.
  assert (strip (c :: s) = strip s) as H'
    by (unfold strip; simpl; now rewrite E).
  rewrite H' in H. rewrite H in L. simpl in L. lia.
Qed.

(** * The quoting rule *)

Lemma quote_value_if_needed_unfold (v : str) :
  quote_value_if_needed v
  = if startswith [dq] v && endswith [dq] v then v
    else if special v then dq :: v ++ [dq] else v.
Proof.
  unfold quote_value_if_needed, special.
  change (lit " ,()") with [space; comma; lparen; rparen].
  cbn [existsb].
  destruct (startswith [dq] v && endswith [dq] v); [ reflexivity | ].
  destruct (contains space v), (contains comma v), (contains lparen v),
    (contains rparen v); reflexivity.
Qed.

(** The shape of a quoted value. *)
Lemma quoted_shape (v : str) :
  quoted v = true <->
  exists body, v = dq :: body ++ [dq] /\ contains dq body = false.
Proof.
  split.
  - destruct v as [ | c v' ]; simpl; [ discriminate | ].
    intros H. apply andb_true_iff in H. destruct H as [ Hc H ].
    apply Ascii.eqb_eq in Hc. subst c.
    destruct (rev v') as [ | d b ] eqn:E; [ discriminate | ].
    apply andb_true_iff in H. destruct H as [ Hd H ].
    apply Ascii.eqb_eq in Hd. subst d. apply negb_true_iff in H.
    exists (rev b). split.
    + f_equal. rewrite <- (rev_involutive v'), E. reflexivity.
    + now rewrite contains_rev.
  - intros (body & -> & H). unfold quoted.
    rewrite Ascii.eqb_refl, rev_app_distr. cbn [rev app andb].
    now rewrite Ascii.eqb_refl, contains_rev, H.
Qed.

Lemma startswith_dq_absent (v : str) :
  contains dq v = false -> startswith [dq] v = false.
Proof.
  destruct v as [ | c v ]; simpl; [ reflexivity | ].
  intros H. apply orb_false_iff in H. destruct H as [ H _ ].
  now rewrite H.
Qed.

Lemma wrapped_is_kept (body : str) :
  startswith [dq] (dq :: body ++ [dq])
  && endswith [dq] (dq :: body ++ [dq]) = true.
Proof.
  unfold endswith. change (dq :: body ++ [dq]) with ((dq :: body) ++ [dq]).
  rewrite rev_app_distr. reflexivity.
Qed.

Lemma quote_quoted (v : str) :
  quoted v = true -> quote_value_if_needed v = v.
Proof.
  intros H. apply quoted_shape in H. destruct H as (body & -> & _).
  rewrite quote_value_if_needed_unfold. now rewrite wrapped_is_kept.
Qed.

Lemma quote_unquoted (v : str) :
  contains dq v = false ->
  quote_value_if_needed v = if special v then dq :: v ++ [dq] else v.
Proof.
  intros H. rewrite quote_value_if_needed_unfold.
  now rewrite (startswith_dq_absent _ H).
Qed.


(** The rule leaves a settled value alone. *)
Lemma quote_settled (v : str) :
  settled v = true -> quote_value_if_needed v = v.
Proof.
  unfold settled. intros H. apply orb_true_iff in H.
  destruct H as [ H | H ]; [ now apply quote_quoted | ].
  repeat (apply andb_true_iff in H; destruct H as [ H ?H ]).
  rewrite negb_true_iff in *.
  rewrite quote_unquoted by assumption. unfold special.
  now rewrite H1, H2, H3, H0.
Qed.


Lemma quote_idempotent (v : str) :
  quote_value_if_needed (quote_value_if_needed v) = quote_value_if_needed v.
Proof.
  rewrite (quote_value_if_needed_unfold v).
  destruct (startswith [dq] v && endswith [dq] v) eqn:E.
  - rewrite quote_value_if_needed_unfold. now rewrite E.
  - destruct (special v) eqn:S.
    + rewrite quote_value_if_needed_unfold. now rewrite wrapped_is_kept.
    + rewrite quote_value_if_needed_unfold. now rewrite E, S.
Qed.

Lemma settled_well_formed (v : str) :
  settled v = true -> quoted v || plain v = true.
Proof.
  unfold settled, plain. intros H. apply orb_true_iff in H.
  destruct H as [ -> | H ]; [ reflexivity | ].
  repeat (apply andb_true_iff in H; destruct H as [ H ?H ]).
  rewrite H, H2. apply orb_true_r.
Qed.

(** * The quote-aware split *)

Lemma count_dq_app (a b : str) : count_dq (a ++ b) = count_dq a + count_dq b.
Proof. induction a as [ | c a IH ]; simpl; [ reflexivity | ]. lia. Qed.

Lemma count_dq_absent (s : str) : contains dq s = false -> count_dq s = 0.
Proof.
  induction s as [ | c s IH ]; simpl; intros H; [ reflexivity | ].
  apply orb_false_iff in H. destruct H as [ Hc Hs ].
  rewrite Ascii.eqb_sym, Hc, (IH Hs). reflexivity.
Qed.

Lemma no_split_point_absent (s : str) :
  contains comma s = false -> no_split_point s = true.
Proof.
  induction s as [ | c s IH ]; simpl; intros H; [ reflexivity | ].
  apply orb_false_iff in H. destruct H as [ Hc Hs ].
  rewrite Ascii.eqb_sym, Hc, (IH Hs). reflexivity.
Qed.

Lemma no_split_point_app (a b : str) :
  contains comma a = false -> no_split_point b = true ->
  no_split_point (a ++ b) = true.
Proof.
  induction a as [ | c a IH ]; simpl; intros H Hb; [ assumption | ].
  apply orb_false_iff in H. destruct H as [ Hc Ha ].
  rewrite Ascii.eqb_sym, Hc, (IH Ha Hb). reflexivity.
Qed.

(** Inside a pair of quotes no comma separates. *)
Lemma no_split_point_body (body : str) :
  contains dq body = false -> no_split_point (body ++ [dq]) = true.
Proof.
  induction body as [ | c body IH ]; intros H; [ reflexivity | ].
  change (contains dq (c :: body)) with (Ascii.eqb dq c || contains dq body)
    in H.
  apply orb_false_iff in H. destruct H as [ Hc Hb ].
  cbn [app no_split_point]. rewrite (IH Hb), andb_true_r.
  rewrite count_dq_app, (count_dq_absent _ Hb). apply orb_true_r.
Qed.

Lemma no_split_point_quoted (v : str) :
  quoted v = true -> no_split_point v = true.
Proof.
  intros H. apply quoted_shape in H. destruct H as (body & -> & Hb).
  cbn [no_split_point]. now rewrite (no_split_point_body _ Hb).
Qed.

Lemma count_dq_quoted (v : str) : quoted v = true -> count_dq v = 2.
Proof.
  intros H. apply quoted_shape in H. destruct H as (body & -> & Hb).
  cbn [count_dq]. rewrite count_dq_app, (count_dq_absent _ Hb).
  reflexivity.
Qed.

Lemma clean_key_facts (k : str) :
  clean_key k = true ->
  strip k = k /\ contains eq_sign k = false /\ contains comma k = false
  /\ contains dq k = false.
Proof.
  unfold clean_key. intros H.
  repeat (apply andb_true_iff in H; destruct H as [ H ?H ]).
  rewrite negb_true_iff in *. apply str_eqb_eq in H. auto.
Qed.

(** An entry with a clean key and a quoted or plain value is a stable
    piece. *)
Lemma stable_render (k v : str) :
  clean_key k = true -> quoted v || plain v = true ->
  stable (render (k, v)) = true.
Proof.
  unfold render. cbn [fst snd]. intros Hk Hv.
  apply clean_key_facts in Hk. destruct Hk as (Hs & _ & Hc & Hq).
  assert (no_split_point v = true /\ Nat.even (count_dq v) = true)
    as [ Hn He ].
  { apply orb_true_iff in Hv. destruct Hv as [ Hv | Hv ].
    - split; [ now apply no_split_point_quoted | ].
      now rewrite (count_dq_quoted _ Hv).
    - unfold plain in Hv. apply andb_true_iff in Hv.
      destruct Hv as [ H1 H2 ]. rewrite negb_true_iff in *.
      split; [ now apply no_split_point_absent | ].
      now rewrite (count_dq_absent _ H1). }
  unfold stable. apply andb_true_iff. split; [ apply andb_true_iff; split | ].
  - destruct k as [ | c k ]; [ reflexivity | ].
    cbn [app]. now rewrite (strip_fixed_head _ _ Hs).
  - apply no_split_point_app; [ assumption | ].
    cbn [no_split_point]. now rewrite Hn.
  - rewrite count_dq_app, (count_dq_absent _ Hq). exact He.
Qed.

Lemma split_aux_piece (t acc rest : str) :
  no_split_point t = true -> Nat.even (count_dq rest) = true ->
  split_aux false acc (t ++ rest) = split_aux false (rev t ++ acc) rest.
Proof.
  revert acc. induction t as [ | c t IH ]; intros acc Hn He;
    [ reflexivity | ].
  cbn [no_split_point] in Hn. apply andb_true_iff in Hn.
  destruct Hn as [ Hc Hn ].
  cbn [app split_aux andb].
  assert (Ascii.eqb c comma && Nat.even (count_dq (t ++ rest)) = false)
    as ->.
  { destruct (Ascii.eqb c comma); [ | reflexivity ].
    simpl in Hc. rewrite count_dq_app, Nat.even_add, He.
    unfold Nat.odd in Hc. apply negb_true_iff in Hc. now rewrite Hc. }
  rewrite (IH (c :: acc) Hn He). cbn [rev]. now rewrite <- app_assoc.
Qed.

(** After a separator the scan is in skipping mode; a piece that does not
    start with white space ends that mode at once. *)
Lemma split_aux_start (skipping : bool) (t rest : str) :
  stable t = true ->
  split_aux skipping [] (t ++ rest) = split_aux false [] (t ++ rest).
Proof.
  unfold stable. destruct t as [ | c t ]; [ discriminate | ].
  intros H. apply andb_true_iff in H. destruct H as [ H _ ].
  apply andb_true_iff in H. destruct H as [ H _ ].
  apply negb_true_iff in H. cbn [app split_aux].
  now rewrite H, andb_false_r.
Qed.

Lemma stable_facts (t : str) :
  stable t = true ->
  no_split_point t = true /\ Nat.even (count_dq t) = true.
Proof.
  unfold stable. intros H.
  repeat (apply andb_true_iff in H; destruct H as [ H ?H ]). auto.
Qed.

Lemma count_dq_join (ts : list str) :
  forallb stable ts = true -> Nat.even (count_dq (join comma ts)) = true.
Proof.
  induction ts as [ | t ts IH ]; [ reflexivity | ].
  cbn [forallb]. intros H. apply andb_true_iff in H. destruct H as [ Ht Hts ].
  apply stable_facts in Ht. destruct Ht as [ _ He ].
  destruct ts as [ | t2 ts ]; [ exact He | ].
  change (join comma (t :: t2 :: ts))
    with (t ++ comma :: join comma (t2 :: ts)).
  rewrite count_dq_app, Nat.even_add, He.
  change (count_dq (comma :: join comma (t2 :: ts)))
    with (count_dq (join comma (t2 :: ts))).
  now rewrite (IH Hts).
Qed.

(** The split undoes the join of stable pieces. *)
Lemma split_join (ts : list str) (skipping : bool) :
  ts <> [] -> forallb stable ts = true ->
  split_aux skipping [] (join comma ts) = ts.
Proof.
  revert skipping. induction ts as [ | t ts IH ]; intros skipping Hne H;
    [ congruence | ].
  cbn [forallb] in H. apply andb_true_iff in H. destruct H as [ Ht Hts ].
  destruct (stable_facts _ Ht) as [ Hn He ].
  destruct ts as [ | t2 ts ].
  - cbn [join]. rewrite <- (app_nil_r t) at 1.
    rewrite (split_aux_start _ _ _ Ht).
    rewrite (split_aux_piece t [] [] Hn eq_refl).
    cbn [split_aux]. now rewrite app_nil_r, rev_involutive.
  - change (join comma (t :: t2 :: ts))
      with (t ++ comma :: join comma (t2 :: ts)).
    rewrite (split_aux_start _ _ _ Ht).
    rewrite split_aux_piece;
      [ | assumption
        | change (count_dq (comma :: join comma (t2 :: ts)))
            with (count_dq (join comma (t2 :: ts)));
          now apply count_dq_join ].
    cbn [split_aux andb]. rewrite Ascii.eqb_refl.
    rewrite (count_dq_join _ Hts). cbn [andb].
    rewrite app_nil_r, rev_involutive. f_equal.
    apply IH; [ discriminate | assumption ].
Qed.

(** * Dictionaries *)

Lemma get_set (k k' v : str) (d : dict) :
  get k (set k' v d) = if str_eqb k k' then Some v else get k d.
Proof.
  induction d as [ | [ k2 v2 ] d IH ]; simpl.
  - destruct (str_eqb k k'); reflexivity.
  - destruct (str_eqb k' k2) eqn:E; simpl.
    + apply str_eqb_eq in E. subst k2. destruct (str_eqb k k'); reflexivity.
    + rewrite IH. destruct (str_eqb k k2) eqn:E2; [ | reflexivity ].
      apply str_eqb_eq in E2. subst k2.
      destruct (str_eqb k k') eqn:E3; [ | reflexivity ].
      apply str_eqb_eq in E3. subst k'. now rewrite str_eqb_refl in E.
Qed.

Lemma contains_key_get (k : str) (d : dict) :
  contains_key k d = match get k d with Some _ => true | None => false end.
Proof.
  induction d as [ | [ k2 v2 ] d IH ]; simpl; [ reflexivity | ].
  destruct (str_eqb k k2); simpl; [ reflexivity | exact IH ].
Qed.

Lemma In_keys_set (k k' v : str) (d : dict) :
  In k (keys (set k' v d)) <-> k = k' \/ In k (keys d).
Proof.
  induction d as [ | [ k2 v2 ] d IH ]; simpl; [ intuition | ].
  destruct (str_eqb k' k2) eqn:E; simpl.
  - apply str_eqb_eq in E. subst k2. intuition.
  - rewrite IH. intuition.
Qed.

Lemma NoDup_keys_set (k v : str) (d : dict) :
  NoDup (keys d) -> NoDup (keys (set k v d)).
Proof.
  induction d as [ | [ k2 v2 ] d IH ]; simpl; intros H.
  - constructor; [ intros [] | constructor ].
  - inversion H as [ | ? ? Hn Hd ]; subst.
    destruct (str_eqb k k2) eqn:E; simpl.
    + apply str_eqb_eq in E. subst k2. now constructor.
    + constructor; [ | now apply IH ].
      intros Hin. apply In_keys_set in Hin. destruct Hin as [ -> | Hin ].
      * now rewrite str_eqb_refl in E.
      * contradiction.
Qed.


Lemma get_In (k v : str) (d : dict) :
  NoDup (keys d) -> In (k, v) d -> get k d = Some v.
Proof.
  induction d as [ | [ k2 v2 ] d IH ]; simpl; intros Hn Hin; [ contradiction | ].
  inversion Hn as [ | ? ? Hnot Hd ]; subst.
  destruct Hin as [ [= -> ->] | Hin ].
  - now rewrite str_eqb_refl.
  - destruct (str_eqb k k2) eqn:E; [ | now apply IH ].
    apply str_eqb_eq in E. subst k2. exfalso. apply Hnot.
    change k with (fst (k, v)). now apply in_map.
Qed.

Lemma pop_In (k : str) (d d' : dict) (kv : str * str) :
  pop k d = Some d' -> In kv d' -> In kv d.
Proof.
  revert d'. induction d as [ | [ k2 v2 ] d IH ]; simpl; intros d' H Hin;
    [ discriminate | ].
  destruct (str_eqb k k2).
  - injection H as <-. now right.
  - destruct (pop k d) as [ r | ]; [ | discriminate ].
    injection H as <-. destruct Hin as [ <- | Hin ]; [ now left | ].
    right. now apply (IH r).
Qed.


Lemma pop_all_app (u d : dict) (ks1 ks2 : list str) :
  pop_all u d (ks1 ++ ks2)
  = match pop_all u d ks1 with
    | Some r => pop_all u r ks2
    | None => None
    end.
Proof.
  revert d. induction ks1 as [ | k ks1 IH ]; simpl; intros d;
    [ reflexivity | ].
  destruct (get k u); [ | apply IH ].
  destruct (pop k d); [ apply IH | reflexivity ].
Qed.


(** * The merger, line by line *)

Lemma appended_render (remaining : dict) :
  map (fun kv => fst kv ++ eq_sign :: quote_value_if_needed (snd kv))
      remaining
  = map render (map appended remaining).
Proof. rewrite map_map. reflexivity. Qed.

(** On rendered entries with clean keys the loop writes [emit] of every
    entry, and pops the keys the update map knows. *)
Lemma modify_settings_render (u remaining : dict) (es : list (str * str)) :
  forallb (fun kv => clean_key (fst kv)) es = true ->
  modify_settings u remaining (map render es)
  = match pop_all u remaining (map fst es) with
    | Some r => Some (map render (map (emit u) es), r)
    | None => None
    end.
Proof.
  revert remaining. induction es as [ | [ k v ] es IH ]; intros remaining H;
    [ reflexivity | ].
  cbn [forallb fst] in H. apply andb_true_iff in H. destruct H as [ Hk Hes ].
  apply clean_key_facts in Hk. destruct Hk as (Hs & He & _ & _).
  cbn [map fst modify_settings pop_all]. unfold render at 1. cbn [fst snd].
  rewrite (partition_found _ _ _ He), Hs.
  unfold emit at 1. cbn [fst snd].
  destruct (get k u) as [ x | ].
  - destruct (pop k remaining) as [ r | ]; [ | reflexivity ].
    rewrite (IH r Hes). destruct (pop_all u r (map fst es)); reflexivity.
  - rewrite (IH remaining Hes).
    destruct (pop_all u remaining (map fst es)); reflexivity.
Qed.

Lemma stable_nonempty (t : str) : stable t = true -> t <> [].
Proof. destruct t; [ discriminate | discriminate ]. Qed.

Lemma join_nonempty (ts : list str) :
  ts <> [] -> forallb stable ts = true -> join comma ts <> [].
Proof.
  destruct ts as [ | t ts ]; [ congruence | ].
  cbn [forallb]. intros _ H. apply andb_true_iff in H. destruct H as [ Ht _ ].
  apply stable_nonempty in Ht.
  destruct ts; cbn [join]; destruct t; try congruence; discriminate.
Qed.

(** What the loop body does to a line made of the marker, stable pieces
    between parentheses, and a tail without closing parenthesis. *)
Lemma rewrite_line_pieces (u : dict) (ts : list str) (rest : str) :
  ts <> [] -> forallb stable ts = true -> contains rparen rest = false ->
  rewrite_line u (marker ++ lparen :: join comma ts ++ rparen :: rest)
  = match modify_settings u u ts with
    | None => LineRaise KeyError
    | Some (ms, remaining) =>
        LineOk (marker ++ lparen
                  :: join comma (ms ++ map render (map appended remaining))
                  ++ [rparen; newline])
    end.
Proof.
  intros Hne Hst Hrest. unfold rewrite_line.
  set (inner := join comma ts).
  assert (find lparen (marker ++ lparen :: inner ++ rparen :: rest) = 15%Z)
    as -> by (now rewrite find_found).
  replace (marker ++ lparen :: inner ++ rparen :: rest)
    with ((marker ++ lparen :: inner) ++ rparen :: rest)
    by (now rewrite <- app_assoc).
  rewrite (rfind_found _ _ _ Hrest).
  assert (inner <> []) as Hin by (now apply join_nonempty).
  assert (List.length (marker ++ lparen :: inner)
          = 16 + List.length inner) as Hlen
    by (rewrite length_app; reflexivity).
  destruct (Z.gtb_spec (Z.of_nat (List.length (marker ++ lparen :: inner)))
                       (15 + 1)) as [ Hgt | Hle ].
  - replace ((marker ++ lparen :: inner) ++ rparen :: rest)
      with ((marker ++ [lparen]) ++ inner ++ rparen :: rest)
      by (rewrite <- !app_assoc; reflexivity).
    replace (15 + 1)%Z with (Z.of_nat (List.length (marker ++ [lparen])))
      by reflexivity.
    replace (List.length (marker ++ lparen :: inner))
      with (List.length (marker ++ [lparen]) + List.length inner)
      by (rewrite Hlen; reflexivity).
    rewrite slice_middle. unfold split_settings_string, inner.
    rewrite (split_join _ _ Hne Hst).
    destruct (modify_settings u u ts) as [ [ ms remaining ] | ];
      [ | reflexivity ].
    now rewrite appended_render.
  - exfalso. rewrite Hlen in Hle.
    destruct inner; [ congruence | ]. cbn [List.length] in Hle. lia.
Qed.



Lemma well_formed_entry_stable (es : list (str * str)) :
  forallb well_formed_entry es = true ->
  forallb stable (map render es) = true
  /\ forallb (fun kv => clean_key (fst kv)) es = true.
Proof.
  induction es as [ | [ k v ] es IH ]; cbn [forallb map];
    [ split; reflexivity | ].
  intros H. apply andb_true_iff in H. destruct H as [ He Hes ].
  destruct (IH Hes) as [ IH1 IH2 ]. unfold well_formed_entry in He.
  cbn [fst snd] in *. apply andb_true_iff in He. destruct He as [ Hk Hv ].
  rewrite IH1, IH2, Hk, (stable_render _ _ Hk (settled_well_formed _ Hv)).
  split; reflexivity.
Qed.

(** The loop body on a well-formed directive line. *)
Lemma rewrite_line_directive (u : dict) (es : list (str * str)) (rest : str) :
  es <> [] -> forallb well_formed_entry es = true ->
  contains rparen rest = false ->
  rewrite_line u (directive es rest)
  = match pop_all u u (map fst es) with
    | Some remaining =>
        LineOk (directive (map (emit u) es ++ map appended remaining)
                          [newline])
    | None => LineRaise KeyError
    end.
Proof.
  intros Hne Hwf Hrest. destruct (well_formed_entry_stable _ Hwf) as [ Hs Hk ].
  unfold directive. rewrite rewrite_line_pieces; try assumption.
  - rewrite (modify_settings_render _ _ _ Hk).
    destruct (pop_all u u (map fst es)); [ | reflexivity ].
    now rewrite map_app.
  - destruct es; [ congruence | discriminate ].
Qed.


Lemma well_formed_is_readable (kv : str * str) :
  well_formed_entry kv = true -> readable_entry kv = true.
Proof.
  unfold well_formed_entry, readable_entry. intros H.
  apply andb_true_iff in H. destruct H as [ -> H ].
  now rewrite (settled_well_formed _ H).
Qed.

Lemma readable_entry_stable (es : list (str * str)) :
  forallb readable_entry es = true ->
  forallb stable (map render es) = true
  /\ forallb (fun kv => clean_key (fst kv)) es = true.
Proof.
  induction es as [ | [ k v ] es IH ]; cbn [forallb map];
    [ split; reflexivity | ].
  intros H. apply andb_true_iff in H. destruct H as [ He Hes ].
  destruct (IH Hes) as [ IH1 IH2 ]. unfold readable_entry in He.
  cbn [fst snd] in *. apply andb_true_iff in He. destruct He as [ Hk Hv ].
  rewrite IH1, IH2, Hk, (stable_render _ _ Hk Hv).
  split; reflexivity.
Qed.

(** The loop body on a directive line with readable entries. *)
Lemma rewrite_line_readable (u : dict) (es : list (str * str)) (rest : str) :
  es <> [] -> forallb readable_entry es = true ->
  contains rparen rest = false ->
  rewrite_line u (directive es rest)
  = match pop_all u u (map fst es) with
    | Some remaining =>
        LineOk (directive (map (emit u) es ++ map appended remaining)
                          [newline])
    | None => LineRaise KeyError
    end.
Proof.
  intros Hne Hwf Hrest. destruct (readable_entry_stable _ Hwf) as [ Hs Hk ].
  unfold directive. rewrite rewrite_line_pieces; try assumption.
  - rewrite (modify_settings_render _ _ _ Hk).
    destruct (pop_all u u (map fst es)); [ | reflexivity ].
    now rewrite map_app.
  - destruct es; [ congruence | discriminate ].
Qed.





Section Rewritten.

Variable u : dict.
Hypothesis u_valid : valid_updates u.

Variable es : list (str * str).
Hypothesis es_readable : forallb readable_entry es = true.

Variable remaining : dict.
Hypothesis es_popped : pop_all u u (map fst es) = Some remaining.







End Rewritten.

(** * The merger, document by document *)

Lemma rewrite_lines_done (u : dict) (doc doc' : list str) :
  rewrite_lines u doc = LoopDone doc' <-> Forall2 (rewritten u) doc doc'.
Proof.
  revert doc'. induction doc as [ | line doc IH ]; intros doc'.
  - split.
    + intros [= <-]. constructor.
    + intros H. inversion H. reflexivity.
  - split.
    + cbn [rewrite_lines]. intros H.
      assert (exists line' ls,
                 doc' = line' :: ls /\ rewritten u line line'
                 /\ rewrite_lines u doc = LoopDone ls)
        as (line' & ls & -> & Hl & Hr).
      { unfold rewritten. destruct (startswith marker line).
        - destruct (rewrite_line u line) as [ line' | r | e ];
            [ | discriminate | discriminate ].
          destruct (rewrite_lines u doc) as [ ls | r | e ];
            [ | discriminate | discriminate ].
          injection H as <-. eauto.
        - destruct (rewrite_lines u doc) as [ ls | r | e ];
            [ | discriminate | discriminate ].
          injection H as <-. eauto. }
      constructor; [ assumption | now apply IH ].
    + intros H. inversion H as [ | ? line' ? ls Hl Hr ]; subst.
      apply IH in Hr. cbn [rewrite_lines]. rewrite Hr.
      unfold rewritten in Hl. destruct (startswith marker line).
      * now rewrite Hl.
      * now subst line'.
Qed.

Lemma Forall2_nth_error (A B : Type) (R : A -> B -> Prop)
  (l : list A) (l' : list B) (n : nat) (x : A) :
  Forall2 R l l' -> nth_error l n = Some x ->
  exists y, nth_error l' n = Some y /\ R x y.
Proof.
  intros H. revert n. induction H as [ | a b l l' Hab _ IH ]; intros n.
  - destruct n; discriminate.
  - destruct n as [ | n ]; simpl.
    + intros [= <-]. eauto.
    + apply IH.
Qed.

Lemma update_unfold (ip : str) (doc : list str) (updates : dict) :
  truthy ip = true ->
  update_palworld_settings_ini (Some ip) (Lines doc) updates
  = match effective ip updates with
    | None =>
        mk_call (Raised KeyError) None
                (set (lit "PublicIP") (dq :: ip ++ [dq]) updates)
    | Some u =>
        match rewrite_lines u doc with
        | LoopDone lines' =>
            mk_call (Returned (success "Settings updated successfully"))
                    (Some lines') u
        | LoopReturn r => mk_call (Returned r) None u
        | LoopRaise _ =>
            mk_call (Returned (error "Error writing settings file")) None u
        end
    end.
Proof.
  intros H. unfold update_palworld_settings_ini, effective. now rewrite H.
Qed.

Lemma merge_unfold (ip : str) (doc doc' : list str) (updates : dict) :
  merge ip doc updates = Some doc' <->
  truthy ip = true
  /\ exists u, effective ip updates = Some u
               /\ rewrite_lines u doc = LoopDone doc'.
Proof.
  unfold merge. destruct (truthy ip) eqn:T.
  - rewrite (update_unfold _ _ _ T).
    destruct (effective ip updates) as [ u | ]; simpl.
    + destruct (rewrite_lines u doc) as [ ls | r | e ] eqn:R; simpl.
      * split.
        -- intros [= <-]. split; [ reflexivity | eauto ].
        -- intros (_ & u' & [= <-] & H). congruence.
      * split; [ discriminate | ].
        intros (_ & u' & [= <-] & H). congruence.
      * split; [ discriminate | ].
        intros (_ & u' & [= <-] & H). congruence.
    + split; [ discriminate | ]. intros (_ & u' & H & _). discriminate.
  - unfold update_palworld_settings_ini. rewrite T. simpl.
    split; [ discriminate | ]. intros [ H _ ]. discriminate.
Qed.



Lemma directive_startswith (es : list (str * str)) (rest : str) :
  startswith marker (directive es rest) = true.
Proof. apply startswith_app. Qed.


(** A directive line with readable entries is read as those entries. *)
Lemma read_setting_render (k v : str) :
  clean_key k = true -> read_setting (render (k, v)) = (k, v).
Proof.
  intros Hk. apply clean_key_facts in Hk. destruct Hk as (Hs & He & _ & _).
  unfold read_setting, render. cbn [fst snd].
  now rewrite (partition_found _ _ _ He), Hs.
Qed.

Lemma settings_of_directive (es : list (str * str)) (rest : str) :
  es <> [] -> forallb readable_entry es = true ->
  contains rparen rest = false ->
  settings_of (directive es rest) = es.
Proof.
  intros Hne Hes Hrest. destruct (readable_entry_stable _ Hes) as [ Hs Hk ].
  assert (map render es <> []) as Hne'
    by (destruct es; [ congruence | discriminate ]).
  unfold settings_of, directive.
  set (inner := join comma (map render es)).
  assert (find lparen (marker ++ lparen :: inner ++ rparen :: rest) = 15%Z)
    as -> by (now rewrite find_found).
  replace (marker ++ lparen :: inner ++ rparen :: rest)
    with ((marker ++ lparen :: inner) ++ rparen :: rest)
    by (now rewrite <- app_assoc).
  rewrite (rfind_found _ _ _ Hrest).
  replace ((marker ++ lparen :: inner) ++ rparen :: rest)
    with ((marker ++ [lparen]) ++ inner ++ rparen :: rest)
    by (rewrite <- !app_assoc; reflexivity).
  replace (15 + 1)%Z with (Z.of_nat (List.length (marker ++ [lparen])))
    by reflexivity.
  replace (List.length (marker ++ lparen :: inner))
    with (List.length (marker ++ [lparen]) + List.length inner)
    by (rewrite !length_app; cbn [List.length]; lia).
  rewrite slice_middle. unfold split_settings_string, inner.
  rewrite (split_join _ _ Hne' Hs). rewrite map_map.
  clear - Hk. induction es as [ | [ k v ] es IH ]; [ reflexivity | ].
  cbn [forallb fst] in Hk. apply andb_true_iff in Hk.
  destruct Hk as [ Hk Hes ]. cbn [map].
  now rewrite (read_setting_render _ _ Hk), (IH Hes).
Qed.

(** A document whose directive lines are well formed is readable. *)
Lemma well_formed_is_readable_document (doc : list str) :
  well_formed_document doc -> readable_document doc = true.
Proof.
  intros H. unfold readable_document. apply forallb_forall.
  intros line Hin. unfold well_formed_document in H.
  rewrite Forall_forall in H. specialize (H line Hin). cbn beta in H.
  destruct (startswith marker line); [ | reflexivity ].
  destruct (H eq_refl) as (es & rest & -> & Hne & Hes & Hrest).
  assert (forallb readable_entry es = true) as Hr.
  { rewrite forallb_forall in *. intros kv Hkv.
    now apply well_formed_is_readable, Hes. }
  cbn [negb orb]. now rewrite (settings_of_directive _ _ Hne Hr Hrest).
Qed.


(** * The merger: the claims *)

Lemma well_formed_line_intro (es : list (str * str)) (rest : str) :
  es <> [] -> forallb well_formed_entry es = true ->
  contains rparen rest = false -> well_formed_line (directive es rest).
Proof. intros H1 H2 H3. exists es, rest. auto. Qed.

Lemma address_doc_well_formed : well_formed_document address_doc.
Proof.
  constructor; [ intros H; vm_compute in H; discriminate H | ].
  constructor; [ | constructor ].
  intros _. apply well_formed_line_intro;
    [ discriminate | reflexivity | reflexivity ].
Defined.


Lemma first_run_settings_valid : valid_updates first_run_settings.
Proof.
  split; [ | reflexivity ].
  repeat constructor; simpl; intuition discriminate.
Defined.






Lemma effective_some (ip : str) (updates : dict) :
  contains_key (lit "RCONEnabled") updates = true ->
  exists u, effective ip updates = Some u.
Proof.
  intros H. unfold effective, normalise_rcon. rewrite get_set.
  replace (str_eqb (lit "RCONEnabled") (lit "PublicIP")) with false
    by reflexivity.
  rewrite contains_key_get in H.
  destruct (get (lit "RCONEnabled") updates) as [ v | ]; [ | discriminate ].
  destruct (str_eqb v (lit "true")); [ eauto | ].
  destruct (str_eqb v (lit "false")); eauto.
Qed.


(** A key that the caller's map does not hold, other than the public
    address, is not in the map the loop works with. *)
Lemma effective_get (ip : str) (updates u : dict) (k : str) :
  effective ip updates = Some u ->
  contains_key k updates = false -> k <> lit "PublicIP" ->
  get k u = None.
Proof.
  intros He Hk Hne. rewrite contains_key_get in Hk.
  assert (get k (set (lit "PublicIP") (dq :: ip ++ [dq]) updates) = None)
    as Hs.
  { rewrite get_set. apply str_eqb_neq in Hne. rewrite Hne.
    destruct (get k updates); [ discriminate | reflexivity ]. }
  unfold effective, normalise_rcon in He.
  destruct (get (lit "RCONEnabled") _) as [ v | ] eqn:G; [ | discriminate ].
  assert (str_eqb k (lit "RCONEnabled") = false) as Hr.
  { apply str_eqb_neq. intros ->. congruence. }
  destruct (str_eqb v (lit "true")).
  - assert (u = set (lit "RCONEnabled") (lit "True")
                    (set (lit "PublicIP") (dq :: ip ++ [dq]) updates))
      as -> by congruence.
    now rewrite get_set, Hr.
  - destruct (str_eqb v (lit "false")).
    + assert (u = set (lit "RCONEnabled") (lit "False")
                      (set (lit "PublicIP") (dq :: ip ++ [dq]) updates))
        as -> by congruence.
      now rewrite get_set, Hr.
    + congruence.
Qed.

(** * The merger succeeds on documents with distinct keys *)






Lemma rewrite_line_return (u : dict) (line : str) (r : result) :
  rewrite_line u line = LineReturn r -> r = span_error.
Proof.
  unfold rewrite_line. destruct (_ >? _)%Z.
  - destruct (modify_settings _ _ _) as [ [ ms remaining ] | ]; discriminate.
  - now intros [= <-].
Qed.

Lemma rewrite_line_ok (u : dict) (line line' : str) :
  rewrite_line u line = LineOk line' ->
  inverted_span line = false
  /\ exists inner, line' = marker ++ lparen :: inner ++ [rparen; newline].
Proof.
  unfold rewrite_line, inverted_span.
  destruct (Z.gtb_spec (rfind rparen line) (find lparen line + 1))
    as [ Hgt | Hle ]; [ | discriminate ].
  destruct (modify_settings _ _ _) as [ [ ms remaining ] | ];
    [ | discriminate ].
  intros [= <-]. split; [ apply Z.leb_gt; lia | eexists; reflexivity ].
Qed.

Lemma rewrite_line_inverted (u : dict) (line : str) :
  inverted_span line = true -> rewrite_line u line = LineReturn span_error.
Proof.
  unfold rewrite_line, inverted_span. intros H. apply Z.leb_le in H.
  destruct (Z.gtb_spec (rfind rparen line) (find lparen line + 1));
    [ lia | reflexivity ].
Qed.

Lemma rewrite_lines_stop (u : dict) (doc : list str) :
  match rewrite_lines u doc with
  | LoopReturn r => r = span_error
  | _ => True
  end.
Proof.
  induction doc as [ | line doc IH ]; cbn [rewrite_lines]; [ exact I | ].
  revert IH. destruct (startswith marker line).
  - destruct (rewrite_line u line) as [ line' | r | e ] eqn:L.
    + destruct (rewrite_lines u doc); simpl; auto.
    + intros _. now apply rewrite_line_return in L.
    + simpl; auto.
  - destruct (rewrite_lines u doc); simpl; auto.
Qed.

Lemma rewrite_lines_inverted (u : dict) (doc : list str) :
  existsb (fun line => startswith marker line && inverted_span line) doc
  = true ->
  stopped (rewrite_lines u doc).
Proof.
  induction doc as [ | line doc IH ]; cbn [rewrite_lines existsb];
    [ discriminate | ].
  intros H. apply orb_true_iff in H. revert IH H.
  destruct (startswith marker line) eqn:E.
  - destruct (rewrite_line u line) as [ line' | r | e ] eqn:L.
    + intros IH [ H | H ].
      * cbn [andb] in H. apply rewrite_line_ok in L. destruct L as [ L _ ].
        congruence.
      * specialize (IH H). revert IH.
        destruct (rewrite_lines u doc); simpl; auto.
    + intros _ _. simpl. now apply rewrite_line_return in L.
    + intros _ _. exact I.
  - intros IH [ H | H ]; [ discriminate | ].
    specialize (IH H). revert IH. destruct (rewrite_lines u doc); simpl; auto.
Qed.

Lemma rewrite_lines_plain (u : dict) (doc : list str) :
  forallb (fun line => negb (startswith marker line)) doc = true ->
  rewrite_lines u doc = LoopDone doc.
Proof.
  induction doc as [ | line doc IH ]; cbn [rewrite_lines forallb];
    [ reflexivity | ].
  intros H. apply andb_true_iff in H. destruct H as [ H1 H2 ].
  apply negb_true_iff in H1. now rewrite H1, (IH H2).
Qed.

(** C7, as amended.  With a public address and the key [RCONEnabled] at
    hand: a document without directive line is accepted and written back
    as it is; a directive line whose last closing parenthesis does not
    come after the character following its first opening parenthesis
    makes the call fail without writing; whenever the call writes, it
    reports success, every directive line has been replaced by a line of
    the form marker, parenthesised list, line feed, and every other line
    is the same; and whenever it does not write, it reports an error. *)
Theorem merge_outcomes (ip : str) (updates : dict) (doc : list str) :
  truthy ip = true ->
  contains_key (lit "RCONEnabled") updates = true ->
  let c := update_palworld_settings_ini (Some ip) (Lines doc) updates in
  (forallb (fun line => negb (startswith marker line)) doc = true ->
   ending c = Returned (success "Settings updated successfully")
   /\ written c = Some doc)
  /\ (existsb (fun line => startswith marker line && inverted_span line) doc
      = true ->
      exists r, ending c = Returned r /\ is_error r = true
                /\ written c = None)
  /\ (forall doc',
       written c = Some doc' ->
       ending c = Returned (success "Settings updated successfully")
       /\ Forall2 (fun line line' =>
                     if startswith marker line
                     then inverted_span line = false
                          /\ exists inner,
                              line' = marker ++ lparen :: inner
                                             ++ [rparen; newline]
                     else line' = line) doc doc')
  /\ (written c = None ->
      exists r, ending c = Returned r /\ is_error r = true).
Proof.
  intros T Hk c. subst c. rewrite (update_unfold _ _ _ T).
  destruct (effective_some ip _ Hk) as [ u -> ].
  split; [ | split; [ | split ] ].
  - intros H. now rewrite (rewrite_lines_plain _ _ H).
  - intros H. apply (rewrite_lines_inverted u) in H.
    destruct (rewrite_lines u doc) as [ ls | r | e ];
      cbn [stopped written ending] in *.
    + contradiction.
    + subst r. eexists. repeat split.
    + eexists. repeat split.
  - intros doc'.
    destruct (rewrite_lines u doc) as [ ls | r | e ] eqn:R;
      cbn [written ending];
      try discriminate.
    intros [= <-]. split; [ reflexivity | ].
    apply rewrite_lines_done in R.
    induction R as [ | line line' doc doc' Hl _ IH ]; constructor;
      [ | assumption ].
    unfold rewritten in Hl. destruct (startswith marker line);
      [ now apply rewrite_line_ok in Hl | assumption ].
  - pose proof (rewrite_lines_stop u doc) as S.
    destruct (rewrite_lines u doc) as [ ls | r | e ];
      cbn [written ending];
      try discriminate; intros _.
    + subst r. eexists. repeat split.
    + eexists. repeat split.
Qed.

Lemma merge_outcomes_witness :
  let c := update_palworld_settings_ini (Some address)
             (Lines empty_directive_doc) rcon_update in
  (forallb (fun line => negb (startswith marker line)) empty_directive_doc
   = true ->
   ending c = Returned (success "Settings updated successfully")
   /\ written c = Some empty_directive_doc)
  /\ (existsb (fun line => startswith marker line && inverted_span line)
        empty_directive_doc = true ->
      exists r, ending c = Returned r /\ is_error r = true
                /\ written c = None)
  /\ (forall doc',
       written c = Some doc' ->
       ending c = Returned (success "Settings updated successfully")
       /\ Forall2 (fun line line' =>
                     if startswith marker line
                     then inverted_span line = false
                          /\ exists inner,
                              line' = marker ++ lparen :: inner
                                             ++ [rparen; newline]
                     else line' = line) empty_directive_doc doc')
  /\ (written c = None ->
      exists r, ending c = Returned r /\ is_error r = true).
Proof.
  apply (merge_outcomes address rcon_update empty_directive_doc);
    reflexivity.
Defined.

(** C7 as stated fails: a document without directive line is not
    rejected; the call reports success and writes the document back.
    Besides, a directive with nothing between its parentheses is
    rejected, although its closing parenthesis comes after the opening
    one. *)
Lemma missing_directive_is_accepted :
  (forallb (fun line => negb (startswith marker line)) plain_doc = true
   /\ update_palworld_settings_ini (Some address) (Lines plain_doc)
        rcon_update
      = mk_call (Returned (success "Settings updated successfully"))
                (Some plain_doc)
                [(lit "RCONEnabled", lit "True");
                 (lit "PublicIP", dq :: address ++ [dq])]
   /\ is_error (success "Settings updated successfully") = false)
  /\ ((find lparen (lit "OptionSettings=()" ++ [newline])
       <? rfind rparen (lit "OptionSettings=()" ++ [newline]))%Z = true
      /\ update_palworld_settings_ini (Some address)
           (Lines empty_directive_doc) rcon_update
         = mk_call (Returned span_error) None
                   [(lit "RCONEnabled", lit "True");
                    (lit "PublicIP", dq :: address ++ [dq])]).
Proof. repeat split. Qed.




(** * The pruning step of the current copy *)

Lemma nat_of_ascii_inj (x y : ascii) :
  nat_of_ascii x = nat_of_ascii y -> x = y.
Proof.
  intros H. rewrite <- (ascii_nat_embedding x), <- (ascii_nat_embedding y).
  now rewrite H.
Qed.

Lemma str_leb_total (a b : str) : str_leb a b = false -> str_leb b a = true.
Proof.
  revert b. induction a as [ | x a IH ]; intros [ | y b ]; simpl;
    try discriminate; try reflexivity.
  rewrite (Ascii.eqb_sym y x). destruct (Ascii.eqb x y) eqn:E.
  - apply IH.
  - intros H. apply Nat.ltb_ge in H. apply Nat.ltb_lt.
    apply Ascii.eqb_neq in E.
    assert (nat_of_ascii x <> nat_of_ascii y)
      by (intros N; now apply nat_of_ascii_inj in N).
    lia.
Qed.

Lemma str_leb_trans (a b c : str) :
  str_leb a b = true -> str_leb b c = true -> str_leb a c = true.
Proof.
  revert b c. induction a as [ | x a IH ]; intros [ | y b ] [ | z c ]; simpl;
    try discriminate; try reflexivity.
  destruct (Ascii.eqb x y) eqn:E1.
  - apply Ascii.eqb_eq in E1. subst y.
    destruct (Ascii.eqb x z); [ apply IH | tauto ].
  - destruct (Ascii.eqb y z) eqn:E2.
    + apply Ascii.eqb_eq in E2. subst z. rewrite E1. tauto.
    + intros H1 H2. apply Nat.ltb_lt in H1, H2.
      destruct (Ascii.eqb x z) eqn:E3.
      * apply Ascii.eqb_eq in E3. subst z. lia.
      * apply Nat.ltb_lt. lia.
Qed.

Lemma insert_sorted_sorted (x : str) (l : list str) :
  StronglySorted str_le l -> StronglySorted str_le (insert_sorted str_leb x l).
Proof.
  induction 1 as [ | y l Hs IH Hall ]; simpl.
  - repeat constructor.
  - destruct (str_leb x y) eqn:E.
    + constructor; [ now constructor | ].
      constructor; [ exact E | ].
      apply Forall_impl with (P := str_le y); [ | assumption ].
      intros z Hz. exact (str_leb_trans _ _ _ E Hz).
    + constructor; [ assumption | ].
      apply Forall_forall. intros z Hz.
      apply In_insert_sorted in Hz. destruct Hz as [ -> | Hz ].
      * now apply str_leb_total.
      * rewrite Forall_forall in Hall. now apply Hall.
Qed.

Lemma sort_sorted (l : list str) : StronglySorted str_le (sort l).
Proof.
  unfold sort. induction l as [ | x l IH ]; simpl; [ constructor | ].
  now apply insert_sorted_sorted.
Qed.

Lemma insert_sorted_perm (le : str -> str -> bool) (x : str) (l : list str) :
  Permutation (insert_sorted le x l) (x :: l).
Proof.
  induction l as [ | y l IH ]; simpl; [ reflexivity | ].
  destruct (le x y); [ reflexivity | ].
  rewrite IH. apply perm_swap.
Qed.

Lemma sort_perm (l : list str) : Permutation (sort l) l.
Proof.
  unfold sort. induction l as [ | x l IH ]; simpl; [ reflexivity | ].
  rewrite insert_sorted_perm. now constructor.
Qed.

(** In a sorted list every element of a prefix is below every element of
    the rest. *)
Lemma sorted_split (n : nat) (l : list str) (v s : str) :
  StronglySorted str_le l ->
  In v (firstn n l) -> In s (skipn n l) -> str_le v s.
Proof.
  intros H. revert n. induction H as [ | y l Hs IH Hall ]; intros n.
  - destruct n; simpl; contradiction.
  - destruct n as [ | n ]; simpl; [ contradiction | ].
    intros [ <- | Hv ] Hs'.
    + rewrite Forall_forall in Hall. apply Hall.
      now apply In_skipn in Hs'.
    + now apply (IH n).
Qed.

Lemma backup_folders_rmtree (f : str) (root : list entry) :
  backup_folders (rmtree f root)
  = filter (fun x => negb (str_eqb x f)) (backup_folders root).
Proof.
  unfold backup_folders, rmtree.
  induction root as [ | e root IH ]; simpl; [ reflexivity | ].
  destruct (str_eqb (name e) f) eqn:E, (is_dir e) eqn:D; simpl;
    rewrite ?D, ?E; simpl; now rewrite IH.
Qed.

Lemma backup_folders_fold (victims : list str) (root : list entry) :
  backup_folders (fold_left (fun r f => rmtree f r) victims root)
  = filter (spared victims) (backup_folders root).
Proof.
  revert root. induction victims as [ | f victims IH ]; intros root; simpl.
  - unfold spared. simpl. induction (backup_folders root) as [ | x l IHl ];
      simpl; [ reflexivity | now rewrite <- IHl ].
  - rewrite IH, backup_folders_rmtree.
    induction (backup_folders root) as [ | x l IHl ]; simpl;
      [ reflexivity | ].
    unfold spared at 2. simpl.
    destruct (str_eqb x f); simpl; [ exact IHl | ].
    fold (spared victims x). destruct (spared victims x); simpl;
      now rewrite IHl.
Qed.

Lemma filter_comm (A : Type) (p q : A -> bool) (l : list A) :
  filter p (filter q l) = filter q (filter p l).
Proof.
  induction l as [ | x l IH ]; simpl; [ reflexivity | ].
  destruct (p x) eqn:P, (q x) eqn:Q; simpl; rewrite ?P, ?Q, IH; reflexivity.
Qed.

Lemma filter_length_perm (A : Type) (p : A -> bool) (l l' : list A) :
  Permutation l l' ->
  List.length (filter p l) = List.length (filter p l').
Proof.
  induction 1 as [ | x l l' _ IH | x y l | l l' l'' _ IH1 _ IH2 ]; simpl.
  - reflexivity.
  - destruct (p x); simpl; now rewrite IH.
  - destruct (p x), (p y); reflexivity.
  - now rewrite IH1.
Qed.

Lemma filter_none (A : Type) (p : A -> bool) (l : list A) :
  (forall x, In x l -> p x = false) -> filter p l = [].
Proof.
  induction l as [ | x l IH ]; simpl; intros H; [ reflexivity | ].
  rewrite (H x (or_introl eq_refl)). apply IH. intros y Hy. apply H.
  now right.
Qed.

Lemma filter_all (A : Type) (p : A -> bool) (l : list A) :
  (forall x, In x l -> p x = true) -> filter p l = l.
Proof.
  induction l as [ | x l IH ]; simpl; intros H; [ reflexivity | ].
  rewrite (H x (or_introl eq_refl)). f_equal. apply IH. intros y Hy.
  apply H. now right.
Qed.

Lemma spared_false (victims : list str) (f : str) :
  In f victims -> spared victims f = false.
Proof.
  intros H. unfold spared. apply negb_false_iff. apply existsb_exists.
  exists f. split; [ assumption | apply str_eqb_refl ].
Qed.

Lemma spared_true (victims : list str) (f : str) :
  ~ In f victims -> spared victims f = true.
Proof.
  intros H. unfold spared. apply negb_true_iff.
  destruct (existsb (str_eqb f) victims) eqn:E; [ | reflexivity ].
  apply existsb_exists in E. destruct E as (x & Hx & Hf).
  apply str_eqb_eq in Hf. subst x. contradiction.
Qed.

Section Pruning.

Variable root : list entry.
Hypothesis names_distinct : NoDup (map name root).

Lemma filter_NoDup (A : Type) (p : A -> bool) (l : list A) :
  NoDup l -> NoDup (filter p l).
Proof.
  induction 1 as [ | x l Hx _ IH ]; simpl; [ constructor | ].
  destruct (p x); [ | assumption ].
  constructor; [ | assumption ].
  intros H. apply filter_In in H. tauto.
Qed.

Lemma backup_folders_NoDup : NoDup (backup_folders root).
Proof.
  unfold backup_folders. revert names_distinct.
  induction root as [ | e r IH ]; simpl; intros H; [ constructor | ].
  inversion H as [ | ? ? Hn Hd ]; subst.
  destruct (is_dir e); simpl; [ | now apply IH ].
  constructor; [ | now apply IH ].
  intros Hin. apply Hn. apply in_map_iff in Hin.
  destruct Hin as (x & Hx & Hin). apply filter_In in Hin.
  apply in_map_iff. exists x. tauto.
Qed.

(** The tagged folders that are left after the [k] least have gone. *)
Lemma tagged_after (k : nat) :
  filter tagged
    (backup_folders
       (fold_left (fun r f => rmtree f r)
                  (firstn k (sort (tagged_folders root))) root))
  = filter (spared (firstn k (sort (tagged_folders root)))) (tagged_folders root).
Proof.
  rewrite backup_folders_fold. apply filter_comm.
Qed.

Lemma sorted_NoDup : NoDup (sort (tagged_folders root)).
Proof.
  apply Permutation_NoDup with (l := (tagged_folders root)).
  - symmetry. apply sort_perm.
  - apply filter_NoDup. exact backup_folders_NoDup.
Qed.

Lemma spared_count (k : nat) :
  List.length (filter (spared (firstn k (sort (tagged_folders root))))
                      (tagged_folders root))
  = List.length (tagged_folders root) - Nat.min k (List.length (tagged_folders root)).
Proof.
  rewrite (filter_length_perm _ _ _ _
             (Permutation_sym (sort_perm (tagged_folders root)))).
  rewrite <- (firstn_skipn k (sort (tagged_folders root))) at 2.
  rewrite filter_app, length_app.
  rewrite filter_none by (intros x Hx; now apply spared_false).
  rewrite filter_all.
  - rewrite length_skipn, (Permutation_length (sort_perm (tagged_folders root))).
    simpl. lia.
  - intros x Hx. apply spared_true. intros Hv.
    pose proof sorted_NoDup as N.
    rewrite <- (firstn_skipn k (sort (tagged_folders root))) in N.
    apply NoDup_app_remove_l in N as N2.
    clear N2. revert N Hv Hx.
    generalize (firstn k (sort (tagged_folders root))) as V.
    generalize (skipn k (sort (tagged_folders root))) as K.
    intros K V. induction V as [ | v V IH ]; simpl; [ tauto | ].
    intros N [ -> | Hv ] Hx.
    + inversion N as [ | ? ? Hn _ ]; subst. apply Hn. apply in_or_app.
      now right.
    + inversion N; subst. now apply IH.
Qed.

(** The retention bound of the current copy: after pruning with a
    positive count [n], the number of tagged folders is the minimum of
    [n] and their number before. *)
Lemma prune_retention_bound (n : Z) :
  (0 < n)%Z ->
  tagged_count (prune n root)
  = Nat.min (Z.to_nat n) (tagged_count root).
Proof.
  intros Hn. unfold tagged_count, prune.
  destruct (Z.gtb_spec n 0); [ | lia ].
  fold (tagged_folders root).
  rewrite (Permutation_length (sort_perm (tagged_folders root))).
  destruct (Z.gtb_spec (Z.of_nat (List.length (tagged_folders root))) n).
  - rewrite tagged_after, spared_count. lia.
  - fold (tagged_folders root). lia.
Qed.

(** And the folders that are left are the greatest: every tagged folder
    that was deleted is below every tagged folder that is left. *)
Lemma prune_keeps_the_largest (n : Z) (v s : str) :
  In v (tagged_folders root) ->
  ~ In v (filter tagged (backup_folders (prune n root))) ->
  In s (filter tagged (backup_folders (prune n root))) ->
  str_le v s.
Proof.
  unfold prune. fold (tagged_folders root).
  destruct (n >? 0)%Z; [ | tauto ].
  destruct (_ >? n)%Z; [ | fold (tagged_folders root); tauto ].
  rewrite tagged_after.
  set (k := List.length (sort (tagged_folders root)) - Z.to_nat n).
  intros Hv Hgone Hkept.
  apply filter_In in Hkept. destruct Hkept as [ Hs Hsp ].
  assert (In v (firstn k (sort (tagged_folders root)))) as Hvk.
  { destruct (in_dec (list_eq_dec ascii_dec) v
                     (firstn k (sort (tagged_folders root)))) as [ H | H ];
      [ assumption | ].
    exfalso. apply Hgone. apply filter_In. split; [ assumption | ].
    now apply spared_true. }
  assert (In s (skipn k (sort (tagged_folders root)))) as Hsk.
  { apply (Permutation_in _ (Permutation_sym (sort_perm (tagged_folders root))))
      in Hs.
    rewrite <- (firstn_skipn k (sort (tagged_folders root))) in Hs.
    apply in_app_or in Hs. destruct Hs as [ Hs | Hs ]; [ | assumption ].
    apply spared_false in Hs. congruence. }
  exact (sorted_split k _ v s (sort_sorted (tagged_folders root)) Hvk Hsk).
Qed.

End Pruning.

(** * Further properties of the settings merger *)

(** X1: the quoting rule only ever wraps a value in one pair of double
    quotes, and applying it to its own output changes nothing, whatever
    the value is. *)
Theorem quoting_only_wraps (value : str) :
  quote_value_if_needed (quote_value_if_needed value)
  = quote_value_if_needed value
  /\ (quote_value_if_needed value = value
      \/ quote_value_if_needed value = dq :: value ++ [dq]).
Proof.
  split; [ apply quote_idempotent | ].
  rewrite quote_value_if_needed_unfold.
  destruct (startswith [dq] value && endswith [dq] value); [ now left | ].
  destruct (special value); auto.
Qed.

(** X2: the quote-aware split undoes the join: the entries of a
    well-formed directive, joined with commas, are split into exactly
    those entries again, also when a quoted value holds commas and
    spaces. *)
Theorem split_undoes_join (entries : list (str * str)) :
  entries <> [] -> forallb well_formed_entry entries = true ->
  split_settings_string (join comma (map render entries))
  = map render entries.
Proof.
  intros Hne Hwf. destruct (well_formed_entry_stable _ Hwf) as [ Hs _ ].
  unfold split_settings_string. apply split_join; [ | assumption ].
  destruct entries; [ congruence | discriminate ].
Qed.

Lemma split_undoes_join_witness :
  split_settings_string
    (join comma
       (map render [(lit "ServerName", dq :: lit "My server, the first" ++ [dq]);
                    (lit "Difficulty", lit "None")]))
  = map render [(lit "ServerName", dq :: lit "My server, the first" ++ [dq]);
                (lit "Difficulty", lit "None")].
Proof.
  apply split_undoes_join; [ discriminate | reflexivity ].
Defined.

(** The map the loop works with agrees with the caller's map on every
    key but the two the call assigns itself. *)
Lemma effective_other (ip : str) (updates u : dict) (k : str) :
  effective ip updates = Some u ->
  k <> lit "PublicIP" -> k <> lit "RCONEnabled" ->
  get k u = get k updates.
Proof.
  intros He H1 H2. apply str_eqb_neq in H1. apply str_eqb_neq in H2.
  unfold effective, normalise_rcon in He.
  destruct (get (lit "RCONEnabled") _) as [ v | ]; [ | discriminate ].
  destruct (str_eqb v (lit "true")).
  - assert (u = set (lit "RCONEnabled") (lit "True")
                    (set (lit "PublicIP") (dq :: ip ++ [dq]) updates))
      as -> by congruence.
    now rewrite !get_set, H1, H2.
  - destruct (str_eqb v (lit "false")).
    + assert (u = set (lit "RCONEnabled") (lit "False")
                      (set (lit "PublicIP") (dq :: ip ++ [dq]) updates))
        as -> by congruence.
      now rewrite !get_set, H1, H2.
    + assert (u = set (lit "PublicIP") (dq :: ip ++ [dq]) updates)
        as -> by congruence.
      now rewrite get_set, H1.
Qed.

(** Popping a key of a dictionary filters it out. *)
Lemma pop_absent (k : str) (d : dict) : ~ In k (keys d) -> pop k d = None.
Proof.
  induction d as [ | [ k2 v2 ] d IH ]; simpl; intros H; [ reflexivity | ].
  destruct (str_eqb k k2) eqn:E.
  - apply str_eqb_eq in E. subst k2. exfalso. apply H. now left.
  - rewrite IH; [ reflexivity | ]. intros Hin. apply H. now right.
Qed.

Lemma pop_filter (k : str) (d d' : dict) :
  NoDup (keys d) -> pop k d = Some d' ->
  d' = filter (fun kv => negb (str_eqb (fst kv) k)) d.
Proof.
  revert d'. induction d as [ | [ k2 v2 ] d IH ]; simpl; intros d' Hn H;
    [ discriminate | ].
  inversion Hn as [ | ? ? Hnot Hd ]; subst.
  destruct (str_eqb k k2) eqn:E.
  - apply str_eqb_eq in E. subst k2. injection H as <-.
    rewrite str_eqb_refl. simpl. symmetry. apply filter_all.
    intros [ k3 v3 ] Hin. cbn [fst]. apply negb_true_iff, str_eqb_neq.
    intros ->. apply Hnot. change k with (fst (k, v3)). now apply in_map.
  - destruct (pop k d) as [ r | ]; [ | discriminate ].
    injection H as <-.
    assert (str_eqb k2 k = false) as ->.
    { apply str_eqb_neq. intros ->. now rewrite str_eqb_refl in E. }
    simpl. f_equal. now apply IH.
Qed.

Lemma keys_filter (p : str * str -> bool) (d : dict) (k : str) :
  In k (keys (filter p d)) -> In k (keys d).
Proof.
  unfold keys. intros H. apply in_map_iff in H.
  destruct H as (kv & <- & H). apply filter_In in H.
  apply in_map. tauto.
Qed.

Lemma NoDup_keys_filter (p : str * str -> bool) (d : dict) :
  NoDup (keys d) -> NoDup (keys (filter p d)).
Proof.
  induction d as [ | kv d IH ]; simpl; intros H; [ constructor | ].
  inversion H as [ | ? ? Hnot Hd ]; subst.
  destruct (p kv); simpl; [ | now apply IH ].
  constructor; [ | now apply IH ].
  intros Hin. apply Hnot. now apply keys_filter in Hin.
Qed.

Lemma pop_NoDup (k : str) (d d' : dict) :
  NoDup (keys d) -> pop k d = Some d' ->
  NoDup (keys d') /\ ~ In k (keys d').
Proof.
  intros Hn H. rewrite (pop_filter _ _ _ Hn H). split.
  - now apply NoDup_keys_filter.
  - unfold keys. intros Hin. apply in_map_iff in Hin.
    destruct Hin as (kv & <- & Hin). apply filter_In in Hin.
    destruct Hin as [ _ Hin ]. now rewrite str_eqb_refl in Hin.
Qed.

Lemma pop_all_NoDup (u d d' : dict) (ks : list str) :
  NoDup (keys d) -> pop_all u d ks = Some d' -> NoDup (keys d').
Proof.
  revert d. induction ks as [ | k ks IH ]; simpl; intros d Hn H.
  - now injection H as <-.
  - destruct (get k u); [ | now apply (IH d) ].
    destruct (pop k d) as [ r | ] eqn:P; [ | discriminate ].
    apply (IH r); [ | assumption ]. now apply (pop_NoDup _ _ _ Hn P).
Qed.

(** What is left of the update map after the loop over the entries: the
    keys the directive does not hold, in the order of the map. *)
Lemma pop_all_filter (u d d' : dict) (ks : list str) :
  NoDup (keys d) -> (forall kv, In kv d -> get (fst kv) u <> None) ->
  pop_all u d ks = Some d' ->
  d' = filter (fun kv => negb (existsb (str_eqb (fst kv)) ks)) d.
Proof.
  revert d. induction ks as [ | k ks IH ]; simpl; intros d Hn Hu H.
  - injection H as <-. symmetry. now apply filter_all.
  - destruct (get k u) eqn:G.
    + destruct (pop k d) as [ r | ] eqn:P; [ | discriminate ].
      pose proof (pop_filter _ _ _ Hn P) as Hr.
      rewrite (IH r); [ | now apply (pop_NoDup _ _ _ Hn P) | | assumption ].
      * rewrite Hr. clear. induction d as [ | kv d IHd ]; simpl;
          [ reflexivity | ].
        destruct (str_eqb (fst kv) k); simpl; [ exact IHd | ].
        destruct (existsb (str_eqb (fst kv)) ks); simpl;
          [ exact IHd | now rewrite IHd ].
      * intros kv Hin. apply Hu. now apply (pop_In _ _ _ _ P).
    + rewrite (IH d Hn Hu H). apply filter_ext_in. intros kv Hin.
      destruct (str_eqb (fst kv) k) eqn:E; [ | reflexivity ].
      apply str_eqb_eq in E. exfalso. apply (Hu kv Hin). congruence.
Qed.

Lemma effective_NoDup (ip : str) (updates u : dict) :
  NoDup (keys updates) -> effective ip updates = Some u -> NoDup (keys u).
Proof.
  intros Hn. unfold effective, normalise_rcon.
  destruct (get (lit "RCONEnabled") _) as [ v | ]; [ | discriminate ].
  destruct (str_eqb v (lit "true")); [ | destruct (str_eqb v (lit "false")) ];
    intros [= <-]; repeat apply NoDup_keys_set; assumption.
Qed.

Lemma In_get (d : dict) (kv : str * str) : In kv d -> get (fst kv) d <> None.
Proof.
  induction d as [ | [ k2 v2 ] d IH ]; simpl; [ contradiction | ].
  intros [ <- | Hin ]; cbn [fst].
  - now rewrite str_eqb_refl.
  - destruct (str_eqb (fst kv) k2); [ discriminate | now apply IH ].
Qed.

(** What a successful merge leaves in the place of a directive line with
    readable entries. *)
Lemma merged_line (ip : str) (updates u : dict) (doc doc' : list str)
  (n : nat) (es : list (str * str)) (rest : str) :
  merge ip doc updates = Some doc' ->
  effective ip updates = Some u -> NoDup (keys updates) ->
  nth_error doc n = Some (directive es rest) ->
  es <> [] -> forallb readable_entry es = true ->
  contains rparen rest = false ->
  nth_error doc' n = Some (directive (merged_entries u es) [newline]).
Proof.
  intros M He Hd Hn Hnil Hes Hrest.
  apply merge_unfold in M. destruct M as (T & u' & He' & Hr).
  assert (u' = u) as -> by congruence.
  apply rewrite_lines_done in Hr.
  destruct (Forall2_nth_error _ _ _ _ _ _ _ Hr Hn) as (line' & Hn' & Hl).
  unfold rewritten in Hl. rewrite directive_startswith in Hl.
  rewrite (rewrite_line_readable _ _ _ Hnil Hes Hrest) in Hl.
  destruct (pop_all u u (map fst es)) as [ remaining | ] eqn:P;
    [ | discriminate ].
  injection Hl as <-. rewrite Hn'. unfold merged_entries.
  rewrite (pop_all_filter u u remaining (map fst es)); try assumption;
    [ reflexivity
    | now apply effective_NoDup with (ip := ip) (updates := updates)
    | apply In_get ].
Qed.

(** What the quoting rule does to the value of a readable entry. *)
Lemma quote_readable_value (v : str) :
  quoted v || plain v = true ->
  (settled v = true -> quote_value_if_needed v = v)
  /\ (settled v = false -> quote_value_if_needed v = dq :: v ++ [dq]).
Proof.
  intros H. split; [ apply quote_settled | ].
  intros Hs. unfold settled in Hs. apply orb_false_iff in Hs.
  destruct Hs as [ Hq Hs ]. rewrite Hq in H. cbn [orb] in H.
  unfold plain in H. apply andb_true_iff in H. destruct H as [ Hd Hc ].
  apply negb_true_iff in Hd. rewrite (quote_unquoted _ Hd).
  assert (special v = true) as ->; [ | reflexivity ].
  unfold special. rewrite Hd in Hs. cbn [negb andb] in Hs.
  destruct (contains space v); [ reflexivity | ].
  destruct (contains comma v); [ reflexivity | ].
  destruct (contains lparen v); [ reflexivity | ].
  destruct (contains rparen v); [ reflexivity | discriminate Hs ].
Qed.

(** C2, as amended: in a directive whose entries have clean keys and
    values that are quoted or free of double quotes and commas, an entry
    whose key is neither in the update map nor the public address keeps
    its place and its key, and its value goes through the quoting rule:
    a value that is quoted, or holds no space and no parenthesis, is the
    same byte for byte; a value without quotes that holds a space or a
    parenthesis is wrapped in double quotes.  The rewritten line is given
    in full: the entries that were there, in their order, then the new
    keys of the map. *)
Theorem other_keys_survive (ip : str) (updates u : dict)
  (doc doc' : list str) (n : nat) (es : list (str * str)) (rest : str)
  (i : nat) (k v : str) :
  merge ip doc updates = Some doc' ->
  effective ip updates = Some u -> NoDup (keys updates) ->
  nth_error doc n = Some (directive es rest) ->
  forallb readable_entry es = true -> contains rparen rest = false ->
  nth_error es i = Some (k, v) ->
  contains_key k updates = false -> k <> lit "PublicIP" ->
  nth_error doc' n = Some (directive (merged_entries u es) [newline])
  /\ nth_error (merged_entries u es) i = Some (k, quote_value_if_needed v)
  /\ (settled v = true -> quote_value_if_needed v = v)
  /\ (settled v = false -> quote_value_if_needed v = dq :: v ++ [dq]).
Proof.
  intros M He Hd Hn Hes Hrest Hi Hk Hne.
  assert (es <> []) as Hnil by (intros ->; destruct i; discriminate).
  split; [ now apply merged_line with (ip := ip) (updates := updates)
                                      (doc := doc) (rest := rest) | ].
  split.
  - unfold merged_entries. rewrite nth_error_app1
      by (rewrite length_map; apply nth_error_Some; congruence).
    rewrite nth_error_map, Hi. cbn [option_map]. unfold emit. cbn [fst snd].
    now rewrite (effective_get _ _ _ _ He Hk Hne).
  - apply quote_readable_value. rewrite forallb_forall in Hes.
    apply nth_error_In in Hi. specialize (Hes _ Hi).
    unfold readable_entry in Hes. cbn [fst snd] in Hes.
    apply andb_true_iff in Hes. tauto.
Qed.

Lemma other_keys_survive_witness :
  nth_error loose_doc_merged 1
  = Some (directive
            (merged_entries
               [(lit "RCONEnabled", lit "True");
                (lit "AdminPassword", dq :: lit "admin" ++ [dq]);
                (lit "bShowPlayerList", lit "False");
                (lit "PublicIP", dq :: address ++ [dq])]
               [(lit "Difficulty", lit "None");
                (lit "ServerName", lit "My Server");
                (lit "DayTimeSpeedRate", lit "(1)");
                (lit "PublicIP", [dq; dq]);
                (lit "RCONEnabled", lit "False")]) [newline])
  /\ nth_error
       (merged_entries
          [(lit "RCONEnabled", lit "True");
           (lit "AdminPassword", dq :: lit "admin" ++ [dq]);
           (lit "bShowPlayerList", lit "False");
           (lit "PublicIP", dq :: address ++ [dq])]
          [(lit "Difficulty", lit "None");
           (lit "ServerName", lit "My Server");
           (lit "DayTimeSpeedRate", lit "(1)");
           (lit "PublicIP", [dq; dq]);
           (lit "RCONEnabled", lit "False")]) 1
     = Some (lit "ServerName", quote_value_if_needed (lit "My Server"))
  /\ (settled (lit "My Server") = true
      -> quote_value_if_needed (lit "My Server") = lit "My Server")
  /\ (settled (lit "My Server") = false
      -> quote_value_if_needed (lit "My Server")
         = dq :: lit "My Server" ++ [dq]).
Proof.
  apply (other_keys_survive address first_run_settings
           [(lit "RCONEnabled", lit "True");
            (lit "AdminPassword", dq :: lit "admin" ++ [dq]);
            (lit "bShowPlayerList", lit "False");
            (lit "PublicIP", dq :: address ++ [dq])]
           [header;
            directive [(lit "Difficulty", lit "None");
                       (lit "ServerName", lit "My Server");
                       (lit "DayTimeSpeedRate", lit "(1)");
                       (lit "PublicIP", [dq; dq]);
                       (lit "RCONEnabled", lit "False")] [newline]]
           loose_doc_merged 1
           [(lit "Difficulty", lit "None");
            (lit "ServerName", lit "My Server");
            (lit "DayTimeSpeedRate", lit "(1)");
            (lit "PublicIP", [dq; dq]);
            (lit "RCONEnabled", lit "False")] [newline] 1
           (lit "ServerName") (lit "My Server"));
    [ vm_compute; reflexivity | reflexivity
    | exact (proj1 first_run_settings_valid)
    | reflexivity | reflexivity | reflexivity | reflexivity | reflexivity
    | intros H; vm_compute in H; discriminate H ].
Defined.

(** C2 as stated fails, in two ways.  The public address is a key of the
    directive and not of the update map, and its entry is rewritten all
    the same.  And a key the map does not name loses its original
    quoting when its value holds a space or a parenthesis: the server
    name and the rate below come back wrapped in double quotes. *)
Lemma public_address_is_rewritten :
  (contains_key (lit "PublicIP") rcon_update = false
   /\ well_formed_document address_doc
   /\ merge address address_doc rcon_update
      = Some [header;
              directive [(lit "Difficulty", lit "None");
                         (lit "PublicIP", dq :: address ++ [dq]);
                         (lit "RCONEnabled", lit "True")] [newline]]
   /\ render (lit "PublicIP", dq :: address ++ [dq])
      <> render (lit "PublicIP", [dq; dq]))
  /\ (contains_key (lit "ServerName") rcon_update = false
      /\ contains_key (lit "DayTimeSpeedRate") rcon_update = false
      /\ merge address
           [header;
            directive [(lit "ServerName", lit "My Server");
                       (lit "DayTimeSpeedRate", lit "(1)");
                       (lit "Difficulty", lit "None")] [newline]]
           rcon_update
         = Some [header;
                 directive [(lit "ServerName", dq :: lit "My Server" ++ [dq]);
                            (lit "DayTimeSpeedRate", dq :: lit "(1)" ++ [dq]);
                            (lit "Difficulty", lit "None");
                            (lit "RCONEnabled", lit "True");
                            (lit "PublicIP", dq :: address ++ [dq])]
                           [newline]]
      /\ render (lit "ServerName", dq :: lit "My Server" ++ [dq])
         <> render (lit "ServerName", lit "My Server")).
Proof.
  split.
  - split; [ reflexivity | ].
    split; [ exact address_doc_well_formed | ].
    split; [ vm_compute; reflexivity | ].
    intros H. vm_compute in H. discriminate H.
  - split; [ reflexivity | ]. split; [ reflexivity | ].
    split; [ vm_compute; reflexivity | ].
    intros H. vm_compute in H. discriminate H.
Qed.

(** X3: an entry of a directive with readable entries whose key is in the
    update map (other than the two keys the call assigns itself) keeps
    its place and takes the value of the map, passed through the quoting
    rule.  The rewritten line is given in full, so the place is the place
    among the entries of that line. *)
Theorem updated_key_takes_the_new_value (ip : str) (updates u : dict)
  (doc doc' : list str) (n : nat) (es : list (str * str)) (rest : str)
  (i : nat) (k v x : str) :
  merge ip doc updates = Some doc' ->
  effective ip updates = Some u -> NoDup (keys updates) ->
  nth_error doc n = Some (directive es rest) ->
  forallb readable_entry es = true -> contains rparen rest = false ->
  nth_error es i = Some (k, v) ->
  get k updates = Some x ->
  k <> lit "PublicIP" -> k <> lit "RCONEnabled" ->
  nth_error doc' n = Some (directive (merged_entries u es) [newline])
  /\ nth_error (merged_entries u es) i = Some (k, quote_value_if_needed x)
  /\ firstn i (merged_entries u es) = map (emit u) (firstn i es).
Proof.
  intros M He Hd Hn Hes Hrest Hi Hg H1 H2.
  assert (es <> []) as Hnil by (intros ->; destruct i; discriminate).
  assert (i < List.length es) as Hlt by (apply nth_error_Some; congruence).
  split; [ now apply merged_line with (ip := ip) (updates := updates)
                                      (doc := doc) (rest := rest) | ].
  unfold merged_entries. split.
  - rewrite nth_error_app1 by (now rewrite length_map).
    rewrite nth_error_map, Hi. cbn [option_map]. unfold emit. cbn [fst snd].
    now rewrite (effective_other _ _ _ _ He H1 H2), Hg.
  - rewrite firstn_app, length_map.
    replace (i - List.length es) with 0 by lia.
    cbn [firstn]. now rewrite app_nil_r, firstn_map.
Qed.

Lemma updated_key_takes_the_new_value_witness :
  nth_error [header;
             directive [(lit "ServerName", dq :: lit "My server" ++ [dq]);
                        (lit "PublicIP", dq :: address ++ [dq]);
                        (lit "RCONEnabled", lit "True")] [newline]] 1
  = Some (directive
            (merged_entries
               [(lit "RCONEnabled", lit "True");
                (lit "ServerName", lit "My server");
                (lit "PublicIP", dq :: address ++ [dq])]
               [(lit "ServerName", lit "Default");
                (lit "PublicIP", [dq; dq]);
                (lit "RCONEnabled", lit "False")]) [newline])
  /\ nth_error
       (merged_entries
          [(lit "RCONEnabled", lit "True");
           (lit "ServerName", lit "My server");
           (lit "PublicIP", dq :: address ++ [dq])]
          [(lit "ServerName", lit "Default");
           (lit "PublicIP", [dq; dq]);
           (lit "RCONEnabled", lit "False")]) 0
     = Some (lit "ServerName", quote_value_if_needed (lit "My server"))
  /\ firstn 0
       (merged_entries
          [(lit "RCONEnabled", lit "True");
           (lit "ServerName", lit "My server");
           (lit "PublicIP", dq :: address ++ [dq])]
          [(lit "ServerName", lit "Default");
           (lit "PublicIP", [dq; dq]);
           (lit "RCONEnabled", lit "False")])
     = map (emit [(lit "RCONEnabled", lit "True");
                  (lit "ServerName", lit "My server");
                  (lit "PublicIP", dq :: address ++ [dq])])
           (firstn 0 [(lit "ServerName", lit "Default");
                      (lit "PublicIP", [dq; dq]);
                      (lit "RCONEnabled", lit "False")]).
Proof.
  apply (updated_key_takes_the_new_value address
           [(lit "RCONEnabled", lit "true");
            (lit "ServerName", lit "My server")]
           [(lit "RCONEnabled", lit "True");
            (lit "ServerName", lit "My server");
            (lit "PublicIP", dq :: address ++ [dq])]
           [header;
            directive [(lit "ServerName", lit "Default");
                       (lit "PublicIP", [dq; dq]);
                       (lit "RCONEnabled", lit "False")] [newline]]
           [header;
            directive [(lit "ServerName", dq :: lit "My server" ++ [dq]);
                       (lit "PublicIP", dq :: address ++ [dq]);
                       (lit "RCONEnabled", lit "True")] [newline]]
           1
           [(lit "ServerName", lit "Default"); (lit "PublicIP", [dq; dq]);
            (lit "RCONEnabled", lit "False")] [newline] 0
           (lit "ServerName") (lit "Default") (lit "My server"));
    [ vm_compute; reflexivity | reflexivity
    | repeat constructor; simpl; intuition discriminate
    | reflexivity | reflexivity | reflexivity | reflexivity | reflexivity
    | intros H; vm_compute in H; discriminate H
    | intros H; vm_compute in H; discriminate H ].
Defined.

(** X4: the line that replaces a directive with readable entries holds
    the entries that were there, with their keys and in their order, and
    after them the keys of the update map that the directive does not
    hold, in the order of the map, each with its value passed through the
    quoting rule; nothing else. *)
Theorem new_keys_are_appended_in_map_order (ip : str) (updates u : dict)
  (doc doc' : list str) (n : nat) (es : list (str * str)) (rest : str) :
  merge ip doc updates = Some doc' ->
  effective ip updates = Some u -> NoDup (keys updates) ->
  nth_error doc n = Some (directive es rest) ->
  es <> [] -> forallb readable_entry es = true ->
  contains rparen rest = false ->
  nth_error doc' n
  = Some (directive
            (map (emit u) es
             ++ map appended
                  (filter (fun kv =>
                             negb (existsb (str_eqb (fst kv)) (map fst es)))
                          u))
            [newline])
  /\ map fst (map (emit u) es) = map fst es
  /\ forall kv,
       In kv (filter (fun kv => negb (existsb (str_eqb (fst kv)) (map fst es)))
                     u) ->
       ~ In (fst kv) (map fst es) /\ get (fst kv) u = Some (snd kv).
Proof.
  intros M He Hd Hline Hnil Hes Hrest.
  split; [ exact (merged_line _ _ _ _ _ _ _ _ M He Hd Hline Hnil Hes Hrest) | ].
  split; [ rewrite map_map; reflexivity | ].
  intros [ k x ] Hin. apply filter_In in Hin. destruct Hin as [ Hin Hex ].
  cbn [fst snd] in *. split.
  - intros Hk. apply negb_true_iff in Hex.
    assert (existsb (str_eqb k) (map fst es) = true) as Hex';
      [ | congruence ].
    apply existsb_exists. exists k. split; [ assumption | apply str_eqb_refl ].
  - apply get_In; [ | assumption ].
    now apply effective_NoDup with (ip := ip) (updates := updates).
Qed.

Lemma new_keys_are_appended_in_map_order_witness :
  nth_error address_doc_merged 1
  = Some (directive
            (map (emit [(lit "RCONEnabled", lit "True");
                        (lit "AdminPassword", dq :: lit "admin" ++ [dq]);
                        (lit "bShowPlayerList", lit "False");
                        (lit "PublicIP", dq :: address ++ [dq])])
                 [(lit "Difficulty", lit "None"); (lit "PublicIP", [dq; dq]);
                  (lit "RCONEnabled", lit "False")]
             ++ map appended
                  (filter (fun kv =>
                             negb (existsb (str_eqb (fst kv))
                                     (map fst
                                        [(lit "Difficulty", lit "None");
                                         (lit "PublicIP", [dq; dq]);
                                         (lit "RCONEnabled", lit "False")])))
                          [(lit "RCONEnabled", lit "True");
                           (lit "AdminPassword", dq :: lit "admin" ++ [dq]);
                           (lit "bShowPlayerList", lit "False");
                           (lit "PublicIP", dq :: address ++ [dq])]))
            [newline])
  /\ map fst
       (map (emit [(lit "RCONEnabled", lit "True");
                   (lit "AdminPassword", dq :: lit "admin" ++ [dq]);
                   (lit "bShowPlayerList", lit "False");
                   (lit "PublicIP", dq :: address ++ [dq])])
            [(lit "Difficulty", lit "None"); (lit "PublicIP", [dq; dq]);
             (lit "RCONEnabled", lit "False")])
     = map fst [(lit "Difficulty", lit "None"); (lit "PublicIP", [dq; dq]);
                (lit "RCONEnabled", lit "False")]
  /\ forall kv,
       In kv (filter (fun kv =>
                        negb (existsb (str_eqb (fst kv))
                                (map fst
                                   [(lit "Difficulty", lit "None");
                                    (lit "PublicIP", [dq; dq]);
                                    (lit "RCONEnabled", lit "False")])))
                     [(lit "RCONEnabled", lit "True");
                      (lit "AdminPassword", dq :: lit "admin" ++ [dq]);
                      (lit "bShowPlayerList", lit "False");
                      (lit "PublicIP", dq :: address ++ [dq])]) ->
       ~ In (fst kv)
            (map fst [(lit "Difficulty", lit "None");
                      (lit "PublicIP", [dq; dq]);
                      (lit "RCONEnabled", lit "False")])
       /\ get (fst kv)
              [(lit "RCONEnabled", lit "True");
               (lit "AdminPassword", dq :: lit "admin" ++ [dq]);
               (lit "bShowPlayerList", lit "False");
               (lit "PublicIP", dq :: address ++ [dq])]
          = Some (snd kv).
Proof.
  apply (new_keys_are_appended_in_map_order address first_run_settings
           [(lit "RCONEnabled", lit "True");
            (lit "AdminPassword", dq :: lit "admin" ++ [dq]);
            (lit "bShowPlayerList", lit "False");
            (lit "PublicIP", dq :: address ++ [dq])]
           address_doc address_doc_merged 1
           [(lit "Difficulty", lit "None"); (lit "PublicIP", [dq; dq]);
            (lit "RCONEnabled", lit "False")] [newline]);
    [ vm_compute; reflexivity | reflexivity
    | exact (proj1 first_run_settings_valid)
    | reflexivity | discriminate | reflexivity | reflexivity ].
Defined.

(** Once a key has been popped, a second entry with that key makes the
    loop raise. *)
Lemma pop_all_absent (u d : dict) (ks : list str) (k : str) :
  NoDup (keys d) -> ~ In k (keys d) -> In k ks -> get k u <> None ->
  pop_all u d ks = None.
Proof.
  revert d. induction ks as [ | k' ks IH ]; simpl; intros d Hn Hk Hin Hg;
    [ contradiction | ].
  destruct (get k' u) eqn:G.
  - destruct (pop k' d) as [ r | ] eqn:P; [ | reflexivity ].
    destruct Hin as [ -> | Hin ].
    + rewrite (pop_absent _ _ Hk) in P. discriminate.
    + apply IH; try assumption.
      * now apply (pop_NoDup _ _ _ Hn P).
      * intros H. apply Hk. rewrite (pop_filter _ _ _ Hn P) in H.
        now apply keys_filter in H.
  - destruct Hin as [ -> | Hin ]; [ congruence | ]. now apply IH.
Qed.

Lemma pop_all_twice (u : dict) (l1 l2 l3 : list str) (k : str) :
  NoDup (keys u) -> get k u <> None ->
  pop_all u u (l1 ++ k :: l2 ++ k :: l3) = None.
Proof.
  intros Hn Hg. rewrite pop_all_app.
  destruct (pop_all u u l1) as [ r | ] eqn:P1; [ | reflexivity ].
  pose proof (pop_all_NoDup _ _ _ _ Hn P1) as Hr.
  cbn [pop_all]. destruct (get k u) eqn:G; [ | congruence ].
  destruct (pop k r) as [ r' | ] eqn:P2; [ | reflexivity ].
  destruct (pop_NoDup _ _ _ Hr P2) as [ Hn' Hk ].
  apply pop_all_absent with (k := k); try assumption.
  - apply in_or_app. right. now left.
  - congruence.
Qed.

Lemma effective_keeps (ip : str) (updates u : dict) (k x : str) :
  effective ip updates = Some u -> get k updates = Some x ->
  get k u <> None.
Proof.
  intros He Hg. unfold effective, normalise_rcon in He.
  assert (forall k' v d, get k d <> None -> get k (set k' v d) <> None)
    as Hs.
  { intros k' v d H. rewrite get_set. destruct (str_eqb k k'); congruence. }
  destruct (get (lit "RCONEnabled") _) as [ v | ]; [ | discriminate ].
  destruct (str_eqb v (lit "true")); [ | destruct (str_eqb v (lit "false")) ];
    injection He as <-; repeat apply Hs; congruence.
Qed.

(** X5: a well-formed directive that holds a key of the update map twice
    makes the call fail: the second [pop] raises [KeyError], the call
    returns an error result and writes nothing. *)
Theorem duplicated_key_fails (ip : str) (updates : dict) (doc : list str)
  (n : nat) (es1 es2 es3 : list (str * str)) (k v1 v2 x rest : str) :
  truthy ip = true -> NoDup (keys updates) ->
  contains_key (lit "RCONEnabled") updates = true ->
  get k updates = Some x ->
  nth_error doc n
  = Some (directive (es1 ++ (k, v1) :: es2 ++ (k, v2) :: es3) rest) ->
  forallb well_formed_entry (es1 ++ (k, v1) :: es2 ++ (k, v2) :: es3)
  = true ->
  contains rparen rest = false ->
  rewrite_line (settings_after
                  (update_palworld_settings_ini (Some ip) (Lines doc) updates))
               (directive (es1 ++ (k, v1) :: es2 ++ (k, v2) :: es3) rest)
  = LineRaise KeyError
  /\ written (update_palworld_settings_ini (Some ip) (Lines doc) updates)
     = None
  /\ exists r,
      ending (update_palworld_settings_ini (Some ip) (Lines doc) updates)
      = Returned r
      /\ is_error r = true.
Proof.
  intros T Hn Hk Hg Hline Hes Hrest. rewrite (update_unfold _ _ _ T).
  destruct (effective_some ip _ Hk) as [ u He ]. rewrite He.
  set (es := es1 ++ (k, v1) :: es2 ++ (k, v2) :: es3) in *.
  assert (es <> []) as Hnil by (unfold es; destruct es1; discriminate).
  assert (rewrite_line u (directive es rest) = LineRaise KeyError) as Hraise.
  { rewrite (rewrite_line_directive _ _ _ Hnil Hes Hrest).
    unfold es. rewrite map_app. cbn [map fst]. rewrite map_app. cbn [map fst].
    rewrite pop_all_twice; [ reflexivity | | ].
    - now apply effective_NoDup with (ip := ip) (updates := updates).
    - now apply effective_keeps with (ip := ip) (updates := updates) (x := x). }
  pose proof (rewrite_lines_stop u doc) as S.
  destruct (rewrite_lines u doc) as [ ls | r | e ] eqn:R;
    cbn [settings_after written ending].
  - exfalso. apply rewrite_lines_done in R.
    destruct (Forall2_nth_error _ _ _ _ _ _ _ R Hline) as (line' & _ & Hl).
    unfold rewritten in Hl. rewrite directive_startswith in Hl. congruence.
  - subst r. split; [ assumption | ]. split; [ reflexivity | ].
    eexists. split; reflexivity.
  - split; [ assumption | ]. split; [ reflexivity | ].
    eexists. split; reflexivity.
Qed.

Lemma duplicated_key_fails_witness :
  rewrite_line (settings_after
                  (update_palworld_settings_ini (Some address)
                     (Lines [header;
                             directive [(lit "DayTimeSpeedRate", lit "1.0");
                                        (lit "RCONEnabled", lit "False");
                                        (lit "RCONEnabled", lit "True")]
                                       [newline]])
                     rcon_update))
               (directive [(lit "DayTimeSpeedRate", lit "1.0");
                           (lit "RCONEnabled", lit "False");
                           (lit "RCONEnabled", lit "True")] [newline])
  = LineRaise KeyError
  /\ written (update_palworld_settings_ini (Some address)
                (Lines [header;
                        directive [(lit "DayTimeSpeedRate", lit "1.0");
                                   (lit "RCONEnabled", lit "False");
                                   (lit "RCONEnabled", lit "True")]
                                  [newline]])
                rcon_update)
     = None
  /\ exists r,
      ending (update_palworld_settings_ini (Some address)
                (Lines [header;
                        directive [(lit "DayTimeSpeedRate", lit "1.0");
                                   (lit "RCONEnabled", lit "False");
                                   (lit "RCONEnabled", lit "True")]
                                  [newline]])
                rcon_update)
      = Returned r
      /\ is_error r = true.
Proof.
  apply (duplicated_key_fails address rcon_update _ 1
           [(lit "DayTimeSpeedRate", lit "1.0")] [] []
           (lit "RCONEnabled") (lit "False") (lit "True") (lit "true")
           [newline]);
    try reflexivity.
  repeat constructor. simpl. tauto.
Defined.



(** * Further properties of the backup manager *)

Lemma fold_rmtree_sub (victims : list str) (e : entry) (root : list entry) :
  In e (fold_left (fun r f => rmtree f r) victims root) -> In e root.
Proof.
  revert root. induction victims as [ | f victims IH ]; intros root; simpl;
    [ tauto | ].
  intros H. apply IH in H. unfold rmtree in H. apply filter_In in H. tauto.
Qed.

(** X7: the pruning step of the current copy only deletes: what it
    leaves was there before, and an entry whose name does not carry the
    tag is never deleted, whatever the count. *)
Theorem prune_only_deletes_tagged_folders (n : Z) (root : list entry)
  (e : entry) :
  In e root -> tagged (name e) = false ->
  In e (prune n root)
  /\ forall e', In e' (prune n root) -> In e' root.
Proof.
  intros Hin Hun. split; [ now apply prune_keeps_untagged | ].
  intros e'. unfold prune.
  destruct (n >? 0)%Z; [ | tauto ].
  destruct (_ >? n)%Z; [ | tauto ].
  apply fold_rmtree_sub.
Qed.

Lemma prune_only_deletes_tagged_folders_witness :
  In (folder "2024-02-01_10-00-00") (prune 1 one_tagged)
  /\ forall e', In e' (prune 1 one_tagged) -> In e' one_tagged.
Proof.
  apply (prune_only_deletes_tagged_folders 1 one_tagged
           (folder "2024-02-01_10-00-00"));
    [ simpl; tauto | reflexivity ].
Defined.

(** X8: the retention bound of the current copy.  In a backup root whose
    entries have distinct names, pruning with a positive count [n] leaves
    the minimum of [n] and the former number of tagged folders, and every
    tagged folder it deleted is below every tagged folder it left. *)
Theorem prune_retention (n : Z) (root : list entry) :
  NoDup (map name root) -> (0 < n)%Z ->
  tagged_count (prune n root) = Nat.min (Z.to_nat n) (tagged_count root)
  /\ forall v s,
      In v (tagged_folders root) ->
      ~ In v (tagged_folders (prune n root)) ->
      In s (tagged_folders (prune n root)) ->
      str_le v s.
Proof.
  intros Hd Hn. split; [ now apply prune_retention_bound | ].
  intros v s. unfold tagged_folders at 2 3.
  now apply prune_keeps_the_largest.
Qed.

Lemma prune_retention_witness :
  tagged_count
    (prune 2 [folder "2024-01-01_10-00-00-AutoBackup";
              folder "2024-01-03_10-00-00-AutoBackup";
              folder "2024-01-02_10-00-00";
              folder "2024-01-02_10-00-00-AutoBackup"])
  = Nat.min (Z.to_nat 2)
      (tagged_count [folder "2024-01-01_10-00-00-AutoBackup";
                     folder "2024-01-03_10-00-00-AutoBackup";
                     folder "2024-01-02_10-00-00";
                     folder "2024-01-02_10-00-00-AutoBackup"])
  /\ forall v s,
      In v (tagged_folders [folder "2024-01-01_10-00-00-AutoBackup";
                            folder "2024-01-03_10-00-00-AutoBackup";
                            folder "2024-01-02_10-00-00";
                            folder "2024-01-02_10-00-00-AutoBackup"]) ->
      ~ In v (tagged_folders
                (prune 2 [folder "2024-01-01_10-00-00-AutoBackup";
                          folder "2024-01-03_10-00-00-AutoBackup";
                          folder "2024-01-02_10-00-00";
                          folder "2024-01-02_10-00-00-AutoBackup"])) ->
      In s (tagged_folders
              (prune 2 [folder "2024-01-01_10-00-00-AutoBackup";
                        folder "2024-01-03_10-00-00-AutoBackup";
                        folder "2024-01-02_10-00-00";
                        folder "2024-01-02_10-00-00-AutoBackup"])) ->
      str_le v s.
Proof.
  apply (prune_retention 2 [folder "2024-01-01_10-00-00-AutoBackup";
                            folder "2024-01-03_10-00-00-AutoBackup";
                            folder "2024-01-02_10-00-00";
                            folder "2024-01-02_10-00-00-AutoBackup"]);
    [ | lia ].
  repeat constructor; simpl; intuition discriminate.
Defined.

Lemma copytree_keeps (f : str) (listing : list str) (e : entry)
  (root : list entry) :
  name e <> f -> In e root -> In e (copytree f listing root).
Proof.
  intros Hne Hin. unfold copytree. apply str_eqb_neq in Hne.
  destruct (existsb _ root).
  - apply in_map_iff. exists e. now rewrite Hne.
  - apply in_or_app. now left.
Qed.

Lemma leave_keeps (f : str) (partial : option (list str)) (e : entry)
  (root : list entry) :
  name e <> f -> In e root -> In e (leave f partial root).
Proof.
  intros Hne Hin. unfold leave. apply str_eqb_neq in Hne.
  destruct (existsb _ root).
  - apply in_map_iff. exists e. now rewrite Hne.
  - apply in_or_app. now left.
Qed.

Lemma rmtree_saved_keeps (f : str) (e : entry) (root : list entry) :
  name e <> f -> In e root -> In e (rmtree_saved f root).
Proof.
  intros Hne Hin. unfold rmtree_saved. apply str_eqb_neq in Hne.
  apply in_map_iff. exists e. now rewrite Hne.
Qed.

Lemma saved_exists_false (f : str) (e : entry) (root : list entry) :
  saved_exists f root = false -> In e root -> saved e <> None ->
  name e <> f.
Proof.
  unfold saved_exists. intros H Hin Hs E.
  assert (existsb (fun e => str_eqb (name e) f
                            && match saved e with
                               | Some _ => true
                               | None => false
                               end) root = true) as H'.
  { apply existsb_exists. exists e. split; [ assumption | ].
    rewrite E, str_eqb_refl. destruct (saved e); [ reflexivity | congruence ]. }
  congruence.
Qed.

(** X9: a backup that holds data and whose name does not carry the tag
    survives every later call of [backup_server] unchanged, whatever the
    query, the time stamp and the outcome of the copy. *)
Theorem stored_backups_survive (q : query) (timestamp : str)
  (data_contents : list str) (copy : copy_outcome) (root : list entry)
  (e : entry) :
  In e root -> tagged (name e) = false -> saved e <> None ->
  In e (snd (backup_server q timestamp data_contents copy root)).
Proof.
  intros Hin Hun Hs. unfold backup_server.
  destruct (backup_type q) as [ ty | ]; [ | assumption ].
  set (f := backup_folder_name timestamp ty).
  destruct (saved_exists f root) eqn:E; [ assumption | ].
  pose proof (saved_exists_false _ _ _ E Hin Hs) as Hne.
  destruct copy as [ [ partial | ] | backup_contents ];
    [ now apply leave_keeps | assumption | ].
  pose proof (copytree_keeps f backup_contents _ _ Hne Hin) as H1.
  destruct (list_eq_dec (list_eq_dec ascii_dec) data_contents backup_contents)
    as [ Heq | Hdiff ].
  - destruct (backup_count q) as [ n | ]; [ | assumption ].
    now apply prune_keeps_untagged.
  - assert (In e (if saved_exists f (copytree f backup_contents root)
                  then rmtree_saved f (copytree f backup_contents root)
                  else copytree f backup_contents root)) as H2.
    { destruct (saved_exists f (copytree f backup_contents root));
        [ now apply rmtree_saved_keeps | assumption ]. }
    destruct (backup_count q) as [ n | ]; [ | assumption ].
    now apply prune_keeps_untagged.
Qed.

Lemma stored_backups_survive_witness :
  In (folder "2024-02-01_10-00-00")
     (snd (backup_server (mk_query (Some (lit "auto")) (Some 1%Z)) stamp
             [lit "SaveGames"] (Copied [lit "SaveGames"]) one_tagged)).
Proof.
  apply (stored_backups_survive (mk_query (Some (lit "auto")) (Some 1%Z))
           stamp [lit "SaveGames"] (Copied [lit "SaveGames"]) one_tagged
           (folder "2024-02-01_10-00-00"));
    [ simpl; tauto | reflexivity | discriminate ].
Defined.

Lemma contains_sub_app (p a b : str) : contains_sub p (a ++ p ++ b) = true.
Proof.
  induction a as [ | c a IH ]; cbn [app].
  - destruct (p ++ b) as [ | c s ] eqn:E.
    + destruct p; [ reflexivity | discriminate ].
    + cbn [contains_sub]. rewrite <- E, startswith_app. reflexivity.
  - cbn [contains_sub]. rewrite IH. apply orb_true_r.
Qed.

Lemma tagged_count_new (f : str) (listing : list str) (root : list entry) :
  tagged f = true ->
  tagged_count (root ++ [mk_entry f true (Some listing)])
  = S (tagged_count root).
Proof.
  intros H. unfold tagged_count, backup_folders.
  rewrite filter_app, map_app, filter_app, length_app. cbn [filter is_dir map name].
  rewrite H. simpl. lia.
Qed.

Lemma saved_exists_new (f : str) (root : list entry) :
  existsb (fun e => str_eqb (name e) f) root = false ->
  saved_exists f root = false.
Proof.
  unfold saved_exists. induction root as [ | e r IH ]; simpl;
    [ reflexivity | ].
  intros H. apply orb_false_iff in H. destruct H as [ H1 H2 ].
  now rewrite H1, (IH H2).
Qed.

(** X10: every backup type other than [manual], [launch] and [firstrun]
    is an automatic one.  When its folder is new, the copy is complete
    and the count [n] is positive, the call reports success and leaves the
    minimum of [n] and one more than the former number of tagged
    folders. *)
Theorem automatic_backup_retention (q : query) (timestamp ty : str) (n : Z)
  (listing : list str) (root : list entry) :
  backup_type q = Some ty -> backup_count q = Some n -> (0 < n)%Z ->
  ty <> lit "manual" -> ty <> lit "launch" -> ty <> lit "firstrun" ->
  NoDup (map name root) ->
  ~ In (timestamp ++ lit "-AutoBackup") (map name root) ->
  fst (backup_server q timestamp listing (Copied listing) root)
  = success "Server data backed up successfully"
  /\ tagged_count
       (snd (backup_server q timestamp listing (Copied listing) root))
     = Nat.min (Z.to_nat n) (S (tagged_count root)).
Proof.
  intros Hty Hc Hn H1 H2 H3 Hd Hnew. unfold backup_server.
  rewrite Hty, Hc. unfold backup_folder_name.
  apply str_eqb_neq in H1. apply str_eqb_neq in H2. apply str_eqb_neq in H3.
  rewrite H1, H2, H3.
  set (f := timestamp ++ lit "-AutoBackup") in *.
  assert (existsb (fun e => str_eqb (name e) f) root = false) as Hex.
  { destruct (existsb _ root) eqn:E; [ | reflexivity ].
    apply existsb_exists in E. destruct E as (e & He & Hf).
    apply str_eqb_eq in Hf. exfalso. apply Hnew. rewrite <- Hf.
    now apply in_map. }
  rewrite (saved_exists_new _ _ Hex).
  unfold copytree. rewrite Hex.
  destruct (list_eq_dec (list_eq_dec ascii_dec) listing listing)
    as [ _ | N ]; [ | congruence ].
  cbn [fst snd]. split; [ reflexivity | ].
  assert (tagged f = true) as Ht.
  { unfold tagged, f, auto_tag.
    change (lit "-AutoBackup") with ([ "-"%char ] ++ lit "AutoBackup" ++ []).
    rewrite app_assoc. apply contains_sub_app. }
  rewrite prune_retention_bound; [ | | assumption ].
  - now rewrite tagged_count_new.
  - rewrite map_app. cbn [map name].
    apply NoDup_app; [ assumption | repeat constructor; simpl; tauto | ].
    intros x Hx [ <- | [] ]. contradiction.
Qed.

Lemma automatic_backup_retention_witness :
  fst (backup_server (mk_query (Some (lit "auto")) (Some 1%Z)) stamp
         [lit "SaveGames"] (Copied [lit "SaveGames"]) one_tagged)
  = success "Server data backed up successfully"
  /\ tagged_count
       (snd (backup_server (mk_query (Some (lit "auto")) (Some 1%Z)) stamp
               [lit "SaveGames"] (Copied [lit "SaveGames"]) one_tagged))
     = Nat.min (Z.to_nat 1) (S (tagged_count one_tagged)).
Proof.
  apply (automatic_backup_retention
           (mk_query (Some (lit "auto")) (Some 1%Z)) stamp (lit "auto") 1
           [lit "SaveGames"] one_tagged);
    try reflexivity; try lia; try discriminate.
  - repeat constructor; simpl; intuition discriminate.
  - simpl. intuition discriminate.
Defined.

(** * Further properties of the process locator *)

Section Attaching.

Variable o : os.
Variable max_attempts : nat.
Variable run : nat -> lookup.

Lemma count_attempt_attaches (l1 : locating) :
  attached_if_set l1 -> round_attaches (count_attempt max_attempts l1).
Proof.
  intros H. unfold count_attempt.
  destruct (max_attempts <? S (attempts l1)); [ reflexivity | exact H ].
Qed.

Lemma unset_attaches (sv : localserver) (r : result) (l : locating) :
  pid_truthy (pid sv) = false -> attached_if_set (update sv r l).
Proof. intros H H'. simpl in H'. congruence. Qed.

Lemma round_attaching (l : locating) :
  pid_truthy (pid (server l)) = false ->
  round_attaches
    (if is_windows o then windows_round max_attempts (run (lookups l)) l
     else pgrep_round max_attempts (run (lookups l)) l).
Proof.
  intros Hp. destruct (is_windows o).
  - unfold windows_round. destruct (run (lookups l)) as [ text | stdout | ].
    + apply count_attempt_attaches. now apply unset_attaches.
    + destruct (truthy stdout);
        [ | apply count_attempt_attaches; intros H; simpl in H; congruence ].
      destruct (use_get_counters (server (with_lookup l))).
      * destruct (split comma (strip stdout)) as [ | a [ | b [ | c t ] ] ];
          try exact I.
        destruct (truthy a) eqn:Ea.
        -- exists a. repeat split. exact Ea.
        -- apply count_attempt_attaches. now apply unset_attaches.
      * destruct (truthy (strip stdout)) eqn:Ea.
        -- exists (strip stdout). repeat split. exact Ea.
        -- apply count_attempt_attaches. now apply unset_attaches.
    + exact I.
  - unfold pgrep_round. destruct (run (lookups l)) as [ text | stdout | ].
    + apply count_attempt_attaches. now apply unset_attaches.
    + destruct (truthy stdout);
        [ | apply count_attempt_attaches; intros H; simpl in H; congruence ].
      destruct (split newline (strip stdout)) as [ | p t ].
      * apply count_attempt_attaches. now apply unset_attaches.
      * apply count_attempt_attaches. intros H. exists p. repeat split.
        exact H.
    + exact I.
Qed.

Lemma locate_loop_attaches (fuel : nat) (l : locating) (r : round) :
  attached_if_set l ->
  locate_loop fuel o max_attempts run l = Some r ->
  match r with
  | Return l' => attached l'
  | Break l' => attached l' \/ res l' = exhausted
  | Continue _ => False
  | Raise _ _ => True
  end.
Proof.
  revert l. induction fuel as [ | fuel IH ]; intros l J; simpl.
  - destruct (pid_truthy (pid (server l))) eqn:E; [ | discriminate ].
    intros [= <-]. left. now apply J.
  - destruct (pid_truthy (pid (server l))) eqn:E.
    + intros [= <-]. left. now apply J.
    + pose proof (round_attaching l E) as F.
      destruct (if is_windows o then _ else _) as [ l' | l' | l' | e l' ];
        simpl in F.
      * now intros [= <-].
      * intros [= <-]. now right.
      * now apply IH.
      * now intros [= <-].
Qed.

Lemma count_attempt_expectation (l l1 : locating) :
  expected_to_be_running (server l1) = expected_to_be_running (server l) ->
  same_expectation l (count_attempt max_attempts l1).
Proof.
  intros H. unfold count_attempt.
  destruct (max_attempts <? S (attempts l1)); exact H.
Qed.

Lemma round_expectation (l : locating) :
  same_expectation l
    (if is_windows o then windows_round max_attempts (run (lookups l)) l
     else pgrep_round max_attempts (run (lookups l)) l).
Proof.
  destruct (is_windows o).
  - unfold windows_round. destruct (run (lookups l)) as [ text | stdout | ].
    + now apply count_attempt_expectation.
    + destruct (truthy stdout); [ | now apply count_attempt_expectation ].
      destruct (use_get_counters (server (with_lookup l))).
      * destruct (split comma (strip stdout)) as [ | a [ | b [ | c t ] ] ];
          try reflexivity.
        destruct (truthy a);
          [ reflexivity | now apply count_attempt_expectation ].
      * destruct (truthy (strip stdout));
          [ reflexivity | now apply count_attempt_expectation ].
    + reflexivity.
  - unfold pgrep_round. destruct (run (lookups l)) as [ text | stdout | ].
    + now apply count_attempt_expectation.
    + destruct (truthy stdout); [ | now apply count_attempt_expectation ].
      destruct (split newline (strip stdout));
        now apply count_attempt_expectation.
    + reflexivity.
Qed.

Lemma locate_loop_expectation (fuel : nat) (l : locating) (r : round) :
  locate_loop fuel o max_attempts run l = Some r -> same_expectation l r.
Proof.
  revert l. induction fuel as [ | fuel IH ]; intros l; simpl.
  - destruct (pid_truthy (pid (server l))); [ | discriminate ].
    now intros [= <-].
  - destruct (pid_truthy (pid (server l))); [ now intros [= <-] | ].
    pose proof (round_expectation l) as F.
    destruct (if is_windows o then _ else _) as [ l' | l' | l' | e l' ];
      simpl in F; try (now intros [= <-]).
    intros H. apply IH in H. destruct r; simpl in *; congruence.
Qed.

(** The counters of a call: lookups and sleeps stay within the budget. *)
Lemma locate_loop_counters (fuel : nat) (l : locating) (r : round) :
  attempts l <= max_attempts -> lookups l = attempts l ->
  sleeps l = attempts l ->
  pid_truthy (pid (server l)) = false ->
  locate_loop fuel o max_attempts run l = Some r ->
  match r with
  | Return l' | Break l' | Raise _ l' =>
      lookups l < lookups l' /\ lookups l' <= S max_attempts
      /\ sleeps l' <= max_attempts /\ sleeps l' <= lookups l'
  | Continue _ => False
  end.
Proof.
  revert l. induction fuel as [ | fuel IH ]; intros l Hle Hl Hs Hp; simpl;
    rewrite Hp; [ discriminate | ].
  pose proof (any_round_facts o max_attempts run l) as F.
  destruct (if is_windows o then _ else _) as [ l' | l' | l' | e l' ];
    simpl in F.
  - intros [= <-]. lia.
  - intros [= <-]. lia.
  - destruct F as (F1 & F2 & F3 & F4).
    destruct fuel as [ | fuel' ]; simpl.
    + destruct (pid_truthy (pid (server l'))); [ | discriminate ].
      intros [= <-]. lia.
    + destruct (pid_truthy (pid (server l'))) eqn:E.
      * intros [= <-]. lia.
      * intros H.
        assert (locate_loop (S fuel') o max_attempts run l' = Some r) as H'
          by (simpl; now rewrite E).
        apply IH in H'; try lia; [ | assumption ].
        destruct r; try lia; exact H'.
  - intros [= <-]. lia.
Qed.

(** Off Windows, rounds whose lookup finds nothing only count, and
    leave the server record alone. *)
Lemma fruitless_rounds (k fuel : nat) (l : locating) :
  is_windows o = false -> pid_truthy (pid (server l)) = false ->
  (forall n, lookups l <= n < lookups l + k -> fruitless (run n) = true) ->
  attempts l + k <= max_attempts ->
  exists r,
    locate_loop (k + fuel) o max_attempts run l
    = locate_loop fuel o max_attempts run
        (mk_locating (server l) r (attempts l + k) (lookups l + k)
                     (sleeps l + k)).
Proof.
  intros Ho. revert l. induction k as [ | k IH ]; intros l Hp Hrun Hle.
  - exists (res l). destruct l. cbn [server res attempts lookups sleeps plus].
    now rewrite !Nat.add_0_r.
  - cbn [plus locate_loop]. rewrite Hp, Ho.
    assert (exists r,
               pgrep_round max_attempts (run (lookups l)) l
               = Continue (mk_locating (server l) r (S (attempts l))
                             (S (lookups l)) (S (sleeps l))))
      as [ r -> ].
    { pose proof (Hrun (lookups l)) as F.
      unfold pgrep_round, count_attempt.
      cbn [update with_lookup server res attempts lookups sleeps].
      destruct (Nat.ltb_spec max_attempts (S (attempts l))); [ lia | ].
      destruct (run (lookups l)) as [ text | stdout | ]; cbn [fruitless] in F.
      - eauto.
      - destruct (truthy stdout); [ | eauto ].
        cbn [negb] in F. assert (false = true) by (apply F; lia).
        discriminate.
      - assert (false = true) by (apply F; lia). discriminate. }
    destruct (IH (mk_locating (server l) r (S (attempts l)) (S (lookups l))
                              (S (sleeps l)))) as [ r' Hr' ];
      cbn [server res attempts lookups sleeps];
      [ assumption | intros n Hn; apply Hrun; lia | lia | ].
    exists r'. rewrite Hr'. cbn [server res attempts lookups sleeps].
    now rewrite !Nat.add_succ_r.
Qed.

End Attaching.

(** X11: a call of [identify_process_by_name] always comes back, after at
    least one and at most [max_attempts + 1] lookups (never more than
    six) and at most [max_attempts] sleeps of one second. *)
Theorem locating_is_bounded (o : os) (run : nat -> lookup)
  (sv : localserver) :
  exists out l,
    identify_process_by_name o run sv = Some (out, l)
    /\ 1 <= lookups l <= S (max_attempts_of sv)
    /\ sleeps l <= max_attempts_of sv
    /\ max_attempts_of sv <= 5.
Proof.
  destruct (identify_process_by_name_total o run sv) as [ [ out l ] H ].
  exists out, l. split; [ assumption | ].
  assert (max_attempts_of sv <= 5) as Hm
    by (unfold max_attempts_of; destruct (negb _); lia).
  revert H. unfold identify_process_by_name.
  destruct (locate_loop _ _ _ _ _) as [ r | ] eqn:E; [ | discriminate ].
  apply locate_loop_counters in E; try reflexivity; [ | simpl; lia ].
  destruct r; intros [= <- <-]; simpl in E; try contradiction; lia.
Qed.

(** X12: whenever [identify_process_by_name] returns a result with status
    [success], a process is attached: the server record holds a non-empty
    process identifier and says the server is running, and the result
    carries that identifier. *)
Theorem found_process_is_attached (o : os) (run : nat -> lookup)
  (sv : localserver) (r : result) (l : locating) :
  identify_process_by_name o run sv = Some (Returned r, l) ->
  is_success r = true ->
  exists p,
    pid (server l) = Some p /\ truthy p = true
    /\ running (server l) = true /\ value r = Some p.
Proof.
  unfold identify_process_by_name.
  destruct (locate_loop _ _ _ _ _) as [ rd | ] eqn:E; [ | discriminate ].
  apply locate_loop_attaches in E;
    [ | intros H; simpl in H; discriminate ].
  intros H Hs.
  assert (attached l /\ res l = r) as [ (p & H1 & H2 & H3 & H4) <- ].
  { destruct rd as [ l' | l' | l' | e l' ]; try contradiction;
      inversion H; subst; [ tauto | ].
    destruct E as [ E | E ]; [ tauto | ].
    rewrite E in Hs. discriminate. }
  exists p. rewrite H4. auto.
Qed.

Lemma found_process_is_attached_witness :
  exists p,
    pid (server (mk_locating
                   (mk_localserver (Some (lit "4242")) true false false None)
                   (found (lit "4242")) 0 1 0))
    = Some p
    /\ truthy p = true
    /\ running (server (mk_locating
                          (mk_localserver (Some (lit "4242")) true false
                                          false None)
                          (found (lit "4242")) 0 1 0))
       = true
    /\ value (found (lit "4242")) = Some p.
Proof.
  apply (found_process_is_attached Windows
           (fun _ => Stdout (lit "4242" ++ [newline])) (quiet_server false));
    reflexivity.
Defined.

(** X13: off Windows, a process that shows up only at the last lookup of
    the budget, after lookups that found nothing (the command failed, as
    [pgrep] does when no process matches, or printed nothing), is
    attached to the server record, and yet the call returns the error of
    an exhausted search: the counter check that follows the lookup
    overwrites the result. *)
Theorem late_find_is_reported_as_failure (o : os) (run : nat -> lookup)
  (sv : localserver) (s p : str) (more : list str) :
  is_windows o = false ->
  (forall n, n < max_attempts_of sv -> fruitless (run n) = true) ->
  run (max_attempts_of sv) = Stdout s -> truthy s = true ->
  split newline (strip s) = p :: more ->
  identify_process_by_name o run sv
  = Some (Returned exhausted,
          mk_locating (set_running true (set_pid (Some p) (set_pid None sv)))
                      exhausted (S (max_attempts_of sv))
                      (S (max_attempts_of sv)) (max_attempts_of sv))
  /\ is_error exhausted = true.
Proof.
  intros Ho Hfruitless Hlast Hs Hp. split; [ | reflexivity ].
  unfold identify_process_by_name.
  replace (S (S (max_attempts_of sv))) with (max_attempts_of sv + 2) by lia.
  destruct (fruitless_rounds o (max_attempts_of sv) run (max_attempts_of sv) 2
              (mk_locating (set_pid None sv) empty_result 0 0 0))
    as [ r -> ];
    [ assumption | reflexivity
    | intros n Hn; apply Hfruitless; simpl in Hn; lia | simpl; lia | ].
  cbn [server res attempts lookups sleeps plus locate_loop pid set_pid
       pid_truthy].
  rewrite Ho, Hlast. unfold pgrep_round. rewrite Hs, Hp.
  unfold count_attempt.
  cbn [update with_lookup server res attempts lookups sleeps].
  destruct (Nat.ltb_spec (max_attempts_of sv) (S (max_attempts_of sv)));
    [ reflexivity | lia ].
Qed.

Lemma late_find_is_reported_as_failure_witness :
  identify_process_by_name Linux
    (fun n => if n =? 1 then Stdout (lit "4242" ++ [newline])
              else CalledProcessError (lit "exit status 1"))
    (quiet_server false)
  = Some (Returned exhausted,
          mk_locating
            (set_running true
               (set_pid (Some (lit "4242")) (set_pid None (quiet_server false))))
            exhausted (S (max_attempts_of (quiet_server false)))
            (S (max_attempts_of (quiet_server false)))
            (max_attempts_of (quiet_server false)))
  /\ is_error exhausted = true.
Proof.
  apply (late_find_is_reported_as_failure Linux
           (fun n => if n =? 1 then Stdout (lit "4242" ++ [newline])
                     else CalledProcessError (lit "exit status 1"))
           (quiet_server false) (lit "4242" ++ [newline]) (lit "4242") []);
    try reflexivity.
  intros n Hn. change (n < 1) in Hn. destruct n; [ reflexivity | lia ].
Defined.

(** * Further properties of the bootstrap sequence *)

Lemma identify_expectation (o : os) (run : nat -> lookup) (sv : localserver)
  (out : outcome) (l : locating) :
  identify_process_by_name o run sv = Some (out, l) ->
  expected_to_be_running (server l) = expected_to_be_running sv.
Proof.
  unfold identify_process_by_name.
  destruct (locate_loop _ _ _ _ _) as [ r | ] eqn:E; [ | discriminate ].
  apply locate_loop_expectation in E.
  destruct r; intros [= <- <-]; exact E.
Qed.

(** X14: [run_server] reports success only when the server was not
    marked as running before, and then a process is attached: the record
    holds a non-empty process identifier, says the server is running and
    is expected to be running.  The trace of the bootstrap sequence is
    left alone. *)
Theorem started_server_is_attached (w w' : world) (r : result) :
  run_server w = Some (r, w') -> is_success r = true ->
  running (local w) = false
  /\ (exists p, pid (local w') = Some p /\ truthy p = true)
  /\ running (local w') = true
  /\ expected_to_be_running (local w') = true
  /\ trace w' = trace w.
Proof.
  intros H Hs. pose proof (run_server_trace _ _ _ H) as Ht.
  revert H. unfold run_server.
  destruct (running (local w)) eqn:Hr.
  { intros [= <- <-]. discriminate. }
  destruct (popen_ok _); [ | intros [= <- <-]; discriminate ].
  destruct (identify_process_by_name _ _ _) as [ [ [ e | idf ] l ] | ] eqn:I;
    [ intros [= <- <-]; discriminate | | discriminate ].
  destruct (is_success idf) eqn:Hi; cbn [andb];
    [ | intros [= <- <-]; discriminate ].
  destruct (db_ok _); intros [= <- <-]; [ | discriminate ].
  pose proof (identify_expectation _ _ _ _ _ I) as He.
  destruct (found_process_is_attached _ _ _ _ _ I Hi)
    as (p & H1 & H2 & H3 & _).
  cbn [local set_local] in *. repeat split; eauto.
Qed.

Lemma started_server_is_attached_witness :
  running (local (mk_world Linux (quiet_server false)
                    (fun _ => Stdout (lit "4242" ++ [newline]))
                    true true pid_truthy true None true true (Lines []) no_file
                    None []))
  = false
  /\ (exists p,
        pid (local (mk_world Linux
                      (mk_localserver (Some (lit "4242")) true true false None)
                      (fun _ => Stdout (lit "4242" ++ [newline]))
                      true true pid_truthy true None true true (Lines []) no_file
                    None []))
        = Some p
        /\ truthy p = true)
  /\ running (local (mk_world Linux
                       (mk_localserver (Some (lit "4242")) true true false
                                       None)
                       (fun _ => Stdout (lit "4242" ++ [newline]))
                       true true pid_truthy true None true true (Lines []) no_file
                    None []))
     = true
  /\ expected_to_be_running
       (local (mk_world Linux
                 (mk_localserver (Some (lit "4242")) true true false None)
                 (fun _ => Stdout (lit "4242" ++ [newline]))
                 true true pid_truthy true None true true (Lines []) no_file
                    None []))
     = true
  /\ trace (mk_world Linux
              (mk_localserver (Some (lit "4242")) true true false None)
              (fun _ => Stdout (lit "4242" ++ [newline]))
              true true pid_truthy true None true true (Lines []) no_file
                    None [])
     = trace (mk_world Linux (quiet_server false)
                (fun _ => Stdout (lit "4242" ++ [newline]))
                true true pid_truthy true None true true (Lines []) no_file
                    None []).
Proof.
  apply (started_server_is_attached
           (mk_world Linux (quiet_server false)
              (fun _ => Stdout (lit "4242" ++ [newline]))
              true true pid_truthy true None true true (Lines []) no_file
                    None [])
           _ (success "Server started successfully"));
    reflexivity.
Defined.

(** [run_server] only touches the server record. *)
Lemma run_server_env (w w' : world) (r : result) :
  run_server w = Some (r, w') -> w' = set_local (local w') w.
Proof.
  unfold run_server.
  destruct (running (local w)); [ intros [= _ <-]; now destruct w | ].
  destruct (popen_ok _); [ | now intros [= _ <-] ].
  destruct (identify_process_by_name _ _ _) as [ [ [ e | idf ] l ] | ];
    [ now intros [= _ <-] | | discriminate ].
  destruct (is_success idf && _); now intros [= _ <-].
Qed.

(** A call of the merger that reports success has written a document. *)
Lemma update_success_writes (pip : option str) (doc : list str) (u : dict)
  (r : result) :
  ending (update_palworld_settings_ini pip (Lines doc) u) = Returned r ->
  is_success r = true ->
  exists ip doc',
    pip = Some ip /\ merge ip doc u = Some doc'
    /\ written (update_palworld_settings_ini pip (Lines doc) u) = Some doc'.
Proof.
  destruct pip as [ ip | ]; [ | simpl; intros [= <-]; discriminate ].
  destruct (truthy ip) eqn:T;
    [ | unfold update_palworld_settings_ini; rewrite T; simpl;
        intros [= <-]; discriminate ].
  unfold merge. rewrite (update_unfold _ _ _ T).
  destruct (effective ip u) as [ stc | ] eqn:He; [ | discriminate ].
  pose proof (rewrite_lines_stop stc doc) as S.
  destruct (rewrite_lines stc doc) as [ ls | x | e ] eqn:R;
    cbn [ending written].
  - intros _ _. exists ip, ls. rewrite (update_unfold _ _ _ T), He, R. auto.
  - intros [= <-]. subst x. discriminate.
  - intros [= <-]. discriminate.
Qed.

(** X15: when [first_run] reports success, the termination, copy and
    merge steps all went through: the settings file is the default file
    with the settings of the bootstrap merged into it, and the server
    record says the server is neither running nor expected to be. *)
Theorem first_run_success_installs_defaults (w w' : world) (r : result) :
  first_run w = Some (Returned r, w') -> is_success r = true ->
  exists ip d doc',
    public_ip w = Some ip /\ default_ini w = Some d
    /\ merge ip d first_run_settings = Some doc'
    /\ ini w' = Lines doc'
    /\ running (local w') = false
    /\ expected_to_be_running (local w') = false.
Proof.
  unfold first_run.
  destruct (run_server _) as [ [ started w1 ] | ] eqn:Hrun; [ | discriminate ].
  apply run_server_env in Hrun. cbn [set_local] in Hrun.
  unfold terminate_process_by_pid, copy_default_settings.
  cbn [log set_local set_ini local kill_ok kill_started default_ini
       delete_ok copy_ok public_ip ini ini_left].
  destruct (kill_started w1); [ | discriminate ].
  destruct (kill_ok w1 (pid (local w1)));
    cbn [log set_local set_ini local default_ini delete_ok copy_ok
         public_ip ini ini_left];
    [ | intros [= <- _]; discriminate ].
  destruct (default_ini w1) as [ d | ] eqn:Hd;
    cbn [log set_local set_ini local default_ini delete_ok copy_ok
         public_ip ini ini_left is_success status error success str_eqb];
    [ | intros [= <- _]; discriminate ].
  destruct (delete_ok w1);
    cbn [log set_local set_ini local default_ini delete_ok copy_ok
         public_ip ini ini_left];
    [ | change (is_success
                  (error "Error deleting existing settings on the server"))
          with false; cbn iota; intros [= <- _]; discriminate ].
  destruct (copy_ok w1);
    cbn [log set_local set_ini local default_ini delete_ok copy_ok
         public_ip ini ini_left];
    [ | intros [= <- _]; discriminate ].
  change (is_success (success "Default settings copied to the server"))
    with true. cbn iota.
  destruct (ending (update_palworld_settings_ini (public_ip w1) (Lines d)
                      first_run_settings)) as [ e | rc ] eqn:Hend;
    [ discriminate | ].
  destruct (is_success rc) eqn:Hrc; [ | intros [= <- _]; discriminate ].
  destruct (update_success_writes _ _ _ _ Hend Hrc)
    as (ip & doc' & Hip & Hm & Hw).
  rewrite Hw. intros [= _ <-] _. cbn [log set_local set_ini local ini].
  exists ip, d, doc'. rewrite Hrun in Hip, Hd. cbn in Hip, Hd.
  repeat split; auto.
Qed.

Lemma first_run_success_installs_defaults_witness :
  exists ip d doc',
    public_ip already_running = Some ip
    /\ default_ini already_running = Some d
    /\ merge ip d first_run_settings = Some doc'
    /\ ini installed = Lines doc'
    /\ running (local installed) = false
    /\ expected_to_be_running (local installed) = false.
Proof.
  apply (first_run_success_installs_defaults already_running installed
           (success "Server installed successfully"));
    [ vm_compute; reflexivity | reflexivity ].
Defined.

(** * The merger of the older copies *)

Lemma split_on_absent (c : ascii) (acc p : str) :
  contains c p = false -> split_on c acc p = [rev acc ++ p].
Proof.
  revert acc. induction p as [ | a p IH ]; intros acc H; cbn [split_on].
  - now rewrite app_nil_r.
  - rewrite contains_cons in H. apply orb_false_iff in H.
    destruct H as [ Ha Hp ].
    rewrite Ascii.eqb_sym, Ha, (IH _ Hp). cbn [rev].
    now rewrite <- app_assoc.
Qed.

Lemma split_on_found (c : ascii) (acc p x : str) :
  contains c p = false ->
  split_on c acc (p ++ c :: x) = (rev acc ++ p) :: split_on c [] x.
Proof.
  revert acc. induction p as [ | a p IH ]; intros acc H; cbn [app split_on].
  - now rewrite Ascii.eqb_refl, app_nil_r.
  - rewrite contains_cons in H. apply orb_false_iff in H.
    destruct H as [ Ha Hp ].
    rewrite Ascii.eqb_sym, Ha, (IH _ Hp). cbn [rev].
    now rewrite <- app_assoc.
Qed.

(** [split] undoes [join] on pieces that do not hold the separator. *)
Lemma split_join_plain (c : ascii) (ms : list str) :
  ms <> [] -> Forall (fun p => contains c p = false) ms ->
  split c (join c ms) = ms.
Proof.
  unfold split. induction ms as [ | p ms IH ]; intros Hne H;
    [ congruence | ].
  inversion H as [ | ? ? Hp Hms ]; subst.
  destruct ms as [ | q ms ].
  - cbn [join]. now rewrite split_on_absent.
  - change (join c (p :: q :: ms)) with (p ++ c :: join c (q :: ms)).
    rewrite split_on_found by assumption. cbn [rev app]. f_equal.
    apply IH; [ discriminate | assumption ].
Qed.




Lemma contains_join (d c : ascii) (ms : list str) :
  Ascii.eqb d c = false -> Forall (fun p => contains d p = false) ms ->
  contains d (join c ms) = false.
Proof.
  intros Hd. induction ms as [ | p ms IH ]; intros H; [ reflexivity | ].
  inversion H as [ | ? ? Hp Hms ]; subst.
  destruct ms as [ | q ms ]; [ exact Hp | ].
  change (join c (p :: q :: ms)) with (p ++ c :: join c (q :: ms)).
  now rewrite contains_app, contains_cons, Hp, Hd, (IH Hms).
Qed.






(** What the older merger cuts out of a line it has written, or of any
    line of that shape. *)
Lemma cut_of_directive (inner rest : str) :
  contains rparen inner = false ->
  slice (marker ++ lparen :: inner ++ rparen :: rest)
        (find lparen (marker ++ lparen :: inner ++ rparen :: rest) + 1)
        (find rparen (marker ++ lparen :: inner ++ rparen :: rest))
  = inner.
Proof.
  intros H.
  assert (find lparen (marker ++ lparen :: inner ++ rparen :: rest) = 15%Z)
    as -> by (now rewrite find_found).
  replace (marker ++ lparen :: inner ++ rparen :: rest)
    with ((marker ++ lparen :: inner) ++ rparen :: rest)
    by (now rewrite <- app_assoc).
  rewrite find_found
    by (rewrite contains_app, contains_cons, H; reflexivity).
  replace ((marker ++ lparen :: inner) ++ rparen :: rest)
    with ((marker ++ [lparen]) ++ inner ++ rparen :: rest)
    by (rewrite <- !app_assoc; reflexivity).
  replace (15 + 1)%Z with (Z.of_nat (List.length (marker ++ [lparen])))
    by reflexivity.
  replace (List.length (marker ++ lparen :: inner))
    with (List.length (marker ++ [lparen]) + List.length inner)
    by (rewrite !length_app; cbn [List.length]; lia).
  apply slice_middle.
Qed.


(** The loop over the pieces, piece by piece. *)
Lemma naive_modify_shape (u : dict) (settings ms : list str) :
  ServerManagerLocal.modify_settings u settings = Some ms ->
  Forall2 (rewritten_piece u) settings ms.
Proof.
  revert ms. induction settings as [ | s settings IH ]; intros ms;
    cbn [ServerManagerLocal.modify_settings].
  - intros [= <-]. constructor.
  - destruct (contains eq_sign s) eqn:E; [ | discriminate ].
    destruct (ServerManagerLocal.modify_settings u settings) as [ r | ];
      [ | discriminate ].
    intros [= <-]. constructor; [ | now apply IH ].
    split; [ assumption | reflexivity ].
Qed.



Lemma Forall2_In_l (A B : Type) (R : A -> B -> Prop) (l : list A)
  (l' : list B) (x : A) :
  Forall2 R l l' -> In x l -> exists y, R x y.
Proof.
  induction 1 as [ | a b l l' Hab _ IH ]; intros Hin; [ contradiction | ].
  destruct Hin as [ <- | Hin ]; eauto.
Qed.



Lemma naive_rewrite_line_shape (u : dict) (line line' : str) :
  ServerManagerLocal.rewrite_line u line = Some line' ->
  exists ms,
    Forall2 (rewritten_piece u) (pieces line) ms
    /\ line' = marker ++ lparen :: join comma ms ++ [rparen; newline].
Proof.
  unfold ServerManagerLocal.rewrite_line, pieces.
  destruct (ServerManagerLocal.modify_settings _ _) as [ ms | ] eqn:M;
    [ | discriminate ].
  intros [= <-]. exists ms. split; [ now apply naive_modify_shape | ].
  reflexivity.
Qed.


Lemma naive_modify_render (u : dict) (es : list (str * str)) :
  forallb bare_entry es = true ->
  ServerManagerLocal.modify_settings u (map render es)
  = Some (map render (map (overwrite u) es)).
Proof.
  induction es as [ | [ k v ] es IH ]; [ reflexivity | ].
  cbn [forallb]. intros H. apply andb_true_iff in H. destruct H as [ Hb Hes ].
  unfold bare_entry in Hb. cbn [fst] in Hb.
  apply andb_true_iff in Hb. destruct Hb as [ Hb _ ].
  apply andb_true_iff in Hb. destruct Hb as [ Hk _ ].
  apply negb_true_iff in Hk.
  cbn [map ServerManagerLocal.modify_settings]. rewrite (IH Hes).
  assert (render (overwrite u (k, v))
          = match get k u with
            | Some x => k ++ eq_sign :: x
            | None => k ++ eq_sign :: v
            end) as ->
    by (unfold overwrite, render; cbn [fst snd]; destruct (get k u);
        reflexivity).
  change (render (k, v)) with (k ++ eq_sign :: v).
  rewrite contains_app, contains_cons, Ascii.eqb_refl, orb_true_r.
  rewrite (partition_found _ _ _ Hk). cbn [fst].
  destruct (get k u); reflexivity.
Qed.

Lemma bare_entries_free (es : list (str * str)) :
  forallb bare_entry es = true ->
  Forall (fun p => contains comma p = false) (map render es)
  /\ Forall (fun p => contains rparen p = false) (map render es).
Proof.
  induction es as [ | kv es IH ]; cbn [forallb map];
    [ split; constructor | ].
  intros H. apply andb_true_iff in H. destruct H as [ Hb Hes ].
  destruct (IH Hes) as [ IH1 IH2 ]. unfold bare_entry in Hb.
  apply andb_true_iff in Hb. destruct Hb as [ Hb H2 ].
  apply andb_true_iff in Hb. destruct Hb as [ _ H1 ].
  rewrite negb_true_iff in *. split; constructor; assumption.
Qed.

(** The older merger on a directive of bare entries: every entry keeps
    its place, and nothing is appended. *)
Lemma naive_rewrite_line_directive (u : dict) (es : list (str * str))
  (rest : str) :
  es <> [] -> forallb bare_entry es = true ->
  ServerManagerLocal.rewrite_line u (directive es rest)
  = Some (directive (map (overwrite u) es) [newline]).
Proof.
  intros Hne Hes. destruct (bare_entries_free _ Hes) as [ Hc Hr ].
  unfold ServerManagerLocal.rewrite_line, directive.
  rewrite cut_of_directive by (now apply contains_join).
  rewrite split_join_plain;
    [ | destruct es; [ congruence | discriminate ] | assumption ].
  now rewrite (naive_modify_render _ _ Hes).
Qed.

Lemma naive_rewrite_lines_done (u : dict) (doc doc' : list str) :
  ServerManagerLocal.rewrite_lines u doc = Some doc'
  <-> Forall2 (rewritten_naively u) doc doc'.
Proof.
  revert doc'. induction doc as [ | line doc IH ]; intros doc'.
  - split.
    + intros [= <-]. constructor.
    + intros H. inversion H. reflexivity.
  - cbn [ServerManagerLocal.rewrite_lines]. split.
    + intros H.
      destruct (if startswith marker line
                then ServerManagerLocal.rewrite_line u line
                else Some line) as [ l | ] eqn:L; [ | discriminate ].
      destruct (ServerManagerLocal.rewrite_lines u doc) as [ ls | ] eqn:R;
        [ | discriminate ].
      injection H as <-. constructor; [ | now apply IH ].
      unfold rewritten_naively. destruct (startswith marker line);
        congruence.
    + intros H. inversion H as [ | ? l ? ls Hl Hr ]; subst.
      apply IH in Hr. rewrite Hr. unfold rewritten_naively in Hl.
      destruct (startswith marker line); [ now rewrite Hl | now subst ].
Qed.

Lemma naive_update_unfold (ip : str) (doc : list str) (updates : dict) :
  truthy ip = true ->
  ServerManagerLocal.update_palworld_settings_ini (Some ip) (Lines doc)
    updates
  = match effective ip updates with
    | None =>
        mk_call (Raised KeyError) None
                (set (lit "PublicIP") (dq :: ip ++ [dq]) updates)
    | Some u =>
        match ServerManagerLocal.rewrite_lines u doc with
        | Some lines' =>
            mk_call (Returned (success "Settings updated successfully"))
                    (Some lines') u
        | None =>
            mk_call (Returned (error "Error writing settings file")) None u
        end
    end.
Proof.
  intros H. unfold ServerManagerLocal.update_palworld_settings_ini, effective.
  now rewrite H.
Qed.

Lemma naive_written (ip : str) (doc doc' : list str) (updates : dict) :
  written (ServerManagerLocal.update_palworld_settings_ini (Some ip)
             (Lines doc) updates) = Some doc' ->
  truthy ip = true
  /\ exists u,
      effective ip updates = Some u
      /\ settings_after (ServerManagerLocal.update_palworld_settings_ini
                           (Some ip) (Lines doc) updates) = u
      /\ ServerManagerLocal.rewrite_lines u doc = Some doc'.
Proof.
  destruct (truthy ip) eqn:T.
  - rewrite (naive_update_unfold _ _ _ T).
    destruct (effective ip updates) as [ u | ]; [ | discriminate ].
    destruct (ServerManagerLocal.rewrite_lines u doc) as [ ls | ] eqn:R;
      [ | discriminate ].
    cbn [written settings_after]. intros [= <-]. eauto.
  - unfold ServerManagerLocal.update_palworld_settings_ini. rewrite T.
    discriminate.
Qed.

(** X16: the merger of the older copies never adds an entry.  On a
    directive whose entries hold no comma and no closing parenthesis,
    every entry keeps its place and its key, takes the value of the
    update map when the map holds its key (written as it is, without
    quoting), and keeps its own value otherwise; a key of the update map
    that the directive does not hold, the public address included, is
    not written. *)
Theorem older_merge_adds_no_entry (ip : str) (updates : dict)
  (doc doc' : list str) (n : nat) (es : list (str * str)) (rest : str) :
  written (ServerManagerLocal.update_palworld_settings_ini (Some ip)
             (Lines doc) updates) = Some doc' ->
  nth_error doc n = Some (directive es rest) ->
  es <> [] -> forallb bare_entry es = true ->
  nth_error doc' n
  = Some (directive
            (map (overwrite
                    (settings_after
                       (ServerManagerLocal.update_palworld_settings_ini
                          (Some ip) (Lines doc) updates))) es)
            [newline])
  /\ map fst
       (map (overwrite
               (settings_after
                  (ServerManagerLocal.update_palworld_settings_ini
                     (Some ip) (Lines doc) updates))) es)
     = map fst es.
Proof.
  intros H Hn Hne Hes.
  destruct (naive_written _ _ _ _ H) as (_ & u & _ & -> & Hr).
  split; [ | rewrite map_map; reflexivity ].
  apply naive_rewrite_lines_done in Hr.
  destruct (Forall2_nth_error _ _ _ _ _ _ _ Hr Hn) as (line' & Hn' & Hl).
  unfold rewritten_naively in Hl. rewrite directive_startswith in Hl.
  rewrite (naive_rewrite_line_directive _ _ _ Hne Hes) in Hl. congruence.
Qed.

Lemma older_merge_adds_no_entry_witness :
  nth_error [header;
             directive [(lit "Difficulty", lit "None");
                        (lit "RCONEnabled", lit "True")] [newline]] 1
  = Some (directive
            (map (overwrite
                    (settings_after
                       (ServerManagerLocal.update_palworld_settings_ini
                          (Some address)
                          (Lines [header;
                                  directive [(lit "Difficulty", lit "None");
                                             (lit "RCONEnabled", lit "False")]
                                            [newline]])
                          rcon_update)))
                 [(lit "Difficulty", lit "None");
                  (lit "RCONEnabled", lit "False")])
            [newline])
  /\ map fst
       (map (overwrite
               (settings_after
                  (ServerManagerLocal.update_palworld_settings_ini
                     (Some address)
                     (Lines [header;
                             directive [(lit "Difficulty", lit "None");
                                        (lit "RCONEnabled", lit "False")]
                                       [newline]])
                     rcon_update)))
            [(lit "Difficulty", lit "None");
             (lit "RCONEnabled", lit "False")])
     = map fst [(lit "Difficulty", lit "None");
                (lit "RCONEnabled", lit "False")].
Proof.
  apply (older_merge_adds_no_entry address rcon_update
           [header;
            directive [(lit "Difficulty", lit "None");
                       (lit "RCONEnabled", lit "False")] [newline]]
           [header;
            directive [(lit "Difficulty", lit "None");
                       (lit "RCONEnabled", lit "True")] [newline]]
           1
           [(lit "Difficulty", lit "None"); (lit "RCONEnabled", lit "False")]
           [newline]);
    [ vm_compute; reflexivity | reflexivity | discriminate | reflexivity ].
Defined.

(** X17: in the older copies, a piece of the directive without equals
    sign makes the call fail: the subscript raises, the call returns the
    error [Error writing settings file] and writes nothing.  A quoted
    value that holds a comma is such a case, since the directive is split
    at every comma. *)
Theorem older_merge_needs_equals_signs (ip : str) (updates : dict)
  (doc : list str) (n : nat) (line piece : str) :
  truthy ip = true ->
  contains_key (lit "RCONEnabled") updates = true ->
  nth_error doc n = Some line -> startswith marker line = true ->
  In piece (pieces line) -> contains eq_sign piece = false ->
  ending (ServerManagerLocal.update_palworld_settings_ini (Some ip)
            (Lines doc) updates)
  = Returned (error "Error writing settings file")
  /\ written (ServerManagerLocal.update_palworld_settings_ini (Some ip)
                (Lines doc) updates) = None.
Proof.
  intros T Hk Hn Hm Hin He. rewrite (naive_update_unfold _ _ _ T).
  destruct (effective_some ip _ Hk) as [ u -> ].
  destruct (ServerManagerLocal.rewrite_lines u doc) as [ ls | ] eqn:R;
    [ exfalso | split; reflexivity ].
  apply naive_rewrite_lines_done in R.
  destruct (Forall2_nth_error _ _ _ _ _ _ _ R Hn) as (line' & _ & Hl).
  unfold rewritten_naively in Hl. rewrite Hm in Hl.
  destruct (naive_rewrite_line_shape _ _ _ Hl) as (ms & F & _).
  destruct (Forall2_In_l _ _ _ _ _ _ F Hin) as (y & Hy & _). congruence.
Qed.

Lemma older_merge_needs_equals_signs_witness :
  ending (ServerManagerLocal.update_palworld_settings_ini (Some address)
            (Lines [header;
                    lit "OptionSettings=(ServerName=" ++ dq :: lit "a,b"
                      ++ dq :: lit ",RCONEnabled=False)" ++ [newline]])
            rcon_update)
  = Returned (error "Error writing settings file")
  /\ written (ServerManagerLocal.update_palworld_settings_ini (Some address)
                (Lines [header;
                        lit "OptionSettings=(ServerName=" ++ dq :: lit "a,b"
                          ++ dq :: lit ",RCONEnabled=False)" ++ [newline]])
                rcon_update) = None.
Proof.
  apply (older_merge_needs_equals_signs address rcon_update _ 1
           (lit "OptionSettings=(ServerName=" ++ dq :: lit "a,b"
              ++ dq :: lit ",RCONEnabled=False)" ++ [newline])
           (lit "b" ++ [dq]));
    [ reflexivity | reflexivity | reflexivity | reflexivity
    | vm_compute; tauto | reflexivity ].
Defined.




(** * The monitor and the uninstaller *)

(** A call of the locator that returns without process identifier
    returns the result of an exhausted search. *)
Lemma absent_is_exhausted (o : os) (run : nat -> lookup) (sv : localserver)
  (r : result) (l : locating) :
  identify_process_by_name o run sv = Some (Returned r, l) ->
  pid_truthy (pid (server l)) = false -> r = exhausted.
Proof.
  unfold identify_process_by_name.
  destruct (locate_loop _ _ _ _ _) as [ rd | ] eqn:E; [ | discriminate ].
  apply locate_loop_leaves in E; simpl; try lia.
  intros H Hpid.
  assert (left_with (max_attempts_of sv) l /\ res l = r) as [ [ Hl | Hl ] <- ].
  { destruct rd; inversion H; subst; tauto. }
  - congruence.
  - tauto.
Qed.

(** X19: the monitor turns the locator's failure into a normal answer.
    When the record holds no process identifier and the locator comes
    back without one, its result has status [error], and yet
    [check_server_running] returns status [success] with the value
    [False] and zero usage, on every operating system. *)
Theorem absence_is_a_normal_reading (o : os) (env : probes)
  (sv : localserver) (r : result) (l : locating) :
  pid_truthy (pid sv) = false ->
  identify_process_by_name o (probe_find env) sv = Some (Returned r, l) ->
  pid_truthy (pid (server l)) = false ->
  check_server_running o env sv = Some (Monitored not_running, server l)
  /\ is_error r = true
  /\ reading_status not_running = Some (lit "success")
  /\ reading_value not_running = Some NotAlive.
Proof.
  intros Hp Hi Hl. unfold check_server_running. rewrite Hp, Hi, Hl.
  split; [ reflexivity | ].
  rewrite (absent_is_exhausted _ _ _ _ _ Hi Hl). repeat split.
Qed.

Lemma absence_is_a_normal_reading_witness :
  check_server_running Linux
    (mk_probes silent (CountersOut []) (fun _ => None) None CpuError RamError)
    (quiet_server false)
  = Some (Monitored not_running,
          server (mk_locating (quiet_server false) exhausted 2 2 1))
  /\ is_error exhausted = true
  /\ reading_status not_running = Some (lit "success")
  /\ reading_value not_running = Some NotAlive.
Proof.
  apply (absence_is_a_normal_reading Linux
           (mk_probes silent (CountersOut []) (fun _ => None) None CpuError
                      RamError)
           (quiet_server false) exhausted
           (mk_locating (quiet_server false) exhausted 2 2 1));
    reflexivity.
Defined.

(** X20: off Windows the monitor never returns status [error]: every
    result dictionary it returns has status [success] and the value
    [True] or [False]; with the value [True] the record still holds the
    process identifier, and with the value [False] the usage figures are
    the text [0]. *)
Theorem monitor_never_errors_off_windows (o : os) (env : probes)
  (sv sv' : localserver) (m : reading) :
  is_windows o = false ->
  check_server_running o env sv = Some (Monitored m, sv') ->
  reading_status m = Some (lit "success")
  /\ ((reading_value m = Some Alive /\ pid_truthy (pid sv') = true)
      \/ m = not_running).
Proof.
  intros Ho. unfold check_server_running.
  assert (forall sv1, pid_truthy (pid sv1) = true ->
            Some (sample_server o env sv1) = Some (Monitored m, sv') ->
            reading_status m = Some (lit "success")
            /\ ((reading_value m = Some Alive /\ pid_truthy (pid sv') = true)
                \/ m = not_running)) as Hs.
  { intros sv1 Hp. unfold sample_server. rewrite Ho.
    destruct (probe_exited env) as [ [ | ] | ];
      try (intros [= <- <-]; split; [ reflexivity | now right ]);
      (destruct (probe_cpu env) as [ | | t u ];
       [ discriminate
       | intros [= <- <-]; split; [ reflexivity | now right ]
       | destruct (probe_ram env) as [ | | ram ];
         [ discriminate
         | intros [= <- <-]; split; [ reflexivity | left; now split ]
         | intros [= <- <-]; split; [ reflexivity | left; now split ] ] ]). }
  destruct (pid_truthy (pid sv)) eqn:Hp.
  - rewrite Hp. now apply Hs.
  - destruct (identify_process_by_name _ _ _) as [ [ [ e | r ] l ] | ];
      try discriminate.
    destruct (pid_truthy (pid (server l))) eqn:Hl; [ now apply Hs | ].
    intros [= <- <-]. split; [ reflexivity | now right ].
Qed.

Lemma monitor_never_errors_off_windows_witness :
  reading_status (mk_reading (Some (lit "success")) (Some Alive)
                    (Some (lit "12.5")) (Some (lit "3.1")) None)
  = Some (lit "success")
  /\ ((reading_value (mk_reading (Some (lit "success")) (Some Alive)
                        (Some (lit "12.5")) (Some (lit "3.1")) None)
       = Some Alive
       /\ pid_truthy (pid (mk_localserver (Some (lit "77")) true true false
                                          None)) = true)
      \/ mk_reading (Some (lit "success")) (Some Alive)
           (Some (lit "12.5")) (Some (lit "3.1")) None
         = not_running).
Proof.
  apply (monitor_never_errors_off_windows Linux
           (mk_probes silent (CountersOut []) (fun _ => None) (Some false)
                      (Cpu (lit "12.5") (lit "3.1")) RamError)
           (mk_localserver (Some (lit "77")) true true false None));
    reflexivity.
Defined.

(** X21: off Windows, [uninstall_server] never reports what it could not
    remove.  Once the commands have gone through, the call returns
    success when nothing is left, and raises [UnboundLocalError] when
    [/usr/games/steamcmd] or one of the two Steam directories is still
    there: the flag it then reads was never assigned, and the error
    result of that branch is never returned. *)
Theorem uninstall_raises_on_leftovers (o : os) (env : removal) :
  is_windows o = false -> home env <> None -> commands_ok env = true ->
  (steamcmd_left env || share_left env || dot_steam_left env = false ->
   uninstall_server o env
   = UninstallReturned
       (success "Palworld Dedicated Server uninstalled successfully"))
  /\ (steamcmd_left env || share_left env || dot_steam_left env = true ->
      uninstall_server o env = UninstallRaised UnboundLocalError)
  /\ uninstall_server o env
     <> UninstallReturned
          (error "Error uninstalling Palworld Dedicated Server").
Proof.
  intros Ho Hh Hc. unfold uninstall_server. rewrite Ho, Hc.
  destruct (home env) as [ h | ]; [ | congruence ].
  destruct (steamcmd_left env), (share_left env), (dot_steam_left env);
    cbn [negb andb orb]; repeat split; try discriminate; reflexivity.
Qed.

Lemma uninstall_raises_on_leftovers_witness :
  (true || false || false = false ->
   uninstall_server Linux
     (mk_removal (Some (lit "/home/steam")) true true false false false)
   = UninstallReturned
       (success "Palworld Dedicated Server uninstalled successfully"))
  /\ (true || false || false = true ->
      uninstall_server Linux
        (mk_removal (Some (lit "/home/steam")) true true false false false)
      = UninstallRaised UnboundLocalError)
  /\ uninstall_server Linux
       (mk_removal (Some (lit "/home/steam")) true true false false false)
     <> UninstallReturned
          (error "Error uninstalling Palworld Dedicated Server").
Proof.
  apply (uninstall_raises_on_leftovers Linux
           (mk_removal (Some (lit "/home/steam")) true true false false
                       false));
    [ reflexivity | discriminate | reflexivity ].
Defined.

(** * The settings of the world option file *)

(** X22: [generate_world_option_save] writes exactly the settings that
    were submitted with a value other than the default, in the order of
    the default values; every entry is the classification of the
    submitted value.  Keys that are not among the defaults, and keys that
    were not submitted, leave no entry. *)
Theorem only_changed_settings_are_written (default_values data : dict)
  (ps : list (str * property)) :
  generate_world_option_save default_values data = Some ps ->
  map fst ps = map fst (filter (changed data) default_values)
  /\ forall key p,
      In (key, p) ps ->
      exists v, get key data = Some v /\ classify v = Some p.
Proof.
  revert ps. induction default_values as [ | [ key d ] rest IH ]; intros ps;
    cbn [generate_world_option_save filter].
  - intros [= <-]. split; [ reflexivity | contradiction ].
  - unfold changed at 1. cbn [fst snd].
    destruct (get key data) as [ v | ] eqn:G.
    + destruct (str_eqb v d); cbn [negb]; [ apply IH | ].
      destruct (classify v) as [ p | ] eqn:C; [ | discriminate ].
      destruct (generate_world_option_save rest data) as [ ps' | ];
        [ | discriminate ].
      intros [= <-]. destruct (IH ps' eq_refl) as [ IH1 IH2 ].
      split; [ cbn [map fst]; now rewrite IH1 | ].
      intros k q [ [= <- <-] | Hin ]; [ eauto | now apply IH2 ].
    + rewrite str_eqb_refl. cbn [negb]. apply IH.
Qed.

Lemma only_changed_settings_are_written_witness :
  map fst [(lit "bEnablePvP", BoolProperty true)]
  = map fst (filter (changed [(lit "bEnablePvP", lit "True");
                              (lit "Unknown", lit "x");
                              (lit "DayTimeSpeedRate", lit "1.000000")])
                    [(lit "DayTimeSpeedRate", lit "1.000000");
                     (lit "bEnablePvP", lit "False");
                     (lit "ServerName", lit "Default Palworld Server")])
  /\ forall key p,
      In (key, p) [(lit "bEnablePvP", BoolProperty true)] ->
      exists v,
        get key [(lit "bEnablePvP", lit "True"); (lit "Unknown", lit "x");
                 (lit "DayTimeSpeedRate", lit "1.000000")] = Some v
        /\ classify v = Some p.
Proof.
  apply (only_changed_settings_are_written
           [(lit "DayTimeSpeedRate", lit "1.000000");
            (lit "bEnablePvP", lit "False");
            (lit "ServerName", lit "Default Palworld Server")]
           [(lit "bEnablePvP", lit "True"); (lit "Unknown", lit "x");
            (lit "DayTimeSpeedRate", lit "1.000000")]
           [(lit "bEnablePvP", BoolProperty true)]).
  vm_compute. reflexivity.
Defined.

Lemma contains_remove_all (c : ascii) (s : str) :
  contains c (remove_all c s) = false.
Proof.
  unfold remove_all. induction s as [ | a s IH ]; [ reflexivity | ].
  cbn [filter]. destruct (Ascii.eqb a c) eqn:E; cbn [negb]; [ exact IH | ].
  now rewrite contains_cons, Ascii.eqb_sym, E, IH.
Qed.

Lemma contains_remove_other (c d : ascii) (s : str) :
  contains c s = false -> contains c (remove_all d s) = false.
Proof.
  unfold remove_all. induction s as [ | a s IH ]; [ reflexivity | ].
  rewrite contains_cons. intros H. apply orb_false_iff in H.
  destruct H as [ H1 H2 ]. cbn [filter].
  destruct (negb (Ascii.eqb a d)); [ | now apply IH ].
  now rewrite contains_cons, H1, (IH H2).
Qed.

(** X23: a value that [generate_world_option_save] stores as a string
    holds neither a single nor a double quote: both are removed from the
    submitted text. *)
Theorem stored_strings_hold_no_quotes (submitted_value s : str) :
  classify submitted_value = Some (StrProperty s) ->
  s = remove_all dq (remove_all apostrophe submitted_value)
  /\ contains dq s = false /\ contains apostrophe s = false.
Proof.
  unfold classify.
  destruct (str_eqb (lower submitted_value) (lit "true")
            || str_eqb (lower submitted_value) (lit "false"));
    [ discriminate | ].
  destruct (isdigit (remove_first dot submitted_value)).
  - destruct (forallb is_decimal (remove_first dot submitted_value));
      [ | discriminate ].
    destruct (contains dot submitted_value); [ discriminate | ].
    destruct (int_of_str submitted_value); discriminate.
  - intros [= <-]. split; [ reflexivity | ]. split.
    + apply contains_remove_all.
    + apply contains_remove_other, contains_remove_all.
Qed.

Lemma stored_strings_hold_no_quotes_witness :
  lit "Bobs server"
  = remove_all dq (remove_all apostrophe
                     (dq :: lit "Bob's server" ++ [dq]))
  /\ contains dq (lit "Bobs server") = false
  /\ contains apostrophe (lit "Bobs server") = false.
Proof.
  apply (stored_strings_hold_no_quotes (dq :: lit "Bob's server" ++ [dq])
           (lit "Bobs server")).
  reflexivity.
Defined.

Lemma contains_In (c : ascii) (s : str) : contains c s = true <-> In c s.
Proof.
  unfold contains. rewrite existsb_exists. split.
  - intros (x & Hx & E). apply Ascii.eqb_eq in E. now subst.
  - intros H. exists c. split; [ assumption | apply Ascii.eqb_refl ].
Qed.

Lemma In_remove_first (c x : ascii) (s : str) :
  In x s -> x <> c -> In x (remove_first c s).
Proof.
  induction s as [ | a s IH ]; [ contradiction | ].
  intros [ -> | Hin ] Hne; cbn [remove_first].
  - destruct (Ascii.eqb x c) eqn:E; [ | now left ].
    apply Ascii.eqb_eq in E. contradiction.
  - destruct (Ascii.eqb a c); [ assumption | right; now apply IH ].
Qed.

(** X24: a submitted value that holds a minus sign is never read as a
    number: whatever else it holds, it is stored as a string, without its
    quotes.  A negative number is such a value. *)
Theorem signed_values_are_strings (submitted_value : str) :
  contains "-"%char submitted_value = true ->
  classify submitted_value
  = Some (StrProperty
            (remove_all dq (remove_all apostrophe submitted_value))).
Proof.
  intros H. apply contains_In in H. unfold classify.
  assert (In "-"%char (lower submitted_value)) as Hl.
  { unfold lower. change "-"%char with (lower_char "-"%char).
    now apply in_map. }
  assert (str_eqb (lower submitted_value) (lit "true") = false) as ->.
  { apply str_eqb_neq. intros E. rewrite E in Hl.
    apply contains_In in Hl. vm_compute in Hl. discriminate Hl. }
  assert (str_eqb (lower submitted_value) (lit "false") = false) as ->.
  { apply str_eqb_neq. intros E. rewrite E in Hl.
    apply contains_In in Hl. vm_compute in Hl. discriminate Hl. }
  assert (isdigit (remove_first dot submitted_value) = false) as ->;
    [ | reflexivity ].
  unfold isdigit. apply andb_false_iff. right.
  destruct (forallb is_digit (remove_first dot submitted_value)) eqn:F;
    [ | reflexivity ].
  rewrite forallb_forall in F.
  assert (is_digit "-"%char = true) as D
    by (apply F, In_remove_first; [ assumption | discriminate ]).
  vm_compute in D. discriminate D.
Qed.

Lemma signed_values_are_strings_witness :
  classify (lit "-5")
  = Some (StrProperty (remove_all dq (remove_all apostrophe (lit "-5")))).
Proof.
  apply (signed_values_are_strings (lit "-5")). reflexivity.
Defined.

Lemma decimal_facts (c : ascii) :
  is_decimal c = true ->
  lower_char c = c /\ is_digit c = true /\ Ascii.eqb c dot = false.
Proof.
  unfold is_decimal, is_digit, is_decimal, lower_char. intros H. rewrite H.
  apply andb_true_iff in H. destruct H as [ H1 H2 ].
  apply Nat.leb_le in H1. apply Nat.leb_le in H2.
  split; [ | split; [ reflexivity | ] ].
  - destruct (Nat.leb_spec 65 (nat_of_ascii c)); [ lia | ].
    destruct (Nat.leb_spec 192 (nat_of_ascii c)); [ lia | ]. reflexivity.
  - destruct (Ascii.eqb c dot) eqn:E; [ | reflexivity ].
    apply Ascii.eqb_eq in E. subst c. vm_compute in H1. lia.
Qed.

Lemma decimals_facts (s : str) :
  forallb is_decimal s = true ->
  lower s = s /\ forallb is_digit s = true /\ contains dot s = false.
Proof.
  induction s as [ | c s IH ]; [ repeat split | ].
  cbn [forallb]. intros H. apply andb_true_iff in H. destruct H as [ Hc Hs ].
  destruct (decimal_facts _ Hc) as (H1 & H2 & H3).
  destruct (IH Hs) as (I1 & I2 & I3).
  unfold lower in *. cbn [map forallb]. rewrite H1, I1, H2, I2.
  rewrite contains_cons, Ascii.eqb_sym, H3, I3. repeat split.
Qed.

Lemma remove_first_found (c : ascii) (a b : str) :
  contains c a = false -> remove_first c (a ++ c :: b) = a ++ b.
Proof.
  induction a as [ | x a IH ]; cbn [app remove_first]; intros H.
  - now rewrite Ascii.eqb_refl.
  - rewrite contains_cons in H. apply orb_false_iff in H.
    destruct H as [ H1 H2 ]. now rewrite Ascii.eqb_sym, H1, (IH H2).
Qed.

Lemma remove_first_absent (c : ascii) (s : str) :
  contains c s = false -> remove_first c s = s.
Proof.
  induction s as [ | x s IH ]; cbn [remove_first]; intros H;
    [ reflexivity | ].
  rewrite contains_cons in H. apply orb_false_iff in H.
  destruct H as [ H1 H2 ]. now rewrite Ascii.eqb_sym, H1, (IH H2).
Qed.

Lemma int_of_digits_nonneg (s : str) (acc : Z) :
  (0 <= acc)%Z ->
  (0 <= fold_left (fun acc c => 10 * acc + Z.of_nat (nat_of_ascii c - 48))
                  s acc)%Z.
Proof.
  revert acc. induction s as [ | c s IH ]; intros acc H; cbn [fold_left];
    [ assumption | ].
  apply IH. lia.
Qed.

(** X25: a submitted value made of decimal digits is stored as an
    integer, the number the digits denote, as long as it has at most 4300
    digits; a longer one makes [int] raise [ValueError], which nothing
    catches.  With one full stop among the digits the value is stored as
    a floating-point number, whatever its length. *)
Theorem numerals_are_numbers (a b : str) :
  forallb is_decimal a = true -> forallb is_decimal b = true ->
  a ++ b <> [] ->
  classify (a ++ b)
  = (if List.length (a ++ b) <=? 4300
     then Some (IntProperty (int_of_digits (a ++ b))) else None)
  /\ (0 <= int_of_digits (a ++ b))%Z
  /\ classify (a ++ dot :: b) = Some (FloatProperty (a ++ dot :: b)).
Proof.
  intros Ha Hb Hne.
  assert (forallb is_decimal (a ++ b) = true) as Hab
    by (now rewrite forallb_app, Ha, Hb).
  destruct (decimals_facts _ Ha) as (La & Da & Pa).
  destruct (decimals_facts _ Hb) as (Lb & Db & Pb).
  destruct (decimals_facts _ Hab) as (Lab & Dab & Pab).
  assert (isdigit (a ++ b) = true) as Hd.
  { unfold isdigit. rewrite Dab. destruct (a ++ b); [ congruence | ].
    reflexivity. }
  split; [ | split ].
  - unfold classify. rewrite Lab.
    assert (str_eqb (a ++ b) (lit "true") = false) as ->.
    { apply str_eqb_neq. intros E. rewrite E in Hab. discriminate Hab. }
    assert (str_eqb (a ++ b) (lit "false") = false) as ->.
    { apply str_eqb_neq. intros E. rewrite E in Hab. discriminate Hab. }
    cbn [orb]. rewrite (remove_first_absent _ _ Pab), Hd, Hab, Pab.
    unfold int_of_str, int_max_str_digits.
    destruct (List.length (a ++ b) <=? 4300); reflexivity.
  - now apply int_of_digits_nonneg.
  - unfold classify.
    assert (lower (a ++ dot :: b) = a ++ dot :: b) as ->.
    { unfold lower in *. rewrite map_app. cbn [map]. now rewrite La, Lb. }
    assert (contains dot (a ++ dot :: b) = true) as Hc
      by (rewrite contains_app, contains_cons, Ascii.eqb_refl;
          apply orb_true_r).
    assert (str_eqb (a ++ dot :: b) (lit "true") = false) as ->.
    { apply str_eqb_neq. intros E. rewrite E in Hc. discriminate Hc. }
    assert (str_eqb (a ++ dot :: b) (lit "false") = false) as ->.
    { apply str_eqb_neq. intros E. rewrite E in Hc. discriminate Hc. }
    cbn [orb]. rewrite (remove_first_found _ _ _ Pa), Hd, Hab, Hc.
    reflexivity.
Qed.

Lemma numerals_are_numbers_witness :
  classify (lit "16" ++ lit "00")
  = (if List.length (lit "16" ++ lit "00") <=? 4300
     then Some (IntProperty (int_of_digits (lit "16" ++ lit "00")))
     else None)
  /\ (0 <= int_of_digits (lit "16" ++ lit "00"))%Z
  /\ classify (lit "16" ++ dot :: lit "00")
     = Some (FloatProperty (lit "16" ++ dot :: lit "00")).
Proof.
  apply (numerals_are_numbers (lit "16") (lit "00"));
    [ reflexivity | reflexivity | discriminate ].
Defined.

(** * The reader of the settings file *)

Lemma startswith_true (p s : str) :
  startswith p s = true -> exists y, s = p ++ y.
Proof.
  revert s. induction p as [ | a p IH ]; intros s; [ now exists s | ].
  destruct s as [ | b s ]; cbn [startswith]; [ discriminate | ].
  intros H. apply andb_true_iff in H. destruct H as [ H1 H2 ].
  apply Ascii.eqb_eq in H1. subst b. destruct (IH _ H2) as [ y -> ].
  now exists y.
Qed.

(** A text that ends with a character it does not hold elsewhere cannot
    start before the place where it stands. *)
Lemma startswith_later (c : ascii) (m pre x : str) :
  pre <> [] -> contains c pre = false -> contains c m = false ->
  startswith (m ++ [c]) (pre ++ m ++ c :: x) = false.
Proof.
  intros Hne Hp Hm.
  destruct (startswith (m ++ [c]) (pre ++ m ++ c :: x)) eqn:E;
    [ exfalso | reflexivity ].
  apply startswith_true in E. destruct E as [ y E ].
  assert (find c (pre ++ m ++ c :: x)
          = Z.of_nat (List.length (pre ++ m))) as F1.
  { rewrite app_assoc. apply find_found. now rewrite contains_app, Hp, Hm. }
  assert (find c (pre ++ m ++ c :: x) = Z.of_nat (List.length m)) as F2.
  { rewrite E, <- app_assoc. now apply find_found. }
  rewrite F1, length_app in F2. destruct pre; [ congruence | ].
  cbn [List.length] in F2. lia.
Qed.

Lemma find_sub_found (c : ascii) (m pre x : str) :
  contains c pre = false -> contains c m = false ->
  find_sub (m ++ [c]) (pre ++ m ++ c :: x) = Z.of_nat (List.length pre).
Proof.
  intros Hp Hm. induction pre as [ | a pre IH ].
  - cbn [app List.length].
    assert (startswith (m ++ [c]) (m ++ c :: x) = true) as S.
    { replace (m ++ c :: x) with ((m ++ [c]) ++ x)
        by (now rewrite <- app_assoc).
      apply startswith_app. }
    destruct (m ++ c :: x) as [ | b s ] eqn:E;
      [ destruct m; discriminate | ].
    cbn [find_sub]. now rewrite S.
  - rewrite contains_cons in Hp. apply orb_false_iff in Hp.
    destruct Hp as [ H1 H2 ].
    change ((a :: pre) ++ m ++ c :: x) with (a :: (pre ++ m ++ c :: x)).
    cbn [find_sub].
    change (a :: (pre ++ m ++ c :: x)) with ((a :: pre) ++ m ++ c :: x).
    rewrite startswith_later;
      [ | discriminate | now rewrite contains_cons, H1, H2 | assumption ].
    rewrite (IH H2).
    destruct (Z.ltb_spec (Z.of_nat (List.length pre)) 0);
      cbn [List.length]; lia.
Qed.

Lemma span_found (p : ascii -> bool) (k : str) (c : ascii) (x : str) :
  forallb p k = true -> p c = false -> span p (k ++ c :: x) = (k, c :: x).
Proof.
  intros Hk Hc. induction k as [ | a k IH ]; cbn [app span].
  - now rewrite Hc.
  - cbn [forallb] in Hk. apply andb_true_iff in Hk. destruct Hk as [ H1 H2 ].
    now rewrite H1, (IH H2).
Qed.

Lemma span_all (p : ascii -> bool) (k : str) :
  forallb p k = true -> span p k = (k, []).
Proof.
  induction k as [ | a k IH ]; cbn [forallb span]; [ reflexivity | ].
  intros H. apply andb_true_iff in H. destruct H as [ H1 H2 ].
  now rewrite H1, (IH H2).
Qed.

Lemma no_comma_forallb (v : str) :
  contains comma v = false ->
  forallb (fun x => negb (Ascii.eqb x comma)) v = true.
Proof.
  induction v as [ | a v IH ]; [ reflexivity | ].
  rewrite contains_cons. intros H. apply orb_false_iff in H.
  destruct H as [ H1 H2 ]. cbn [forallb].
  now rewrite Ascii.eqb_sym, H1, (IH H2).
Qed.

(** The pattern matches an entry as a whole, when the entry is at the
    end of the text or is followed by a comma. *)
Lemma match_setting_entry (k v tail : str) :
  word_key k = true -> quoted v || plain v = true ->
  tail = [] \/ (exists x, tail = comma :: x) ->
  match_setting (k ++ eq_sign :: v ++ tail) = Some (k, v, tail).
Proof.
  unfold word_key. intros Hk Hv Ht. apply andb_true_iff in Hk.
  destruct Hk as [ Hne Hw ]. unfold match_setting.
  rewrite (span_found is_word k eq_sign (v ++ tail) Hw eq_refl).
  destruct k as [ | c0 k ]; [ discriminate | ].
  rewrite Ascii.eqb_refl.
  apply orb_true_iff in Hv. destruct Hv as [ Hq | Hp ].
  - apply quoted_shape in Hq. destruct Hq as (body & -> & Hb).
    cbn [app]. rewrite Ascii.eqb_refl. cbn [andb].
    rewrite <- app_assoc. cbn [app].
    rewrite contains_app, contains_cons, Ascii.eqb_refl, orb_true_r.
    now rewrite (partition_found _ _ _ Hb).
  - unfold plain in Hp. apply andb_true_iff in Hp. destruct Hp as [ P1 P2 ].
    rewrite negb_true_iff in *.
    assert (span (fun x => negb (Ascii.eqb x comma)) (v ++ tail) = (v, tail))
      as Hs.
    { destruct Ht as [ -> | (x & ->) ].
      - rewrite app_nil_r. now apply span_all, no_comma_forallb.
      - apply span_found; [ now apply no_comma_forallb | ].
        now rewrite Ascii.eqb_refl. }
    destruct (v ++ tail) as [ | q t ] eqn:E.
    + destruct v; [ | discriminate ]. cbn [app] in E. now subst tail.
    + assert (Ascii.eqb q dq = false) as ->; [ | cbn [andb]; now rewrite Hs ].
      destruct v as [ | a v ]; cbn [app] in E.
      * destruct Ht as [ -> | (x & ->) ]; [ discriminate | ].
        injection E as <- _. reflexivity.
      * injection E as <- _. rewrite contains_cons in P1.
        apply orb_false_iff in P1. rewrite Ascii.eqb_sym. tauto.
Qed.

Lemma findall_nil (fuel : nat) : findall fuel [] = [].
Proof. destruct fuel; reflexivity. Qed.

(** [findall] reads the entries of a directive back. *)
Lemma findall_entries (es : list (str * str)) (fuel : nat) :
  forallb read_entry es = true ->
  List.length (join comma (map render es)) <= fuel ->
  findall fuel (join comma (map render es)) = es.
Proof.
  revert fuel. induction es as [ | [ k v ] es IH ]; intros fuel Hes Hf.
  - apply findall_nil.
  - cbn [forallb] in Hes. apply andb_true_iff in Hes.
    destruct Hes as [ He Hes ]. unfold read_entry in He. cbn [fst snd] in He.
    apply andb_true_iff in He. destruct He as [ Hk Hv ].
    assert (exists c0 k', k = c0 :: k') as (c0 & k' & Ek).
    { unfold word_key in Hk. destruct k; [ discriminate | eauto ]. }
    destruct es as [ | e2 es ].
    + cbn [map join] in *. unfold render in *. cbn [fst snd] in *.
      pose proof (match_setting_entry k v [] Hk Hv (or_introl eq_refl)) as M.
      rewrite app_nil_r in M.
      destruct fuel as [ | fuel ];
        [ rewrite Ek in Hf; cbn [app List.length] in Hf; lia | ].
      cbn [findall]. rewrite M. rewrite Ek at 1. cbn [app].
      now rewrite findall_nil.
    + change (join comma (map render ((k, v) :: e2 :: es)))
        with (render (k, v) ++ comma :: join comma (map render (e2 :: es)))
        in *.
      set (J := join comma (map render (e2 :: es))) in *.
      unfold render in *. cbn [fst snd] in *.
      pose proof (match_setting_entry k v (comma :: J) Hk Hv
                    (or_intror (ex_intro _ J eq_refl))) as M.
      replace ((k ++ eq_sign :: v) ++ comma :: J)
        with (k ++ eq_sign :: v ++ comma :: J) in *
        by (rewrite <- app_assoc; reflexivity).
      rewrite length_app in Hf. cbn [List.length] in Hf.
      rewrite length_app in Hf. cbn [List.length] in Hf.
      destruct fuel as [ | fuel ]; [ lia | ].
      cbn [findall]. rewrite M. rewrite Ek at 1. cbn [app].
      destruct fuel as [ | fuel ];
        [ rewrite Ek in Hf; cbn [List.length] in Hf; lia | ].
      cbn [findall]. unfold match_setting at 1. cbn [span].
      replace (is_word comma) with false by reflexivity.
      f_equal. apply IH; [ assumption | ].
      rewrite Ek in Hf. cbn [List.length] in Hf. lia.
Qed.

Lemma word_not_space (c : ascii) : is_word c = true -> is_space c = false.
Proof.
  destruct c as [ [ | ] [ | ] [ | ] [ | ] [ | ] [ | ] [ | ] [ | ] ];
    vm_compute; congruence.
Qed.

Lemma strip_word (k : str) : forallb is_word k = true -> strip k = k.
Proof.
  intros H.
  assert (forall s, (forall c, In c s -> is_space c = false) ->
                    lstrip s = s) as L.
  { intros s Hs. destruct s as [ | c s ]; [ reflexivity | ].
    cbn [lstrip]. now rewrite (Hs c (or_introl eq_refl)). }
  assert (forall c, In c k -> is_space c = false) as Hk.
  { intros c Hc. apply word_not_space. rewrite forallb_forall in H.
    now apply H. }
  unfold strip, rstrip. rewrite (L k Hk), L, rev_involutive; [ reflexivity | ].
  intros c Hc. apply Hk. now apply in_rev.
Qed.

Lemma lstrip_char_fixed (c : ascii) (s : str) :
  contains c s = false -> lstrip_char c s = s.
Proof.
  destruct s as [ | a s ]; [ reflexivity | ].
  rewrite contains_cons. intros H. apply orb_false_iff in H.
  destruct H as [ H _ ]. cbn [lstrip_char]. now rewrite Ascii.eqb_sym, H.
Qed.

(** What [strip] with a double quote leaves of a value of a directive. *)
Lemma strip_char_value (v : str) :
  quoted v || plain v = true ->
  v = strip_char dq v \/ v = dq :: strip_char dq v ++ [dq].
Proof.
  intros H. apply orb_true_iff in H. destruct H as [ Hq | Hp ].
  - right. apply quoted_shape in Hq. destruct Hq as (body & -> & Hb).
    f_equal. f_equal. unfold strip_char. cbn [lstrip_char].
    rewrite Ascii.eqb_refl.
    destruct body as [ | a body ].
    + cbn [app lstrip_char]. rewrite Ascii.eqb_refl. reflexivity.
    + assert (lstrip_char dq ((a :: body) ++ [dq]) = (a :: body) ++ [dq])
        as ->.
      { rewrite contains_cons in Hb. apply orb_false_iff in Hb.
        destruct Hb as [ H1 _ ]. cbn [app lstrip_char].
        now rewrite Ascii.eqb_sym, H1. }
      remember (a :: body) as s eqn:Es.
      rewrite rev_app_distr. change (rev [dq]) with [dq].
      cbn [app lstrip_char]. rewrite Ascii.eqb_refl.
      rewrite lstrip_char_fixed by (now rewrite contains_rev).
      now rewrite rev_involutive.
  - left. unfold plain in Hp. apply andb_true_iff in Hp.
    destruct Hp as [ P1 _ ]. apply negb_true_iff in P1.
    unfold strip_char. rewrite (lstrip_char_fixed _ _ P1).
    rewrite lstrip_char_fixed by (now rewrite contains_rev).
    now rewrite rev_involutive.
Qed.

Lemma set_fresh (k v : str) (d : dict) :
  ~ In k (keys d) -> set k v d = d ++ [(k, v)].
Proof.
  induction d as [ | [ k2 v2 ] d IH ]; intros H; [ reflexivity | ].
  cbn [set]. destruct (str_eqb k k2) eqn:E.
  - apply str_eqb_eq in E. subst k2. exfalso. apply H. now left.
  - cbn [app]. rewrite IH; [ reflexivity | ]. intros Hin. apply H. now right.
Qed.

(** The dictionary comprehension on entries with distinct word keys. *)
Lemma collect_entries (es : list (str * str)) (d : dict) :
  forallb read_entry es = true -> NoDup (map fst es) ->
  (forall k, In k (map fst es) -> ~ In k (keys d)) ->
  fold_left collect es d = d ++ map unquote es.
Proof.
  revert d. induction es as [ | [ k v ] es IH ]; intros d Hes Hn Hd;
    cbn [fold_left map]; [ now rewrite app_nil_r | ].
  cbn [forallb] in Hes. apply andb_true_iff in Hes. destruct Hes as [ He Hes ].
  unfold read_entry, word_key in He. cbn [fst snd] in He.
  apply andb_true_iff in He. destruct He as [ Hk _ ].
  apply andb_true_iff in Hk. destruct Hk as [ _ Hw ].
  inversion Hn as [ | ? ? Hnot Hn' ]; subst.
  unfold collect at 2. cbn [fst snd]. rewrite (strip_word _ Hw).
  rewrite set_fresh by (apply Hd; now left).
  rewrite IH; try assumption.
  - rewrite <- app_assoc. reflexivity.
  - intros k' Hin. unfold keys. rewrite map_app. cbn [map fst].
    intros H. apply in_app_or in H. destruct H as [ H | [ <- | [] ] ].
    + revert H. apply Hd. now right.
    + contradiction.
Qed.

(** X26: the reader reads back what the merger writes.  For a settings
    file made of a text without opening parenthesis, a directive whose
    entries have distinct word keys and values that are quoted or hold
    neither a double quote nor a comma, and a rest of the line without
    closing parenthesis, [read_server_settings] reports success and
    returns the entries in their order, each value without its quotes,
    followed by the local address. *)
Theorem settings_are_read_back (pre rest ip : str)
  (es : list (str * str)) :
  contains lparen pre = false -> contains rparen rest = false ->
  forallb read_entry es = true -> NoDup (map fst es) ->
  truthy ip = true ->
  read_server_settings (Some (pre ++ directive es rest)) (Some ip)
  = mk_settings_read (Some (lit "success")) None
      (Some (pre ++ directive es rest))
      (Some (set (lit "LocalIP") ip (map unquote es)))
  /\ forall k v,
      In (k, v) es ->
      v = strip_char dq v \/ v = dq :: strip_char dq v ++ [dq].
Proof.
  intros Hpre Hrest Hes Hn Hip. split.
  - unfold read_server_settings. rewrite Hip.
    set (inner := join comma (map render es)).
    assert (slice (pre ++ directive es rest)
              (find_sub (lit "OptionSettings=(") (pre ++ directive es rest)
               + 16)
              (rfind rparen (pre ++ directive es rest)) = inner) as ->.
    { unfold directive. fold inner.
      change (lit "OptionSettings=(") with (marker ++ [lparen]).
      rewrite (find_sub_found lparen marker pre (inner ++ rparen :: rest)
                 Hpre eq_refl).
      replace (pre ++ marker ++ lparen :: inner ++ rparen :: rest)
        with ((pre ++ marker ++ lparen :: inner) ++ rparen :: rest)
        by (rewrite <- !app_assoc; reflexivity).
      rewrite (rfind_found _ _ _ Hrest).
      replace ((pre ++ marker ++ lparen :: inner) ++ rparen :: rest)
        with ((pre ++ marker ++ [lparen]) ++ inner ++ rparen :: rest)
        by (rewrite <- !app_assoc; reflexivity).
      replace (Z.of_nat (List.length pre) + 16)%Z
        with (Z.of_nat (List.length (pre ++ marker ++ [lparen])))
        by (rewrite !length_app; cbn [List.length marker lit
                                       list_ascii_of_string]; lia).
      replace (List.length (pre ++ marker ++ lparen :: inner))
        with (List.length (pre ++ marker ++ [lparen]) + List.length inner)
        by (rewrite !length_app; cbn [List.length]; rewrite ?length_app;
            cbn [List.length]; lia).
      apply slice_middle. }
    unfold findall_settings, inner.
    rewrite (findall_entries _ _ Hes (le_n _)).
    fold collect. rewrite (collect_entries _ [] Hes Hn);
      [ reflexivity | intros k _ [] ].
  - intros k v Hin. rewrite forallb_forall in Hes.
    specialize (Hes _ Hin). unfold read_entry in Hes. cbn [snd] in Hes.
    apply andb_true_iff in Hes. now apply strip_char_value.
Qed.

Lemma settings_are_read_back_witness :
  read_server_settings
    (Some (header
           ++ directive [(lit "ServerName",
                          dq :: lit "My server, the first" ++ [dq]);
                         (lit "RCONEnabled", lit "True")] [newline]))
    (Some (lit "10.0.0.2"))
  = mk_settings_read (Some (lit "success")) None
      (Some (header
             ++ directive [(lit "ServerName",
                            dq :: lit "My server, the first" ++ [dq]);
                           (lit "RCONEnabled", lit "True")] [newline]))
      (Some (set (lit "LocalIP") (lit "10.0.0.2")
               (map unquote [(lit "ServerName",
                              dq :: lit "My server, the first" ++ [dq]);
                             (lit "RCONEnabled", lit "True")])))
  /\ forall k v,
      In (k, v) [(lit "ServerName", dq :: lit "My server, the first" ++ [dq]);
                 (lit "RCONEnabled", lit "True")] ->
      v = strip_char dq v \/ v = dq :: strip_char dq v ++ [dq].
Proof.
  apply (settings_are_read_back header [newline] (lit "10.0.0.2")
           [(lit "ServerName", dq :: lit "My server, the first" ++ [dq]);
            (lit "RCONEnabled", lit "True")]);
    [ reflexivity | reflexivity | reflexivity | | reflexivity ].
  repeat constructor; simpl; intuition discriminate.
Defined.

(** * The oldest copy: locator and bootstrap sequence *)

Section OldestLocator.

Variable o : os.
Variable run : nat -> lookup.
Variable sv : localserver.

Lemma attempts_loop_bounds (remaining n : nat) :
  n <= ServerManagerOldest.search_lookups (ServerManagerOldest.attempts_loop o run remaining n sv)
  /\ ServerManagerOldest.search_lookups (ServerManagerOldest.attempts_loop o run remaining n sv)
     <= n + remaining
  /\ ServerManagerOldest.search_sleeps (ServerManagerOldest.attempts_loop o run remaining n sv)
     <= ServerManagerOldest.search_lookups
          (ServerManagerOldest.attempts_loop o run remaining n sv)
  /\ (0 < remaining ->
      n < ServerManagerOldest.search_lookups
            (ServerManagerOldest.attempts_loop o run remaining n sv)).
Proof.
  revert n. induction remaining as [ | remaining IH ]; intros n;
    cbn [ServerManagerOldest.attempts_loop].
  - cbn [ServerManagerOldest.search_lookups ServerManagerOldest.search_sleeps]. lia.
  - destruct (run n) as [ text | stdout | ];
      [ cbn [ServerManagerOldest.search_lookups ServerManagerOldest.search_sleeps]; lia
      | | cbn [ServerManagerOldest.search_lookups ServerManagerOldest.search_sleeps]; lia ].
    destruct (truthy stdout).
    + destruct (if is_windows o then _ else _);
        cbn [ServerManagerOldest.search_lookups ServerManagerOldest.search_sleeps]; lia.
    + specialize (IH (S n)). lia.
Qed.

(** Rounds without output are followed by the next round. *)
Lemma attempts_loop_silent (k remaining n : nat) :
  (forall m, n <= m < n + k -> run m = Stdout []) ->
  ServerManagerOldest.attempts_loop o run (k + remaining) n sv
  = ServerManagerOldest.attempts_loop o run remaining (n + k) sv.
Proof.
  revert n. induction k as [ | k IH ]; intros n H.
  - now rewrite Nat.add_0_r.
  - cbn [plus ServerManagerOldest.attempts_loop].
    rewrite (H n) by lia. cbn [truthy].
    rewrite IH by (intros m Hm; apply H; lia).
    now rewrite Nat.add_succ_r.
Qed.

End OldestLocator.

(** X27: the locator of the oldest copy gives up at once when the
    command fails.  It runs between one and ten lookups; a lookup whose
    command exits with an error ends the search with an error result,
    without retry; ten lookups without output end it after ten sleeps,
    with an error result off Windows and with no result at all on
    Windows, where the function falls off its end; and a lookup whose
    command cannot be started lets [OSError] leave the call. *)
Theorem oldest_locator_gives_up (o : os) (run : nat -> lookup)
  (sv : localserver) :
  1 <= ServerManagerOldest.search_lookups (ServerManagerOldest.identify_process_by_name o run sv)
  /\ ServerManagerOldest.search_lookups (ServerManagerOldest.identify_process_by_name o run sv)
     <= 10
  /\ (forall n text,
        n < 10 -> (forall m, m < n -> run m = Stdout []) ->
        run n = CalledProcessError text ->
        exists r,
          ServerManagerOldest.identify_process_by_name o run sv
          = ServerManagerOldest.mk_search (Some r) sv (S n) n None
          /\ is_error r = true)
  /\ ((forall n, n < 10 -> run n = Stdout []) ->
      ServerManagerOldest.identify_process_by_name o run sv
      = ServerManagerOldest.mk_search
          (if is_windows o then None
           else Some (failure
                        (lit "Process not found after multiple attempts.")))
          sv 10 10 None)
  /\ (forall n,
        n < 10 -> (forall m, m < n -> run m = Stdout []) ->
        run n = NotStarted ->
        ServerManagerOldest.identify_process_by_name o run sv
        = ServerManagerOldest.mk_search None sv (S n) n (Some OSError)).
Proof.
  unfold ServerManagerOldest.identify_process_by_name.
  pose proof (attempts_loop_bounds o run sv 10 0) as B.
  split; [ lia | ]. split; [ lia | ]. split; [ | split ].
  - intros n text Hn Hsilent Hfail.
    replace 10 with (n + S (9 - n)) by lia.
    rewrite attempts_loop_silent by (intros m Hm; apply Hsilent; lia).
    cbn [plus ServerManagerOldest.attempts_loop]. rewrite Hfail.
    eexists. split; [ reflexivity | ]. destruct (is_windows o); reflexivity.
  - intros Hsilent.
    change 10 with (10 + 0) at 1.
    rewrite attempts_loop_silent by (intros m Hm; apply Hsilent; lia).
    reflexivity.
  - intros n Hn Hsilent Hfail.
    replace 10 with (n + S (9 - n)) by lia.
    rewrite attempts_loop_silent by (intros m Hm; apply Hsilent; lia).
    cbn [plus ServerManagerOldest.attempts_loop]. now rewrite Hfail.
Qed.

Lemma oldest_locator_gives_up_witness :
  ServerManagerOldest.identify_process_by_name Windows silent
    (quiet_server false)
  = ServerManagerOldest.mk_search None (quiet_server false) 10 10 None.
Proof.
  apply (proj1 (proj2 (proj2 (proj2 (oldest_locator_gives_up Windows silent
                                       (quiet_server false)))))).
  intros n Hn. reflexivity.
Defined.

(** X28: the bootstrap sequence of the oldest copy checks the locator
    before it goes on.  An exception of the locator is passed on; without
    a result from the locator the sequence raises [TypeError]; with a
    result whose status is not [success] it returns the error
    [Error identifying server process]; in these three cases nothing is
    terminated.  With status [success] it passes the value of the result
    to the termination step, whatever that value is; when the kill
    command cannot be started, the sequence ends there with [OSError]. *)
Theorem oldest_first_run_checks_the_locator (w w' : world)
  (out : ServerManagerOldest.ending) :
  ServerManagerOldest.first_run w = (out, w') ->
  match ServerManagerOldest.escaped
          (ServerManagerOldest.identify_process_by_name (app_os w)
             (find_process w)
             (local (snd (ServerManagerOldest.run_server w)))),
        ServerManagerOldest.found_result
          (ServerManagerOldest.identify_process_by_name (app_os w)
             (find_process w)
             (local (snd (ServerManagerOldest.run_server w)))) with
  | Some e, _ =>
      out = ServerManagerOldest.RaisedBy e
      /\ trace w'
         = trace w ++ [Started (fst (ServerManagerOldest.run_server w));
                       Slept 10]
  | None, None =>
      out = ServerManagerOldest.RaisedTypeError
      /\ trace w'
         = trace w ++ [Started (fst (ServerManagerOldest.run_server w));
                       Slept 10]
  | None, Some identified =>
      if is_success identified then
        if kill_started w then
          exists ok later,
            trace w'
            = trace w ++ Started (fst (ServerManagerOldest.run_server w))
                      :: Slept 10 :: Slept 5
                      :: Terminated (value identified) ok :: later
        else
          out = ServerManagerOldest.RaisedBy OSError
          /\ trace w'
             = trace w ++ [Started (fst (ServerManagerOldest.run_server w));
                           Slept 10; Slept 5]
      else
        out = ServerManagerOldest.ReturnedResult
                (error "Error identifying server process")
        /\ trace w'
           = trace w ++ [Started (fst (ServerManagerOldest.run_server w));
                         Slept 10]
  end.
Proof.
  unfold ServerManagerOldest.first_run.
  assert (app_os (snd (ServerManagerOldest.run_server w)) = app_os w
          /\ find_process (snd (ServerManagerOldest.run_server w))
             = find_process w
          /\ trace (snd (ServerManagerOldest.run_server w)) = trace w
          /\ kill_started (snd (ServerManagerOldest.run_server w))
             = kill_started w)
    as (E1 & E2 & E3 & E4)
    by (unfold ServerManagerOldest.run_server; destruct (popen_ok w);
        repeat split).
  destruct (ServerManagerOldest.run_server w) as [ started w1 ].
  cbn [fst snd] in *.
  cbn [log set_local app_os find_process local]. rewrite E1, E2.
  destruct (ServerManagerOldest.escaped _) as [ e | ];
    [ intros [= <- <-]; cbn [trace set_local log]; rewrite E3;
      rewrite <- app_assoc; split; reflexivity | ].
  destruct (ServerManagerOldest.found_result _) as [ identified | ];
    [ | intros [= <- <-]; cbn [trace set_local log]; rewrite E3;
        rewrite <- app_assoc; split; reflexivity ].
  destruct (is_success identified);
    [ | intros [= <- <-]; cbn [trace set_local log]; rewrite E3;
        rewrite <- app_assoc; split; reflexivity ].
  unfold terminate_process_by_pid.
  cbn [log set_local kill_ok kill_started local trace]. rewrite E4.
  destruct (kill_started w);
    [ | intros [= <- <-]; cbn [trace set_local log]; rewrite E3;
        repeat rewrite <- app_assoc; split; reflexivity ].
  destruct (kill_ok w1 (value identified));
    cbn [log set_local set_ini local default_ini delete_ok
      copy_ok public_ip ini ini_left trace].
  - unfold copy_default_settings.
    cbn [log set_local set_ini local default_ini delete_ok
      copy_ok public_ip ini ini_left trace].
    destruct (default_ini w1) as [ d | ];
      cbn [log set_local set_ini local default_ini delete_ok
      copy_ok public_ip ini ini_left
           trace is_success status error];
      [ | intros [= <- <-]; cbn [trace set_local set_ini log]; rewrite E3;
          repeat rewrite <- app_assoc; cbn [app]; eauto ].
    destruct (delete_ok w1);
      cbn [log set_local set_ini local default_ini delete_ok
      copy_ok public_ip ini ini_left
           trace is_success status error];
      [ | intros [= <- <-]; cbn [trace set_local set_ini log]; rewrite E3;
          repeat rewrite <- app_assoc; cbn [app]; eauto ].
    destruct (copy_ok w1);
      cbn [log set_local set_ini local default_ini delete_ok
      copy_ok public_ip ini ini_left
           trace];
      [ | intros [= <- <-]; cbn [trace set_local set_ini log]; rewrite E3;
          repeat rewrite <- app_assoc; cbn [app]; eauto ].
    change (is_success (success "Default settings copied to the server"))
      with true. cbn iota.
    destruct (ServerManagerLocal.update_palworld_settings_ini _ _ _)
      as [ [ e | r ] wr st ]; cbn [ServerManager.ending written].
    + destruct wr; intros [= <- <-]; cbn [trace set_local set_ini log]; rewrite E3;
        repeat rewrite <- app_assoc; cbn [app]; eauto.
    + destruct wr; destruct (is_success r); intros [= <- <-];
        cbn [trace set_local set_ini log]; rewrite E3;
        repeat rewrite <- app_assoc; cbn [app]; eauto.
  - intros [= <- <-]. cbn [trace set_local set_ini log]. rewrite E3.
    repeat rewrite <- app_assoc. cbn [app]. eauto.
Qed.

Lemma oldest_first_run_checks_the_locator_witness :
  exists ok later,
    trace header_only_after
    = trace header_only
      ++ Started (success "Server started successfully")
      :: Slept 10 :: Slept 5
      :: Terminated (Some (lit "No matching processes found.")) ok :: later.
Proof.
  exact (oldest_first_run_checks_the_locator header_only header_only_after
           (ServerManagerOldest.ReturnedResult
              (error "Error copying default settings to the server"))
           eq_refl).
Defined.

(** * The reader of the older copies *)

Lemma read_pieces_render (es : list (str * str)) (d : dict) :
  forallb bare_entry es = true -> NoDup (map fst es) ->
  (forall k, In k (map fst es) -> ~ In k (keys d)) ->
  ServerManagerLocal.read_pieces (map render es) d = Some (d ++ map cut es).
Proof.
  revert d. induction es as [ | [ k v ] es IH ]; intros d Hes Hn Hd;
    cbn [map ServerManagerLocal.read_pieces]; [ now rewrite app_nil_r | ].
  cbn [forallb] in Hes. apply andb_true_iff in Hes. destruct Hes as [ Hb Hes ].
  unfold bare_entry in Hb. cbn [fst] in Hb.
  apply andb_true_iff in Hb. destruct Hb as [ Hb _ ].
  apply andb_true_iff in Hb. destruct Hb as [ Hk _ ].
  apply negb_true_iff in Hk.
  inversion Hn as [ | ? ? Hnot Hn' ]; subst.
  change (render (k, v)) with (k ++ eq_sign :: v).
  rewrite contains_app, contains_cons, Ascii.eqb_refl, orb_true_r.
  rewrite (partition_found _ _ _ Hk). cbn [fst snd].
  rewrite set_fresh by (apply Hd; now left).
  rewrite IH; try assumption.
  - rewrite <- app_assoc. reflexivity.
  - intros k' Hin. unfold keys. rewrite map_app. cbn [map fst].
    intros H. apply in_app_or in H. destruct H as [ H | [ <- | [] ] ].
    + revert H. apply Hd. now right.
    + contradiction.
Qed.

Lemma read_lines_plain (local_ip : option str) (ls : list str)
  (r : ServerManagerLocal.file_read) :
  forallb (fun line => negb (startswith marker line)) ls = true ->
  ServerManagerLocal.read_lines local_ip ls r = r.
Proof.
  revert r. induction ls as [ | line ls IH ]; intros r; [ reflexivity | ].
  cbn [forallb ServerManagerLocal.read_lines]. intros H.
  apply andb_true_iff in H. destruct H as [ H1 H2 ].
  apply negb_true_iff in H1. rewrite H1. now apply IH.
Qed.

Lemma read_lines_app (local_ip : option str) (before ls : list str)
  (r : ServerManagerLocal.file_read) :
  forallb (fun line => negb (startswith marker line)) before = true ->
  ServerManagerLocal.read_lines local_ip (before ++ ls) r
  = ServerManagerLocal.read_lines local_ip ls r.
Proof.
  induction before as [ | line before IH ]; [ reflexivity | ].
  cbn [forallb app ServerManagerLocal.read_lines]. intros H.
  apply andb_true_iff in H. destruct H as [ H1 H2 ].
  apply negb_true_iff in H1. rewrite H1. now apply IH.
Qed.

(** X29: the reader of the older copies on a file whose only directive
    has entries without comma and closing parenthesis and with distinct
    keys: it returns the entries in their order, each value cut at its
    first equals sign, followed by the local address as
    [get_local_ip()] gave it; the status is [error] exactly when that
    address is missing. *)
Theorem older_reader_reads_bare_directives (before after : list str)
  (es : list (str * str)) (rest : str) (local_ip : option str) :
  forallb (fun line => negb (startswith marker line)) before = true ->
  forallb (fun line => negb (startswith marker line)) after = true ->
  es <> [] -> forallb bare_entry es = true -> NoDup (map fst es) ->
  ServerManagerLocal.read_server_settings
    (Some (before ++ directive es rest :: after)) local_ip
  = ServerManagerLocal.mk_file_read
      (Some (if pid_truthy local_ip then lit "success" else lit "error"))
      (if pid_truthy local_ip then None
       else Some (lit "Error getting local IP address"))
      (Some (ServerManagerLocal.FileLines
               (before ++ directive es rest :: after)))
      (Some (ServerManagerLocal.assign (lit "LocalIP") local_ip
               (ServerManagerLocal.entries_of (map cut es)))).
Proof.
  intros Hb Ha Hne Hes Hn. unfold ServerManagerLocal.read_server_settings.
  rewrite (read_lines_app _ _ _ _ Hb).
  cbn [ServerManagerLocal.read_lines]. rewrite directive_startswith.
  destruct (bare_entries_free _ Hes) as [ Hc Hr ].
  unfold directive at 1 2 3.
  rewrite cut_of_directive by (now apply contains_join).
  rewrite split_join_plain;
    [ | destruct es; [ congruence | discriminate ] | assumption ].
  rewrite (read_pieces_render _ [] Hes Hn) by (intros k _ []).
  cbn [app]. rewrite (read_lines_plain _ _ _ Ha).
  cbn [ServerManagerLocal.file_message ServerManagerLocal.file_value].
  reflexivity.
Qed.

Lemma older_reader_reads_bare_directives_witness :
  ServerManagerLocal.read_server_settings
    (Some ([header]
           ++ directive [(lit "ServerDescription", lit "a=b");
                         (lit "RCONEnabled", lit "True")] [newline]
           :: []))
    None
  = ServerManagerLocal.mk_file_read
      (Some (if pid_truthy None then lit "success" else lit "error"))
      (if pid_truthy None then None
       else Some (lit "Error getting local IP address"))
      (Some (ServerManagerLocal.FileLines
               ([header]
                ++ directive [(lit "ServerDescription", lit "a=b");
                              (lit "RCONEnabled", lit "True")] [newline]
                :: [])))
      (Some (ServerManagerLocal.assign (lit "LocalIP") None
               (ServerManagerLocal.entries_of
                  (map cut [(lit "ServerDescription", lit "a=b");
                            (lit "RCONEnabled", lit "True")])))).
Proof.
  apply (older_reader_reads_bare_directives [header] []
           [(lit "ServerDescription", lit "a=b");
            (lit "RCONEnabled", lit "True")] [newline] None);
    [ reflexivity | reflexivity | discriminate | reflexivity | ].
  repeat constructor; simpl; intuition discriminate.
Defined.

(** * The installer *)

(** X30: [install_server] never reports status [error].  A result it
    returns has status [success] when both installations succeeded or
    when [first_run] ran and succeeded, and has no status at all
    otherwise; [first_run] is run exactly when the saved data are
    reported missing.  On Wine, when [steamcmd.exe] is not there after
    the archive has been unpacked, [install_steamcmd] returns nothing and
    [install_server] raises [TypeError]. *)
Theorem install_server_never_reports_an_error (inst : installation)
  (w : world) :
  (forall r w',
      install_server inst w = Some (InstallReturned r, w') ->
      report_status r
      = (if (is_success (report_steamcmd r) && report_palserver_ok r)
            || match report_first_run r with
               | Some first_run_result => is_success first_run_result
               | None => false
               end
         then Some (lit "success") else None)
      /\ (report_first_run r <> None <-> saved_data inst = Some false)
      /\ report_status r <> Some (lit "error"))
  /\ (app_os w = Wine -> steamcmd_known inst = false ->
      wineprefix (setup inst) <> None ->
      download_ok (setup inst) && unzip_ok (setup inst)
      && remove_ok (setup inst) = true ->
      steamcmd_present (setup inst) = false ->
      install_steamcmd Wine (setup inst) = SteamcmdNothing
      /\ install_server inst w = Some (InstallTypeError, w)).
Proof.
  split.
  - intros r w'. unfold install_server.
    destruct (if negb (steamcmd_known inst) then _ else _)
      as [ e | | steamcmd ]; try discriminate.
    destruct (saved_data inst) as [ [ | ] | ] eqn:S.
    + intros [= <- <-]. cbn [report_status report_steamcmd
                               report_palserver_ok report_first_run].
      rewrite orb_false_r.
      destruct (is_success steamcmd && palserver_ok inst);
        repeat split; try discriminate; intros H; congruence.
    + destruct (first_run w) as [ [ [ e | fr ] w1 ] | ]; try discriminate.
      intros [= <- <-]. cbn [report_status report_steamcmd
                               report_palserver_ok report_first_run].
      destruct (is_success fr), (is_success steamcmd && palserver_ok inst);
        repeat split; try discriminate; intros H; congruence.
    + intros [= <- <-]. cbn [report_status report_steamcmd
                               report_palserver_ok report_first_run].
      rewrite orb_false_r.
      destruct (is_success steamcmd && palserver_ok inst);
        repeat split; try discriminate; intros H; congruence.
  - intros Ho Hk Hw Hok Hp.
    assert (install_steamcmd Wine (setup inst) = SteamcmdNothing) as E.
    { unfold install_steamcmd.
      destruct (wineprefix (setup inst)); [ | congruence ].
      apply andb_true_iff in Hok. destruct Hok as [ Hok H3 ].
      apply andb_true_iff in Hok. destruct Hok as [ H1 H2 ].
      now rewrite H1, H2, H3, Hp. }
    split; [ assumption | ].
    unfold install_server. now rewrite Hk, Ho, E.
Qed.

Lemma install_server_never_reports_an_error_witness :
  install_steamcmd Wine
    (mk_steamcmd_setup (Some (lit "/home/steam/.wine")) true true true false
                       true)
  = SteamcmdNothing
  /\ install_server
       (mk_installation false
          (mk_steamcmd_setup (Some (lit "/home/steam/.wine")) true true true
                             false true)
          true (Some false))
       (mk_world Wine (quiet_server false) silent true true pid_truthy true
                 (Some default_settings) true true (Lines []) no_file
                 (Some (lit "203.0.113.7")) [])
     = Some (InstallTypeError,
             mk_world Wine (quiet_server false) silent true true pid_truthy true
                      (Some default_settings) true true (Lines []) no_file
                      (Some (lit "203.0.113.7")) []).
Proof.
  apply (proj2 (install_server_never_reports_an_error
                  (mk_installation false
                     (mk_steamcmd_setup (Some (lit "/home/steam/.wine")) true
                                        true true false true)
                     true (Some false))
                  (mk_world Wine (quiet_server false) silent true true
                            pid_truthy true (Some default_settings) true true
                            (Lines []) no_file
                            (Some (lit "203.0.113.7")) [])));
    [ reflexivity | reflexivity | discriminate | reflexivity | reflexivity ].
Defined.
